(** * web100 userland: the agent library and the connection correlation

    A shallow embedding of [util/gui/web100.c] (schema store, connection
    catalog, raw access, snapshots and deltas, error text) and of the
    collation phase of [util/gui/connection_info.c], followed by the
    properties established about them.

    Conventions of the embedding.
    - C [int]s are [Z].  A pointer into one of the linked lists is the
      list from that node on ([NULL] is the empty list); another pointer
      that may be [NULL] is an [option].
    - Buffers are [list byte]; a multi-byte object in memory is the
      little-endian image of its value ([le_combine] / [le_split]), the
      byte order of the hosts the library was written for.
    - The process-wide [web100_errno], the files below the instrumentation
      root and the sequence of C library calls performed are threaded
      explicitly as a [state].
    - [malloc] is taken to succeed; what it returns is uninitialised and
      is supplied to the model as an explicit "junk" argument.
    - The two files take constants and types from [web100.h],
      [web100-int.h] and [connection_info-int.h], which this development
      does not embed.  String macros and the numbering of the wire-type
      enumeration are section variables; the error numbers follow the
      comments of [web100_sys_errlist]. *)

From Stdlib Require Import ZArith List String Ascii Bool Lia.
From Stdlib Require DecimalString.
From coqutil Require Import Byte Word.LittleEndianList.
Import ListNotations.
Local Open Scope string_scope.
Local Open Scope list_scope.
Local Open Scope Z_scope.

(* ================================================================== *)
(** * Part I: the embedding                                            *)
(* ================================================================== *)

(** ** Error numbers

    [web100_sys_errlist] "must be kept in sync with the defined errors in
    web100.h"; the comment next to each entry names the error whose number
    is the entry's index. *)

Definition WEB100_ERR_SUCCESS : Z := 0.
Definition WEB100_ERR_SYS : Z := 1.
Definition WEB100_ERR_AGENT_TYPE : Z := 2.
Definition WEB100_ERR_NOMEM : Z := 3.
Definition WEB100_ERR_NOCONNECTION : Z := 4.
Definition WEB100_ERR_INVAL : Z := 5.
Definition WEB100_ERR_HEADER : Z := 6.
Definition WEB100_ERR_NOVAR : Z := 7.

Section ErrorText.

(** The macro [WEB100_HEADER_FILE] (a string literal) of [web100.h]; its
    value is left open. *)
Variable WEB100_HEADER_FILE : string.

Definition web100_sys_errlist : list string :=
  [ "success";
    "system error";
    "unsupported agent type";
    "no memory";
    "unable to open connection stats";
    "invalid arguments";
    ("could not parse " ++ WEB100_HEADER_FILE)%string;
    "variable not found" ].

(** [ARRAYSIZE(web100_sys_errlist)] *)
Definition web100_sys_nerr : Z := Z.of_nat (List.length web100_sys_errlist).

(** Indexing a C array: [None] stands for an access outside the array. *)
Definition array_get {A : Type} (a : list A) (i : Z) : option A :=
  if i <? 0 then None else nth_error a (Z.to_nat i).

(** [web100_strerror]: the result is [None] only if the array were read
    out of bounds. *)
Definition web100_strerror (errnum : Z) : option string :=
  if (errnum <? 0) || (errnum >=? web100_sys_nerr)
  then Some "unknown error"
  else array_get web100_sys_errlist errnum.

End ErrorText.

(** ** Wire types and the schema records *)

(** The enumeration [WEB100_TYPE]; the constants are those named in
    [size_from_type] and [web100_value_to_text]. *)
Inductive WEB100_TYPE : Type :=
| WEB100_TYPE_INTEGER
| WEB100_TYPE_INTEGER32
| WEB100_TYPE_IP_ADDRESS
| WEB100_TYPE_COUNTER32
| WEB100_TYPE_GAUGE32
| WEB100_TYPE_UNSIGNED32
| WEB100_TYPE_TIME_TICKS
| WEB100_TYPE_COUNTER64
| WEB100_TYPE_UNSIGNED16.

(** [size_from_type].  The [default: assert(FALSE)] branch is taken by no
    member of the enumeration; an integer of the header file that denotes
    no member is rejected where it is scanned (see [scan_var] below),
    which is where the assertion fires in the C code. *)
Definition size_from_type (type : WEB100_TYPE) : Z :=
  match type with
  | WEB100_TYPE_INTEGER
  | WEB100_TYPE_INTEGER32
  | WEB100_TYPE_IP_ADDRESS
  | WEB100_TYPE_COUNTER32
  | WEB100_TYPE_GAUGE32
  | WEB100_TYPE_UNSIGNED32
  | WEB100_TYPE_TIME_TICKS => 4
  | WEB100_TYPE_COUNTER64 => 8
  | WEB100_TYPE_UNSIGNED16 => 2
  end.

(** Modelled from the spec: the agent kinds, declared in [web100.h]; the
    spec knows one supported kind, the local one, and "no support for
    instrumentation sources other than the local one". *)
Inductive WEB100_AGENT_TYPE : Type :=
| WEB100_AGENT_TYPE_LOCAL
| WEB100_AGENT_TYPE_OTHER (method : Z).

Definition is_local (t : WEB100_AGENT_TYPE) : bool :=
  match t with WEB100_AGENT_TYPE_LOCAL => true | WEB100_AGENT_TYPE_OTHER _ => false end.

(** Addresses of heap objects; pointer comparison is comparison of
    addresses. *)
Definition ptr : Type := nat.

(** What a [web100_agent*] held by another object gives access to: the
    identity of the agent and its (immutable) type. *)
Record agent_ref : Type := mk_agent_ref {
  agent_addr : ptr;
  agent_type : WEB100_AGENT_TYPE }.

(** What a [web100_group*] held by a variable gives access to. *)
Record group_ref : Type := mk_group_ref {
  group_addr : ptr;
  group_agent : agent_ref;
  group_name : string }.

Record web100_var : Type := mk_var {
  var_group : group_ref;
  var_name : string;
  var_offset : Z;
  var_type : WEB100_TYPE }.

Record web100_group : Type := mk_group {
  group_self : group_ref;
  group_size : Z;
  group_nvars : Z;
  var_head : list web100_var }.

(** [struct web100_connection_spec], in the order in which
    [refresh_connections] reads the fields. *)
Record web100_connection_spec : Type := mk_spec {
  dst_port : Z;
  dst_addr : Z;
  src_port : Z;
  src_addr : Z }.

Record web100_connection : Type := mk_connection {
  conn_agent : agent_ref;
  conn_cid : Z;
  conn_spec : web100_connection_spec }.

Record web100_agent : Type := mk_agent {
  agent_self : agent_ref;
  agent_version : string;
  group_head : list web100_group;
  connection_head : list web100_connection }.

Record web100_snapshot : Type := mk_snapshot {
  snap_group : web100_group;
  snap_connection : web100_connection;
  snap_data : list byte }.

(** ** The state threaded through the library

    [web100_errno], the files and directories the library looks at, and
    a trace, most recent first, of the calls the library makes on
    directories and streams, of the connections it releases ([free(cp)])
    and of its messages on the error stream.  Allocation, the release of
    groups, variables and agents, and the token reads ([fscanf],
    [fgetc]) on the header file leave no trace. *)

Inductive event : Type :=
| EvOpendir (path : string)
| EvReaddir
| EvClosedir
| EvFopen (path : string) (mode : string)
| EvFseek (path : string) (offset : Z)
| EvFread (path : string) (size : Z)
| EvFwrite (path : string) (data : list byte)
| EvFclose (path : string)
| EvFree (cid : Z)
| EvStderr (msg : string).

Record state : Type := mk_state {
  web100_errno : Z;
  files : string -> option (list byte);
  dirs : string -> option (list string);
  trace : list event }.

Definition M (A : Type) : Type := state -> A * state.

Definition ret {A : Type} (a : A) : M A := fun s => (a, s).

Definition bind {A B : Type} (m : M A) (k : A -> M B) : M B :=
  fun s => let (a, s') := m s in k a s'.

Declare Scope io_scope.
Delimit Scope io_scope with io.
Notation "x <- m ;; k" := (bind m (fun x => k))
  (at level 61, m at next level, right associativity) : io_scope.
Notation "m ;; k" := (bind m (fun _ => k))
  (at level 61, right associativity) : io_scope.
Local Open Scope io_scope.

Definition log (e : event) : M unit :=
  fun s => (tt, mk_state (web100_errno s) (files s) (dirs s) (e :: trace s)).

Definition set_errno (e : Z) : M unit :=
  fun s => (tt, mk_state e (files s) (dirs s) (trace s)).

Definition get_errno : M Z := fun s => (web100_errno s, s).

(** [perror] and [fprintf(stderr, ...)]: only the fact that something was
    written to the error stream is recorded. *)
Definition perror (msg : string) : M unit := log (EvStderr msg).

(** An open [FILE*]: the file it reads or writes and the position. *)
Record FILE : Type := mk_FILE { f_path : string; f_pos : Z }.

(** [fopen].  The files of the instrumentation tree are kernel objects:
    opening one, also for writing, neither creates nor truncates it, and
    fails when it does not exist. *)
Definition fopen (path mode : string) : M (option FILE) :=
  fun s =>
    let (_, s1) := log (EvFopen path mode) s in
    match files s path with
    | Some _ => (Some (mk_FILE path 0), s1)
    | None => (None, s1)
    end.

(** [fseek(fp, offset, SEEK_SET)]: 0 on success, -1 for a negative
    offset; the new stream comes with the result. *)
Definition fseek (fp : FILE) (offset : Z) : M (Z * FILE) :=
  (log (EvFseek (f_path fp) offset) ;;
   if offset <? 0 then ret (-1, fp) else ret (0, mk_FILE (f_path fp) offset)).

(** The [n] bytes at position [pos] of a buffer, when they are all
    there. *)
Definition bytes_at (data : list byte) (pos n : Z) : option (list byte) :=
  if (0 <=? pos) && (0 <=? n) && (pos + n <=? Z.of_nat (List.length data))
  then Some (firstn (Z.to_nat n) (skipn (Z.to_nat pos) data))
  else None.

(** [fread(buf, size, 1, fp)]: [Some] of the bytes read when the one item
    was read in full ([fread] returns 1), [None] otherwise; a [size] of
    zero makes [fread] return 0. *)
Definition fread (size : Z) (fp : FILE) : M (option (list byte) * FILE) :=
  fun s =>
    let (_, s1) := log (EvFread (f_path fp) size) s in
    match files s (f_path fp) with
    | Some data =>
        match bytes_at data (f_pos fp) size with
        | Some bs =>
            if size =? 0 then (None, fp, s1)
            else (Some bs, mk_FILE (f_path fp) (f_pos fp + size), s1)
        | None => (None, fp, s1)
        end
    | None => (None, fp, s1)
    end.

(** Overwriting [bs] at position [pos]; a write past the end extends the
    data, the gap reading as zero. *)
Definition write_at (data : list byte) (pos : Z) (bs : list byte) : list byte :=
  let p := Z.to_nat pos in
  firstn p (data ++ repeat Byte.x00 (p - List.length data))
  ++ bs ++ skipn (p + List.length bs) data.

(** [fwrite(buf, size, 1, fp)] with [buf] holding [bs]: [true] when the
    item was written. *)
Definition fwrite (bs : list byte) (fp : FILE) : M (bool * FILE) :=
  fun s =>
    let (_, s1) := log (EvFwrite (f_path fp) bs) s in
    match files s (f_path fp) with
    | Some data =>
        if (List.length bs =? 0)%nat then (false, fp, s1)
        else
          let data' := write_at data (f_pos fp) bs in
          (true, mk_FILE (f_path fp) (f_pos fp + Z.of_nat (List.length bs)),
           mk_state (web100_errno s1)
                    (fun p => if String.eqb p (f_path fp) then Some data' else files s1 p)
                    (dirs s1) (trace s1))
    | None => (false, fp, s1)
    end.

(** [fclose]: taken to succeed. *)
Definition fclose (fp : FILE) : M unit := log (EvFclose (f_path fp)).

(** ** Scanning text: [isspace], [atoi], and [fscanf]'s [%d] *)

Definition isspace (c : ascii) : bool :=
  let n := nat_of_ascii c in
  (n =? 32)%nat || ((9 <=? n)%nat && (n <=? 13)%nat).

Definition isdigit (c : ascii) : bool :=
  let n := nat_of_ascii c in (48 <=? n)%nat && (n <=? 57)%nat.

Definition digit_value (c : ascii) : Z := Z.of_nat (nat_of_ascii c) - 48.

Fixpoint skip_space (s : string) : string :=
  match s with
  | String c r => if isspace c then skip_space r else s
  | EmptyString => s
  end.

(** The longest prefix of decimal digits: its value on top of [acc], how
    many digits it has, and what follows it. *)
Fixpoint scan_digits (acc : Z) (n : nat) (s : string) : Z * nat * string :=
  match s with
  | String c r =>
      if isdigit c then scan_digits (10 * acc + digit_value c) (S n) r
      else (acc, n, s)
  | EmptyString => (acc, n, s)
  end.

(** An optional sign and the digits after it. *)
Definition scan_signed (s : string) : Z * nat * string :=
  match s with
  | String "-" r => let '(v, n, rest) := scan_digits 0 0 r in (- v, n, rest)
  | String "+" r => scan_digits 0 0 r
  | _ => scan_digits 0 0 s
  end.

(** The number an [int] receives from a decimal text whose digits
    denote [v].  The C library converts with [strtol], which saturates at
    the bounds of a 64-bit [long]; the [long] is then stored in an [int],
    which keeps its low 32 bits.  (The C standard leaves a value outside
    the range of [int] undefined; this is what the library does.) *)
Definition strtol_value (v : Z) : Z := Z.max (- 2 ^ 63) (Z.min (2 ^ 63 - 1) v).
Definition int_of_long (v : Z) : Z := (v + 2 ^ 31) mod 2 ^ 32 - 2 ^ 31.
Definition int_of_digits (v : Z) : Z := int_of_long (strtol_value v).

(** [atoi]: white space, an optional sign, decimal digits; 0 when there
    are no digits. *)
Definition atoi (s : string) : Z :=
  let '(v, _, _) := scan_signed (skip_space s) in int_of_digits v.

(** [%d] applied to the text [s]: the [int] stored and the text left in
    the stream, or [None] when no number starts [s]. *)
Definition read_int (s : string) : option (Z * string) :=
  let '(v, n, rest) := scan_signed (skip_space s) in
  match n with O => None | S _ => Some (int_of_digits v, rest) end.

(** [d_name[0]], the terminating NUL for the empty name. *)
Definition first_char (s : string) : ascii :=
  match s with String c _ => c | EmptyString => zero end.

(** [strcmp(a, b) == 0] on NUL-terminated strings held as [string]. *)
Definition streq (a b : string) : bool := String.eqb a b.

(** ** Schema store: [_web100_agent_attach_local] *)

(** The header file as the scanner of the C library delivers it: the
    first line (what ["%[^\n]"] reads) and then the white-space separated
    tokens.  A conversion that stops inside a token leaves the rest of the
    token in the stream ([push_back]). *)
Record header_stream : Type := mk_header {
  first_line : string;
  tokens : list string }.

Definition push_back (rest : string) (toks : list string) : list string :=
  match rest with EmptyString => toks | _ => rest :: toks end.

(** One [%d] conversion on the stream. *)
Definition scan_int (toks : list string) : option (Z * list string) :=
  match toks with
  | [] => None
  | t :: toks' =>
      match read_int t with
      | Some (z, rest) => Some (z, push_back rest toks')
      | None => None
      end
  end.

(** Where [gp] points: nowhere, to a group that is not linked into the
    agent (the one named "spec"), or to the first group of the agent's
    list.  In the last case an update through [gp] is an update of that
    list element.  The variable list of the group that is not linked is
    never initialised by the code and never read back; here it holds the
    variables added to it. *)
Inductive gp_ptr : Type :=
| GpNull
| GpDiscard (g : web100_group)
| GpHead.

Record parse_state : Type := mk_parse_state {
  ps_next : ptr;                      (* the next address malloc returns *)
  ps_group_head : list web100_group;  (* agent->info.local.group_head *)
  ps_gp : gp_ptr }.

Inductive parse_result : Type :=
| ParseOk (st : parse_state)
| ParseError (errno : Z) (groups : list web100_group)
                                      (* goto Cleanup with web100_errno set;
                                         agent->info.local.group_head then *)
| ParseAbort                          (* assert(FALSE) in size_from_type *)
| ParseFuel.

(** [gp->size += size_from_type(vp->type); gp->nvars++;] and the linking
    of [vp] in front of [gp]'s variables. *)
Definition add_var (g : web100_group) (name : string) (offset : Z) (type : WEB100_TYPE)
  : web100_group :=
  mk_group (group_self g)
           (group_size g + size_from_type type)
           (group_nvars g + 1)
           (mk_var (group_self g) name offset type :: var_head g).

(** What a call yields that may end in the failed assertion of
    [size_from_type] or in a memory access outside an object. *)
Inductive outcome (A : Type) : Type :=
| Returns (a : A)
| Aborts.
Arguments Returns {A} a.
Arguments Aborts {A}.

(** The [while (cp)] loop that releases a connection list. *)
Fixpoint free_connections (cp : list web100_connection) : M unit :=
  match cp with
  | [] => ret tt
  | c :: cp2 => log (EvFree (conn_cid c)) ;; free_connections cp2
  end.

(** [web100_detach]: nothing for [NULL] and for an agent that is not
    local; otherwise the groups with their variables, the connections
    and the agent are released. *)
Definition web100_detach (agent : option web100_agent) : M unit :=
  match agent with
  | None => ret tt
  | Some a =>
      if is_local (agent_type (agent_self a))
      then free_connections (connection_head a)
      else ret tt
  end.

Section SchemaStore.

(** The macro [WEB100_HEADER_FILE] of [web100.h]. *)
Variable WEB100_HEADER_FILE : string.

(** The numbering of [WEB100_TYPE], fixed in [web100.h]: the member an
    integer of the header file denotes, if any. *)
Variable WEB100_TYPE_of_int : Z -> option WEB100_TYPE.

(** [_web100_agent_attach_local] never writes
    [agent->info.local.group_head] and
    [agent->info.local.connection_head] before it reads them: they hold
    what the memory [malloc] returned held.  [junk_group_head] and
    [junk_connection_head] are the lists these two pointers denote
    ([[]] where the memory is zero; a pointer that denotes no list is
    outside the model). *)
Variable junk_group_head : list web100_group.
Variable junk_connection_head : list web100_connection.

(** The record ["%s%d%d"] whose name is the token [name], added to the
    group [gp] points to. *)
Definition scan_var (name : string) (toks : list string) (st : parse_state)
  : parse_result * list string :=
  match scan_int toks with
  | None => (ParseError WEB100_ERR_HEADER (ps_group_head st), toks)
  | Some (offset, toks1) =>
      match scan_int toks1 with
      | None => (ParseError WEB100_ERR_HEADER (ps_group_head st), toks1)
      | Some (ty, toks2) =>
          match WEB100_TYPE_of_int ty with
          | None => (ParseAbort, toks2)
          | Some type =>
              match ps_gp st with
              | GpNull => (ParseError WEB100_ERR_HEADER (ps_group_head st), toks2)
              | GpDiscard g =>
                  (ParseOk (mk_parse_state (S (ps_next st)) (ps_group_head st)
                                           (GpDiscard (add_var g name offset type))),
                   toks2)
              | GpHead =>
                  match ps_group_head st with
                  | g :: gs =>
                      (ParseOk (mk_parse_state (S (ps_next st))
                                               (add_var g name offset type :: gs) GpHead),
                       toks2)
                  | [] => (ParseError WEB100_ERR_HEADER (ps_group_head st), toks2)
                  end
              end
          end
      end
  end.

(** The [while (!feof(header) && !ferror(header))] loop.  Every round
    takes at least one token off the stream, so [fuel] equal to the
    number of tokens is never used up. *)
Fixpoint attach_loop (agent : agent_ref) (fuel : nat) (toks : list string)
  (st : parse_state) : parse_result :=
  match toks with
  | [] => ParseOk st
  | t :: toks' =>
      match fuel with
      | O => ParseFuel
      | S fuel' =>
          match t with
          | EmptyString => attach_loop agent fuel' toks' st
          | String "/" rest =>
              match push_back rest toks' with
              | [] => ParseError WEB100_ERR_HEADER (ps_group_head st)
              | name :: toks'' =>
                  let g := mk_group (mk_group_ref (ps_next st) agent name) 0 0 [] in
                  if streq name "spec"
                  then attach_loop agent fuel' toks''
                         (mk_parse_state (S (ps_next st)) (ps_group_head st) (GpDiscard g))
                  else attach_loop agent fuel' toks''
                         (mk_parse_state (S (ps_next st)) (g :: ps_group_head st) GpHead)
              end
          | _ =>
              match ps_gp st with
              | GpNull => ParseError WEB100_ERR_HEADER (ps_group_head st)
              | _ =>
                  match scan_var t toks' st with
                  | (ParseOk st', toks'') => attach_loop agent fuel' toks'' st'
                  | (r, _) => r
                  end
              end
          end
      end
  end.

(** [_web100_agent_attach_local].  [header] is what the header file
    holds, [None] when it cannot be opened; [next] is the address
    [malloc] returns for the agent.  The failed assertion of
    [size_from_type] ends the program with the header file open. *)
Definition _web100_agent_attach_local (header : option header_stream) (next : ptr)
  : M (outcome (option web100_agent)) :=
  let agent := mk_agent_ref next WEB100_AGENT_TYPE_LOCAL in
  (* the label Cleanup, reached with [web100_errno] not WEB100_ERR_SUCCESS *)
  let cleanup_failure (opened : bool) (version : string) (groups : list web100_group) :=
    (if opened then fclose (mk_FILE WEB100_HEADER_FILE 0) else ret tt) ;;
    web100_detach (Some (mk_agent agent version groups junk_connection_head)) ;;
    ret (Returns None) in
  log (EvFopen WEB100_HEADER_FILE "r") ;;
  match header with
  | None =>
      set_errno WEB100_ERR_HEADER ;;
      cleanup_failure false "" junk_group_head
  | Some h =>
      match first_line h with
      | EmptyString =>
          set_errno WEB100_ERR_HEADER ;;
          cleanup_failure true "" junk_group_head
      | version =>
          match attach_loop agent (List.length (tokens h)) (tokens h)
                            (mk_parse_state (S next) junk_group_head GpNull) with
          | ParseOk st =>
              set_errno WEB100_ERR_SUCCESS ;;
              fclose (mk_FILE WEB100_HEADER_FILE 0) ;;
              ret (Returns (Some (mk_agent agent version (ps_group_head st)
                                           junk_connection_head)))
          | ParseError e groups =>
              set_errno e ;;
              cleanup_failure true version groups
          | ParseAbort => ret Aborts
          | ParseFuel => ret Aborts
          end
      end
  end.

End SchemaStore.

(** ** Enumeration and lookup

    A pointer to a node of one of the library's singly linked lists is
    represented by the part of the list that starts at that node; [NULL]
    is the empty list. *)

Definition web100_group_head (agent : web100_agent) : M (list web100_group) :=
  if is_local (agent_type (agent_self agent))
  then set_errno WEB100_ERR_SUCCESS ;; ret (group_head agent)
  else set_errno WEB100_ERR_AGENT_TYPE ;; ret [].

Definition web100_group_next (group : list web100_group) : M (list web100_group) :=
  match group with
  | [] => ret []
  | g :: next =>
      if is_local (agent_type (group_agent (group_self g)))
      then set_errno WEB100_ERR_SUCCESS ;; ret next
      else set_errno WEB100_ERR_AGENT_TYPE ;; ret []
  end.

(** The [while (gp)] loop of [web100_group_find]. *)
Fixpoint group_find_loop (gp : list web100_group) (name : string) : list web100_group :=
  match gp with
  | [] => []
  | g :: next =>
      if streq (group_name (group_self g)) name then gp
      else group_find_loop next name
  end.

Definition web100_group_find (agent : web100_agent) (name : string)
  : M (list web100_group) :=
  if is_local (agent_type (agent_self agent))
  then set_errno WEB100_ERR_SUCCESS ;; ret (group_find_loop (group_head agent) name)
  else set_errno WEB100_ERR_AGENT_TYPE ;; ret [].

Definition web100_var_head (group : web100_group) : M (list web100_var) :=
  if is_local (agent_type (group_agent (group_self group)))
  then set_errno WEB100_ERR_SUCCESS ;; ret (var_head group)
  else set_errno WEB100_ERR_AGENT_TYPE ;; ret [].

(** The [while (vp)] loop of [web100_var_find]. *)
Fixpoint var_find_loop (vp : list web100_var) (name : string) : list web100_var :=
  match vp with
  | [] => []
  | v :: next =>
      if streq (var_name v) name then vp
      else var_find_loop next name
  end.

Definition web100_var_find (group : web100_group) (name : string)
  : M (list web100_var) :=
  if is_local (agent_type (group_agent (group_self group)))
  then set_errno WEB100_ERR_SUCCESS ;; ret (var_find_loop (var_head group) name)
  else set_errno WEB100_ERR_AGENT_TYPE ;; ret [].

(** The loop of [web100_agent_find_var_and_group] over the groups from
    [g] on; the result is the return value with [*group] and [*var]. *)
Fixpoint find_var_and_group_loop (g : list web100_group) (name : string)
  : M (Z * option (web100_group * web100_var)) :=
  match g with
  | [] => set_errno WEB100_ERR_NOVAR ;; ret (WEB100_ERR_NOVAR, None)
  | grp :: next =>
      v <- web100_var_find grp name ;;
      match v with
      | var :: _ => ret (WEB100_ERR_SUCCESS, Some (grp, var))
      | [] =>
          (* web100_group_next *)
          if is_local (agent_type (group_agent (group_self grp)))
          then set_errno WEB100_ERR_SUCCESS ;; find_var_and_group_loop next name
          else set_errno WEB100_ERR_AGENT_TYPE ;;
               set_errno WEB100_ERR_NOVAR ;; ret (WEB100_ERR_NOVAR, None)
      end
  end.

Definition web100_agent_find_var_and_group (agent : web100_agent) (name : string)
  : M (Z * option (web100_group * web100_var)) :=
  g <- web100_group_head agent ;;
  find_var_and_group_loop g name.

(** ** Connection catalog: [refresh_connections] *)

Section Catalog.

(** The macro [WEB100_ROOT_DIR] of [web100.h]; its value is left open. *)
Variable WEB100_ROOT_DIR : string.

(** The content of the memory [malloc] returns for the [n]-th connection
    of a rebuild. *)
Variable junk : nat -> web100_connection_spec.

(** The test that makes the directory loop [continue]. *)
Definition skips_entry (d_name : string) : bool :=
  (atoi d_name =? 0) && negb (Ascii.eqb (first_char d_name) "0").

(** The four [fread]s into [cp->spec], left to right, stopping at the
    first that fails.  A field whose [fread] did not succeed keeps what
    it held (in C a partly read field is indeterminate).  The result says
    whether all four succeeded. *)
Definition read_spec (fp : FILE) (sp : web100_connection_spec)
  : M (bool * web100_connection_spec) :=
  r1 <- fread 2 fp ;;
  match r1 with
  | (None, _) => ret (false, sp)
  | (Some b1, fp1) =>
      let sp1 := mk_spec (le_combine b1) (dst_addr sp) (src_port sp) (src_addr sp) in
      r2 <- fread 4 fp1 ;;
      match r2 with
      | (None, _) => ret (false, sp1)
      | (Some b2, fp2) =>
          let sp2 := mk_spec (dst_port sp1) (le_combine b2) (src_port sp1) (src_addr sp1) in
          r3 <- fread 2 fp2 ;;
          match r3 with
          | (None, _) => ret (false, sp2)
          | (Some b3, fp3) =>
              let sp3 := mk_spec (dst_port sp2) (dst_addr sp2) (le_combine b3) (src_addr sp2) in
              r4 <- fread 4 fp3 ;;
              match r4 with
              | (None, _) => ret (false, sp3)
              | (Some b4, _) =>
                  ret (true, mk_spec (dst_port sp3) (dst_addr sp3) (src_port sp3) (le_combine b4))
              end
          end
      end
  end.

(** The [while ((ent = readdir(dir)))] loop.  [ents] are the names
    [readdir] is still to deliver and [head] is
    [agent->info.local.connection_head]; the new connection is linked in
    front of the list before its spec file is opened, so an early return
    leaves it there. *)
Fixpoint readdir_loop (agent : agent_ref) (ents : list string)
  (head : list web100_connection) : M (Z * list web100_connection) :=
  match ents with
  | [] =>
      log EvReaddir ;;
      log EvClosedir ;;
      ret (WEB100_ERR_SUCCESS, head)
  | d_name :: rest =>
      log EvReaddir ;;
      let cid := atoi d_name in
      if skips_entry d_name then readdir_loop agent rest head
      else
        let cp := mk_connection agent cid (junk (List.length head)) in
        fp <- fopen (WEB100_ROOT_DIR ++ d_name ++ "/spec")%string "r" ;;
        match fp with
        | None =>
            perror "refresh_connections: fopen" ;;
            ret (WEB100_ERR_SYS, cp :: head)
        | Some fp =>
            r <- read_spec fp (conn_spec cp) ;;
            match r with
            | (false, sp) =>
                perror "fread" ;;
                perror "refresh_connections: bad spec file format" ;;
                ret (WEB100_ERR_SYS, mk_connection agent cid sp :: head)
            | (true, sp) =>
                fclose fp ;;
                readdir_loop agent rest (mk_connection agent cid sp :: head)
            end
        end
  end.

(** [refresh_connections]: the return value and the agent as the call
    leaves it. *)
Definition refresh_connections (agent : web100_agent) : M (Z * web100_agent) :=
  let with_head head :=
    mk_agent (agent_self agent) (agent_version agent) (group_head agent) head in
  free_connections (connection_head agent) ;;
  log (EvOpendir WEB100_ROOT_DIR) ;;
  fun s =>
    match dirs s WEB100_ROOT_DIR with
    | None =>
        (perror "refresh_connections: opendir" ;;
         ret (WEB100_ERR_SYS, with_head [])) s
    | Some ents =>
        (r <- readdir_loop (agent_self agent) ents [] ;;
         ret (fst r, with_head (snd r))) s
    end.

(** [web100_connection_head]: the pointer returned to the caller and the
    agent after the call. *)
Definition web100_connection_head (agent : web100_agent)
  : M (list web100_connection * web100_agent) :=
  if is_local (agent_type (agent_self agent))
  then
    r <- refresh_connections agent ;;
    set_errno (fst r) ;;
    if fst r =? WEB100_ERR_SUCCESS
    then ret (connection_head (snd r), snd r)
    else ret ([], snd r)
  else set_errno WEB100_ERR_AGENT_TYPE ;; ret ([], agent).

End Catalog.

(** ** Raw access, snapshots, deltas *)

(** [memcpy(dst, src, n)] seen from [dst]: its first [n] bytes are
    replaced by the bytes [src] of length [n]. *)
Definition memcpy_into (dst src : list byte) : list byte :=
  src ++ skipn (List.length src) dst.

Section RawAccess.

Variable WEB100_ROOT_DIR : string.

(** [sprintf(filename, "%s/%d/%s", WEB100_ROOT_DIR, cid, name)] *)
Definition stats_filename (cid : Z) (name : string) : string :=
  (WEB100_ROOT_DIR ++ "/" ++ DecimalString.NilZero.string_of_int (Z.to_int cid)
   ++ "/" ++ name)%string.

(** [web100_raw_read]: the return value and the caller's buffer after the
    call.  A failed [fread] is taken to leave the buffer as it was. *)
Definition web100_raw_read (var : web100_var) (conn : web100_connection)
  (buf : list byte) : M (Z * list byte) :=
  if negb (agent_addr (group_agent (var_group var)) =? agent_addr (conn_agent conn))%nat
  then set_errno WEB100_ERR_INVAL ;; ret (- WEB100_ERR_INVAL, buf)
  else if negb (is_local (agent_type (conn_agent conn)))
  then set_errno WEB100_ERR_AGENT_TYPE ;; ret (- WEB100_ERR_AGENT_TYPE, buf)
  else
    fp <- fopen (stats_filename (conn_cid conn) (group_name (var_group var))) "r" ;;
    match fp with
    | None => set_errno WEB100_ERR_NOCONNECTION ;; ret (- WEB100_ERR_NOCONNECTION, buf)
    | Some fp =>
        sk <- fseek fp (var_offset var) ;;
        if negb (fst sk =? 0)
        then perror "web100_raw_read: fseek" ;;
             set_errno WEB100_ERR_SYS ;; ret (- WEB100_ERR_SYS, buf)
        else
          rd <- fread (size_from_type (var_type var)) (snd sk) ;;
          match rd with
          | (None, _) =>
              perror "web100_raw_read: fread" ;;
              set_errno WEB100_ERR_SYS ;; ret (- WEB100_ERR_SYS, buf)
          | (Some bs, fp') =>
              fclose fp' ;;
              ret (WEB100_ERR_SUCCESS, memcpy_into buf bs)
          end
    end.

(** [web100_raw_write]: the return value; the file written is part of the
    state. *)
Definition web100_raw_write (var : web100_var) (conn : web100_connection)
  (buf : list byte) : M Z :=
  if negb (agent_addr (group_agent (var_group var)) =? agent_addr (conn_agent conn))%nat
  then set_errno WEB100_ERR_INVAL ;; ret (- WEB100_ERR_INVAL)
  else if negb (is_local (agent_type (conn_agent conn)))
  then set_errno WEB100_ERR_AGENT_TYPE ;; ret (- WEB100_ERR_AGENT_TYPE)
  else
    fp <- fopen (stats_filename (conn_cid conn) (group_name (var_group var))) "w" ;;
    match fp with
    | None => set_errno WEB100_ERR_NOCONNECTION ;; ret (- WEB100_ERR_NOCONNECTION)
    | Some fp =>
        sk <- fseek fp (var_offset var) ;;
        if negb (fst sk =? 0)
        then perror "web100_raw_write: fseek" ;;
             set_errno WEB100_ERR_SYS ;; ret (- WEB100_ERR_SYS)
        else
          wr <- fwrite (firstn (Z.to_nat (size_from_type (var_type var))) buf) (snd sk) ;;
          match wr with
          | (false, _) =>
              perror "web100_raw_write: fread" ;;
              set_errno WEB100_ERR_SYS ;; ret (- WEB100_ERR_SYS)
          | (true, fp') =>
              fclose fp' ;;
              ret WEB100_ERR_SUCCESS
          end
    end.

End RawAccess.

(** [web100_snap_read]: the return value and the buffer after the call.
    The call [Aborts] when the bytes to copy are not all inside the
    snapshot's data (the behaviour of the C code is then undefined). *)
Definition web100_snap_read (var : web100_var) (snap : web100_snapshot)
  (buf : list byte) : M (outcome (Z * list byte)) :=
  if negb (group_addr (var_group var) =? group_addr (group_self (snap_group snap)))%nat
  then set_errno WEB100_ERR_INVAL ;; ret (Returns (- WEB100_ERR_INVAL, buf))
  else
    match bytes_at (snap_data snap) (var_offset var) (size_from_type (var_type var)) with
    | Some bs => ret (Returns (WEB100_ERR_SUCCESS, memcpy_into buf bs))
    | None => ret Aborts
    end.

(** The value of an [unsigned long long] whose eight bytes are [bs]. *)
Definition ull_of_bytes (bs : list byte) : Z := le_combine (firstn 8 bs).

(** [web100_delta_any].  [v1] and [v2] are the eight bytes the two
    uninitialised locals of that name hold on entry; [web100_snap_read]
    overwrites only the first [size_from_type(var->type)] of them. *)
Definition web100_delta_any (var : web100_var) (s1 s2 : web100_snapshot)
  (v1 v2 : list byte) (buf : list byte) : M (outcome (Z * list byte)) :=
  if negb (group_addr (group_self (snap_group s1)) =? group_addr (group_self (snap_group s2)))%nat
  then set_errno WEB100_ERR_INVAL ;; ret (Returns (- WEB100_ERR_INVAL, buf))
  else
    r1 <- web100_snap_read var s1 v1 ;;
    match r1 with
    | Aborts => ret Aborts
    | Returns (rc1, v1') =>
        if rc1 <? 0
        then e <- get_errno ;; ret (Returns (- e, buf))
        else
          r2 <- web100_snap_read var s2 v2 ;;
          match r2 with
          | Aborts => ret Aborts
          | Returns (rc2, v2') =>
              if rc2 <? 0
              then e <- get_errno ;; ret (Returns (- e, buf))
              else
                let val := (ull_of_bytes v1' - ull_of_bytes v2') mod 2 ^ 64 in
                ret (Returns
                       (WEB100_ERR_SUCCESS,
                        memcpy_into buf
                          (firstn (Z.to_nat (size_from_type (var_type var)))
                                  (le_split 8 val))))
          end
    end.

(** ** Correlation: the collation phase of [connection_info_refresh]

    [connection_info_refresh] first builds three lists of
    [struct connection_info]: [cid_data] from the connection catalog and
    the "read" group, [tcp_data] from the two kernel socket tables, and
    [fd_data] from the descriptor directories of the processes.  The part
    embedded here is what follows the comment "finally, collate above
    information": the nested loops over the three lists. *)

(** Modelled from the spec: the address families, declared in
    [web100.h]; the spec has "address family (v4/v6)". *)
Inductive WEB100_ADDRTYPE : Type :=
| WEB100_ADDRTYPE_IPV4
| WEB100_ADDRTYPE_IPV6.

Definition addrtype_eqb (a b : WEB100_ADDRTYPE) : bool :=
  match a, b with
  | WEB100_ADDRTYPE_IPV4, WEB100_ADDRTYPE_IPV4 => true
  | WEB100_ADDRTYPE_IPV6, WEB100_ADDRTYPE_IPV6 => true
  | _, _ => false
  end.

(** [struct web100_connection_spec_v6]: the addresses are character
    arrays. *)
Record web100_connection_spec_v6 : Type := mk_spec_v6 {
  dst_port6 : Z;
  dst_addr6 : string;
  src_port6 : Z;
  src_addr6 : string }.

(** [struct connection_info] without its [next] field (the lists are
    [list]s).  The two views of the tuple, [spec] and [spec_v6], are kept
    as two fields. *)
Record connection_info : Type := mk_connection_info {
  ci_cid : Z;
  ci_addrtype : WEB100_ADDRTYPE;
  ci_spec : web100_connection_spec;
  ci_spec_v6 : web100_connection_spec_v6;
  ci_state : Z;
  ci_uid : Z;
  ci_pid : Z;
  ci_ino : Z;
  ci_cmdline : string }.

(** The NUL-terminated string a character array holds: what precedes the
    first NUL. *)
Fixpoint c_string (s : string) : string :=
  match s with
  | EmptyString => EmptyString
  | String c r => if Ascii.eqb c zero then EmptyString else String c (c_string r)
  end.

(** [!strcmp(a, b)] on character arrays. *)
Definition strcmp_eq (a b : string) : bool := String.eqb (c_string a) (c_string b).

(** What [strncpy(dst, src, n)] leaves in [dst] as a string. *)
Definition strncpy (src : string) (n : nat) : string := substring 0 n (c_string src).

Definition spec_zero : web100_connection_spec := mk_spec 0 0 0 0.
Definition spec_v6_zero : web100_connection_spec_v6 := mk_spec_v6 0 "" 0 "".

(** The condition of the [if] in the loop over [tcp_data]. *)
Definition tcp_match (tcp_data cid_data : connection_info) : bool :=
  (addrtype_eqb (ci_addrtype tcp_data) WEB100_ADDRTYPE_IPV4
   && ((dst_port (ci_spec tcp_data) =? dst_port (ci_spec cid_data))
       && (dst_addr (ci_spec tcp_data) =? dst_addr (ci_spec cid_data))
       && (src_port (ci_spec tcp_data) =? src_port (ci_spec cid_data))))
  || (addrtype_eqb (ci_addrtype tcp_data) WEB100_ADDRTYPE_IPV6
      && ((dst_port6 (ci_spec_v6 tcp_data) =? dst_port6 (ci_spec_v6 cid_data))
          && strcmp_eq (dst_addr6 (ci_spec_v6 tcp_data)) (dst_addr6 (ci_spec_v6 cid_data))
          && (src_port6 (ci_spec_v6 tcp_data) =? src_port6 (ci_spec_v6 cid_data)))).

(** A record as the three places that create one fill it: [bzero], then
    [cid], [addrtype] and the tuple view of that address type from
    [cid_data], and the remaining fields as given. *)
Definition new_info (cid_data : connection_info) (pid : Z) (cmdline : string)
  (uid state : Z) : connection_info :=
  mk_connection_info
    (ci_cid cid_data)
    (ci_addrtype cid_data)
    (match ci_addrtype cid_data with
     | WEB100_ADDRTYPE_IPV4 => ci_spec cid_data
     | WEB100_ADDRTYPE_IPV6 => spec_zero
     end)
    (match ci_addrtype cid_data with
     | WEB100_ADDRTYPE_IPV4 => spec_v6_zero
     | WEB100_ADDRTYPE_IPV6 => ci_spec_v6 cid_data
     end)
    state uid pid 0 cmdline.

(** Entry created in the loop over [fd_data]. *)
Definition info_with_fd (cid_data tcp_data fd_data : connection_info) : connection_info :=
  new_info cid_data (ci_pid fd_data) (strncpy (ci_cmdline fd_data) 256)
           (ci_uid tcp_data) (ci_state tcp_data).

(** "add entry w/out cmdline" *)
Definition info_without_fd (cid_data tcp_data : connection_info) : connection_info :=
  new_info cid_data 0 "" (ci_uid tcp_data) (ci_state tcp_data).

(** "connection has vanished; add residual cid info" *)
Definition info_residual (cid_data : connection_info) : connection_info :=
  new_info cid_data 0 "" 0 0.

(** [for (fd_data = fd_head; fd_data; fd_data = fd_data->next)] *)
Fixpoint fd_loop (cid_data tcp_data : connection_info) (fd_data : list connection_info)
  (fd_entry : bool) (res : list connection_info) : bool * list connection_info :=
  match fd_data with
  | [] => (fd_entry, res)
  | fd :: next =>
      if ci_ino fd =? ci_ino tcp_data
      then fd_loop cid_data tcp_data next true (info_with_fd cid_data tcp_data fd :: res)
      else fd_loop cid_data tcp_data next fd_entry res
  end.

(** [for (tcp_data = tcp_head; tcp_data; tcp_data = tcp_data->next)] *)
Fixpoint tcp_loop (cid_data : connection_info) (tcp_data fd_head : list connection_info)
  (tcp_entry : bool) (res : list connection_info) : bool * list connection_info :=
  match tcp_data with
  | [] => (tcp_entry, res)
  | tcp :: next =>
      if tcp_match tcp cid_data
      then
        let (fd_entry, res1) := fd_loop cid_data tcp fd_head false res in
        let res2 := if fd_entry then res1 else info_without_fd cid_data tcp :: res1 in
        tcp_loop cid_data next fd_head true res2
      else tcp_loop cid_data next fd_head tcp_entry res
  end.

(** [while (cid_data)] *)
Fixpoint cid_loop (cid_data tcp_head fd_head : list connection_info)
  (res : list connection_info) : list connection_info :=
  match cid_data with
  | [] => res
  | cid :: next =>
      let (tcp_entry, res1) := tcp_loop cid tcp_head fd_head false res in
      let res2 := if tcp_entry then res1 else info_residual cid :: res1 in
      cid_loop next tcp_head fd_head res2
  end.

(** The list stored in [*conninfo]. *)
Definition connection_info_collate (cid_data tcp_head fd_head : list connection_info)
  : list connection_info :=
  cid_loop cid_data tcp_head fd_head [].

(** ** Further functions of [web100.c] *)

Definition web100_var_next (var : list web100_var) : M (list web100_var) :=
  match var with
  | [] => ret []
  | v :: next =>
      if is_local (agent_type (group_agent (var_group v)))
      then set_errno WEB100_ERR_SUCCESS ;; ret next
      else set_errno WEB100_ERR_AGENT_TYPE ;; ret []
  end.

Definition web100_connection_next (connection : list web100_connection)
  : M (list web100_connection) :=
  match connection with
  | [] => ret []
  | c :: next =>
      if is_local (agent_type (conn_agent c))
      then set_errno WEB100_ERR_SUCCESS ;; ret next
      else set_errno WEB100_ERR_AGENT_TYPE ;; ret []
  end.

(** The [while (cp)] loop of [web100_connection_find]. *)
Fixpoint connection_find_loop (cp : list web100_connection)
  (spec : web100_connection_spec) : list web100_connection :=
  match cp with
  | [] => []
  | c :: next =>
      if (dst_port (conn_spec c) =? dst_port spec)
         && (dst_addr (conn_spec c) =? dst_addr spec)
         && (src_port (conn_spec c) =? src_port spec)
         && (src_addr (conn_spec c) =? src_addr spec)
      then cp
      else connection_find_loop next spec
  end.

(** The [while (cp)] loop of [web100_connection_lookup]. *)
Fixpoint connection_lookup_loop (cp : list web100_connection) (cid : Z)
  : list web100_connection :=
  match cp with
  | [] => []
  | c :: next =>
      if conn_cid c =? cid then cp else connection_lookup_loop next cid
  end.

Section CatalogLookup.

Variable WEB100_ROOT_DIR : string.
Variable junk : nat -> web100_connection_spec.

(** [web100_connection_find]: the pointer returned and the agent after
    the call. *)
Definition web100_connection_find (agent : web100_agent)
  (spec : web100_connection_spec) : M (list web100_connection * web100_agent) :=
  if is_local (agent_type (agent_self agent))
  then
    r <- refresh_connections WEB100_ROOT_DIR junk agent ;;
    set_errno (fst r) ;;
    if fst r =? WEB100_ERR_SUCCESS
    then ret (connection_find_loop (connection_head (snd r)) spec, snd r)
    else ret ([], snd r)
  else set_errno WEB100_ERR_AGENT_TYPE ;; ret ([], agent).

(** [web100_connection_lookup], for an [agent] that is not [NULL]. *)
Definition web100_connection_lookup (agent : web100_agent) (cid : Z)
  : M (list web100_connection * web100_agent) :=
  if is_local (agent_type (agent_self agent))
  then
    r <- refresh_connections WEB100_ROOT_DIR junk agent ;;
    set_errno (fst r) ;;
    if fst r =? WEB100_ERR_SUCCESS
    then ret (connection_lookup_loop (connection_head (snd r)) cid, snd r)
    else ret ([], snd r)
  else set_errno WEB100_ERR_AGENT_TYPE ;; ret ([], agent).

End CatalogLookup.

(** [web100_connection_data_copy], for pointers that are not [NULL]: the
    return value and [*dest] after the call. *)
Definition web100_connection_data_copy (dest src : web100_connection)
  : Z * web100_connection :=
  (WEB100_ERR_SUCCESS, mk_connection (conn_agent src) (conn_cid src) (conn_spec src)).

(** [web100_snapshot_alloc].  [junk] is what the memory of the data
    buffer holds, byte by byte; the buffer has [group->size] bytes. *)
Definition web100_snapshot_alloc (junk : nat -> byte) (group : web100_group)
  (conn : web100_connection) : M (option web100_snapshot) :=
  if negb (agent_addr (group_agent (group_self group)) =? agent_addr (conn_agent conn))%nat
  then set_errno WEB100_ERR_INVAL ;; ret None
  else ret (Some (mk_snapshot group conn
                    (map junk (seq 0 (Z.to_nat (group_size group)))))).

Section Snap.

Variable WEB100_ROOT_DIR : string.

(** [web100_snap]: the return value and the snapshot after the call.  A
    failed [fread] is taken to leave the data as they were. *)
Definition web100_snap (snap : web100_snapshot) : M (Z * web100_snapshot) :=
  if negb (is_local (agent_type (group_agent (group_self (snap_group snap)))))
  then set_errno WEB100_ERR_AGENT_TYPE ;; ret (- WEB100_ERR_AGENT_TYPE, snap)
  else
    fp <- fopen (stats_filename WEB100_ROOT_DIR (conn_cid (snap_connection snap))
                   (group_name (group_self (snap_group snap)))) "r" ;;
    match fp with
    | None => set_errno WEB100_ERR_NOCONNECTION ;; ret (- WEB100_ERR_NOCONNECTION, snap)
    | Some fp =>
        rd <- fread (group_size (snap_group snap)) fp ;;
        match rd with
        | (None, _) =>
            set_errno WEB100_ERR_NOCONNECTION ;; ret (- WEB100_ERR_NOCONNECTION, snap)
        | (Some bs, fp') =>
            fclose fp' ;;
            ret (WEB100_ERR_SUCCESS,
                 mk_snapshot (snap_group snap) (snap_connection snap)
                             (memcpy_into (snap_data snap) bs))
        end
    end.

End Snap.

(** ** Value to text: [web100_value_to_text] *)

(** The decimal digits [printf]'s [%u] writes for [n], in front of
    [acc]; [fuel] bounds the number of digits. *)
Fixpoint utoa_loop (fuel : nat) (n : Z) (acc : string) : string :=
  match fuel with
  | O => acc
  | S fuel' =>
      let acc' := String (ascii_of_nat (48 + Z.to_nat (n mod 10))) acc in
      if n <? 10 then acc' else utoa_loop fuel' (n / 10) acc'
  end.

(** A number has no more decimal digits than binary ones. *)
Definition utoa (n : Z) : string := utoa_loop (S (Z.to_nat (Z.log2 n))) n "".

(** [sprintf(text, ...)] into [static char text[12]]: the text and its
    terminating NUL have to fit; writing past the array is outside the
    model. *)
Definition sprintf_text (s : string) : outcome string :=
  if (String.length s <? 12)%nat then Returns s else Aborts.

(** The bytes [buf] has to hold for the conversion to read them. *)
Definition read_value (buf : list byte) (n : Z) : option Z :=
  match bytes_at buf 0 n with
  | Some bs => Some (le_combine bs)
  | None => None
  end.

(** [web100_value_to_text] for the members of [WEB100_TYPE] (the
    [default] branch is taken by none of them).  The 32-bit case hands
    a [u_int32_t] to [%lu]; the number written is that 32-bit value, as
    it is where [unsigned long] has 32 bits. *)
Definition web100_value_to_text (type : WEB100_TYPE) (buf : list byte) : outcome string :=
  match type with
  | WEB100_TYPE_IP_ADDRESS =>
      match buf with
      | a0 :: a1 :: a2 :: a3 :: _ =>
          sprintf_text (utoa (byte.unsigned a0) ++ "." ++ utoa (byte.unsigned a1) ++ "."
                        ++ utoa (byte.unsigned a2) ++ "." ++ utoa (byte.unsigned a3))%string
      | _ => Aborts
      end
  | WEB100_TYPE_INTEGER
  | WEB100_TYPE_INTEGER32
  | WEB100_TYPE_COUNTER32
  | WEB100_TYPE_GAUGE32
  | WEB100_TYPE_UNSIGNED32
  | WEB100_TYPE_TIME_TICKS =>
      match read_value buf 4 with
      | Some v => sprintf_text (utoa v)
      | None => Aborts
      end
  | WEB100_TYPE_COUNTER64 =>
      match read_value buf 8 with
      | Some v => sprintf_text (utoa v)
      | None => Aborts
      end
  | WEB100_TYPE_UNSIGNED16 =>
      match read_value buf 2 with
      | Some v => sprintf_text (utoa v)
      | None => Aborts
      end
  end.

(* ================================================================== *)
(** * Part I, continued: notions used to state the properties, and
      sample data                                                      *)
(* ================================================================== *)

(** ** Lookup results *)

(** [r] is the part of [l] that starts at the first element named [name],
    and is empty when [l] has no such element. *)
Definition first_named {A : Type} (nm : A -> string) (name : string) (l r : list A) : Prop :=
  exists before,
    l = before ++ r
    /\ Forall (fun x => nm x <> name) before
    /\ match r with
       | [] => True
       | x :: _ => nm x = name
       end.

(** A small local agent: one group "read" with the variables "LocalPort"
    and "RemPort". *)
Definition example_agent_ref : agent_ref := mk_agent_ref 1%nat WEB100_AGENT_TYPE_LOCAL.
Definition example_group_ref : group_ref := mk_group_ref 2%nat example_agent_ref "read".
Definition example_group : web100_group :=
  mk_group example_group_ref 4 2
    [ mk_var example_group_ref "RemPort" 2 WEB100_TYPE_UNSIGNED16;
      mk_var example_group_ref "LocalPort" 0 WEB100_TYPE_UNSIGNED16 ].
Definition example_agent : web100_agent :=
  mk_agent example_agent_ref "2.5.27 201001301335 net100" [example_group] [].
Definition example_state : state :=
  mk_state WEB100_ERR_NOCONNECTION (fun _ => None) (fun _ => None) [].

(** A variable of that agent and a connection of another agent. *)
Definition example_local_port : web100_var :=
  mk_var example_group_ref "LocalPort" 0 WEB100_TYPE_UNSIGNED16.
Definition example_foreign_conn : web100_connection :=
  mk_connection (mk_agent_ref 9%nat WEB100_AGENT_TYPE_LOCAL) 5 (mk_spec 0 0 0 0).

(** ** The join as the specification describes it, per source record *)

(** The descriptor entries that refer to the socket [tcp]. *)
Definition fd_holders (tcp : connection_info) (fd_head : list connection_info)
  : list connection_info :=
  filter (fun fd => ci_ino fd =? ci_ino tcp) fd_head.

(** The records for one catalog entry and one socket that matches it:
    one per holder, or a single one without process when nobody holds the
    socket. *)
Definition records_for_socket (cid tcp : connection_info) (fd_head : list connection_info)
  : list connection_info :=
  match fd_holders tcp fd_head with
  | [] => [info_without_fd cid tcp]
  | holders => map (info_with_fd cid tcp) holders
  end.

Definition matching_sockets (cid : connection_info) (tcp_head : list connection_info)
  : list connection_info :=
  filter (fun tcp => tcp_match tcp cid) tcp_head.

(** The records for one catalog entry: those of every matching socket, or
    the residual record when no socket matches. *)
Definition records_for_connection (cid : connection_info)
  (tcp_head fd_head : list connection_info) : list connection_info :=
  match matching_sockets cid tcp_head with
  | [] => [info_residual cid]
  | sockets => flat_map (fun tcp => records_for_socket cid tcp fd_head) sockets
  end.

(** The match of step 1 of the join as the specification words it: same
    address family, and equal destination address, destination port and
    source port in the view of that family. *)
Definition spec_match (tcp cid : connection_info) : bool :=
  addrtype_eqb (ci_addrtype tcp) (ci_addrtype cid)
  && match ci_addrtype tcp with
     | WEB100_ADDRTYPE_IPV4 =>
         (dst_addr (ci_spec tcp) =? dst_addr (ci_spec cid))
         && (dst_port (ci_spec tcp) =? dst_port (ci_spec cid))
         && (src_port (ci_spec tcp) =? src_port (ci_spec cid))
     | WEB100_ADDRTYPE_IPV6 =>
         String.eqb (c_string (dst_addr6 (ci_spec_v6 tcp))) (c_string (dst_addr6 (ci_spec_v6 cid)))
         && (dst_port6 (ci_spec_v6 tcp) =? dst_port6 (ci_spec_v6 cid))
         && (src_port6 (ci_spec_v6 tcp) =? src_port6 (ci_spec_v6 cid))
     end.

(** The tuple of [r] is that of [cid], in the view of [cid]'s address
    family. *)
Definition same_tuple (r cid : connection_info) : Prop :=
  match ci_addrtype cid with
  | WEB100_ADDRTYPE_IPV4 => ci_spec r = ci_spec cid
  | WEB100_ADDRTYPE_IPV6 => ci_spec_v6 r = ci_spec_v6 cid
  end.

(** The example of the specification: catalog entry 5 for
    10.0.0.2:4000 -> 10.0.0.1:80, the socket table entry of that tuple
    (established, uid 1000, inode 123) and the descriptor entry of
    process 42, "curl", for inode 123.  Addresses are the 32-bit values
    of the four address bytes in memory order. *)
Definition example_cid : connection_info :=
  mk_connection_info 5 WEB100_ADDRTYPE_IPV4 (mk_spec 80 16777226 4000 33554442)
                     spec_v6_zero 0 0 0 0 "".
Definition example_tcp : connection_info :=
  mk_connection_info 0 WEB100_ADDRTYPE_IPV4 (mk_spec 80 16777226 4000 33554442)
                     spec_v6_zero 1 1000 0 123 "".
Definition example_fd : connection_info :=
  mk_connection_info 0 WEB100_ADDRTYPE_IPV4 spec_zero spec_v6_zero 0 0 42 123 "curl".
Definition example_other_tcp : connection_info :=
  mk_connection_info 0 WEB100_ADDRTYPE_IPV4 (mk_spec 443 16777226 4000 33554442)
                     spec_v6_zero 1 0 0 77 "".

(** What the records of one socket have in common. *)
Definition enriched (r cid tcp : connection_info) : Prop :=
  ci_cid r = ci_cid cid /\ ci_addrtype r = ci_addrtype cid /\ same_tuple r cid
  /\ ci_state r = ci_state tcp /\ ci_uid r = ci_uid tcp.

(** The record [r] names the process of the descriptor entry [fd]. *)
Definition attributed (fd r : connection_info) : Prop :=
  ci_pid r = ci_pid fd
  /\ ci_cmdline r = strncpy (ci_cmdline fd) 256
  /\ ((String.length (c_string (ci_cmdline fd)) <= 256)%nat ->
      ci_cmdline r = c_string (ci_cmdline fd)).

(** An IPv6 catalog entry.  Its IPv6 view holds ports and addresses of an
    IPv6 connection; its IPv4 view was never filled in for this entry and
    holds whatever the memory of the record holds.  The values chosen are
    those the IPv4 view has if the two views share their storage: bytes
    2..5 of the IPv6 destination address read as the IPv4 destination
    address, bytes 6..7 as the IPv4 source port. *)
Definition example_cid_v6 : connection_info :=
  mk_connection_info
    6 WEB100_ADDRTYPE_IPV6
    (mk_spec 80 16777226 4000 0)
    (mk_spec_v6 80
       (string_of_list_ascii
          (map ascii_of_nat [32; 1; 10; 0; 0; 1; 160; 15; 0; 0; 0; 0; 0; 0; 0; 9]%nat))
       51000
       (string_of_list_ascii
          (map ascii_of_nat [32; 1; 13; 184; 0; 0; 0; 0; 0; 0; 0; 0; 0; 0; 0; 1]%nat)))
    0 0 0 0 "".

(** A 32-bit counter at offset 4 that wrapped between the two snapshots:
    the earlier snapshot [example_snap_old] holds 4294967290, the later
    one [example_snap_new] holds 5. *)
Definition example_counter : web100_var :=
  mk_var example_group_ref "PktsOut" 4 WEB100_TYPE_COUNTER32.
Definition example_counter_group : web100_group :=
  mk_group example_group_ref 8 2 [example_counter].
Definition example_conn : web100_connection :=
  mk_connection example_agent_ref 5 (mk_spec 80 16777226 4000 33554442).
Definition example_snap_new : web100_snapshot :=
  mk_snapshot example_counter_group example_conn
    [Byte.x00; Byte.x00; Byte.x00; Byte.x00; Byte.x05; Byte.x00; Byte.x00; Byte.x00].
Definition example_snap_old : web100_snapshot :=
  mk_snapshot example_counter_group example_conn
    [Byte.x00; Byte.x00; Byte.x00; Byte.x00; Byte.xfa; Byte.xff; Byte.xff; Byte.xff].
Definition example_junk : list byte :=
  [Byte.xde; Byte.xad; Byte.xbe; Byte.xef; Byte.xde; Byte.xad; Byte.xbe; Byte.xef].

(** ** Header files with well-formed records *)

(** A variable record of the header file: its three tokens. *)
Record var_decl : Type := mk_var_decl {
  decl_name : string;
  decl_offset : string;
  decl_type : string }.

Definition decl_tokens (d : var_decl) : list string :=
  [decl_name d; decl_offset d; decl_type d].

(** The tokens of a group: the slash with the name, then the records. *)
Definition group_tokens (name : string) (decls : list var_decl) : list string :=
  String "/" name :: flat_map decl_tokens decls.

(** A token that starts a variable record. *)
Definition is_var_name (t : string) : bool :=
  match t with
  | EmptyString => false
  | String c _ => negb (Ascii.eqb c "/")
  end.

(** The groups as the loop builds them from decoded records. *)
Definition add_vars (g : web100_group) (vars : list (string * Z * WEB100_TYPE))
  : web100_group :=
  fold_left (fun g v => add_var g (fst (fst v)) (snd (fst v)) (snd v)) vars g.

Definition sum_sizes (vars : list (string * Z * WEB100_TYPE)) : Z :=
  fold_right (fun v acc => size_from_type (snd v) + acc) 0 vars.

(** The record a declaration denotes when its tokens are a name, a
    decimal offset and the decimal number of a wire type. *)
Definition decode_decl (WEB100_TYPE_of_int : Z -> option WEB100_TYPE)
  (d : var_decl) : option (string * Z * WEB100_TYPE) :=
  if is_var_name (decl_name d)
  then
    match read_int (decl_offset d), read_int (decl_type d) with
    | Some (offset, EmptyString), Some (ty, EmptyString) =>
        match WEB100_TYPE_of_int ty with
        | Some type => Some (decl_name d, offset, type)
        | None => None
        end
    | _, _ => None
    end
  else None.

Fixpoint decode_decls (WEB100_TYPE_of_int : Z -> option WEB100_TYPE)
  (decls : list var_decl) : option (list (string * Z * WEB100_TYPE)) :=
  match decls with
  | [] => Some []
  | d :: rest =>
      match decode_decl WEB100_TYPE_of_int d, decode_decls WEB100_TYPE_of_int rest with
      | Some v, Some vs => Some (v :: vs)
      | _, _ => None
      end
  end.

(** The state after the records [vars] were added to the group [gp]
    points to. *)
Definition after_vars (st : parse_state) (vars : list (string * Z * WEB100_TYPE))
  : parse_state :=
  match ps_gp st with
  | GpNull => st
  | GpDiscard g =>
      mk_parse_state (List.length vars + ps_next st)%nat (ps_group_head st)
                     (GpDiscard (add_vars g vars))
  | GpHead =>
      match ps_group_head st with
      | g :: gs =>
          mk_parse_state (List.length vars + ps_next st)%nat (add_vars g vars :: gs) GpHead
      | [] => st
      end
  end.

(** [gp] points to a group. *)
Definition gp_valid (st : parse_state) : Prop :=
  match ps_gp st with
  | GpNull => False
  | GpDiscard _ => True
  | GpHead => ps_group_head st <> []
  end.

(** The state after the group line of [name]. *)
Definition after_group_line (agent : agent_ref) (st : parse_state) (name : string)
  : parse_state :=
  let g := mk_group (mk_group_ref (ps_next st) agent name) 0 0 [] in
  if streq name "spec"
  then mk_parse_state (S (ps_next st)) (ps_group_head st) (GpDiscard g)
  else mk_parse_state (S (ps_next st)) (g :: ps_group_head st) GpHead.

(** The sum of the wire-type sizes of a list of variables. *)
Definition vars_size (vars : list web100_var) : Z :=
  fold_right (fun v acc => size_from_type (var_type v) + acc) 0 vars.

(** The group the loop builds from a group line and its records. *)
Definition built_group (agent : agent_ref) (addr : ptr) (name : string)
  (vars : list (string * Z * WEB100_TYPE)) : web100_group :=
  add_vars (mk_group (mk_group_ref addr agent name) 0 0 []) vars.

(** A numbering of the wire types, used for the examples only. *)
Definition example_numbering (n : Z) : option WEB100_TYPE :=
  if n <? 0 then None else
  nth_error
    [ WEB100_TYPE_INTEGER; WEB100_TYPE_INTEGER32; WEB100_TYPE_IP_ADDRESS;
      WEB100_TYPE_COUNTER32; WEB100_TYPE_GAUGE32; WEB100_TYPE_UNSIGNED32;
      WEB100_TYPE_TIME_TICKS; WEB100_TYPE_COUNTER64; WEB100_TYPE_UNSIGNED16 ]
    (Z.to_nat n).

Definition example_spec_decls : list var_decl :=
  [ mk_var_decl "RemPort" "0" "8"; mk_var_decl "RemAddress" "4" "2";
    mk_var_decl "LocalPort" "8" "8"; mk_var_decl "LocalAddress" "12" "2" ].

Definition example_read_decls : list var_decl :=
  [ mk_var_decl "PktsOut" "0" "3"; mk_var_decl "DataBytesOut" "4" "7" ].

(** ** Directory entries and spec files *)

(** A name made of decimal digits only, and its value. *)
Fixpoint all_digits (s : string) : bool :=
  match s with
  | EmptyString => true
  | String c r => isdigit c && all_digits r
  end.

Definition is_decimal (s : string) : bool :=
  match s with
  | EmptyString => false
  | String _ _ => all_digits s
  end.

Fixpoint decimal_value (acc : Z) (s : string) : Z :=
  match s with
  | EmptyString => acc
  | String c r => decimal_value (10 * acc + digit_value c) r
  end.


(** The state [s] with another trace. *)
Definition with_trace (s : state) (tr : list event) : state :=
  mk_state (web100_errno s) (files s) (dirs s) tr.

(** The connection spec a spec file of at least twelve bytes holds. *)
Definition spec_of_bytes (data : list byte) : option web100_connection_spec :=
  if (12 <=? List.length data)%nat
  then Some (mk_spec (le_combine (firstn 2 data))
                     (le_combine (firstn 4 (skipn 2 data)))
                     (le_combine (firstn 2 (skipn 6 data)))
                     (le_combine (firstn 4 (skipn 8 data))))
  else None.

Definition spec_path (WEB100_ROOT_DIR : string)
  (d_name : string) : string :=
  (WEB100_ROOT_DIR ++ d_name ++ "/spec")%string.

(** The spec record of the entry [d_name], when its spec file exists and
    is complete. *)
Definition entry_spec (WEB100_ROOT_DIR : string)
  (fs : string -> option (list byte)) (d_name : string)
  : option web100_connection_spec :=
  match fs (spec_path WEB100_ROOT_DIR d_name) with
  | Some data => spec_of_bytes data
  | None => None
  end.

(** The connections of the entries [names], in that order, when every one
    of them has a complete spec record. *)
Fixpoint catalog_of (WEB100_ROOT_DIR : string)
  (fs : string -> option (list byte)) (agent : agent_ref)
  (names : list string) : option (list web100_connection) :=
  match names with
  | [] => Some []
  | d_name :: rest =>
      match entry_spec WEB100_ROOT_DIR fs d_name, catalog_of WEB100_ROOT_DIR fs agent rest with
      | Some sp, Some l => Some (mk_connection agent (atoi d_name) sp :: l)
      | _, _ => None
      end
  end.

(** The entries the directory loop does not skip. *)
Definition read_entries (ents : list string) : list string :=
  filter (fun d_name => negb (skips_entry d_name)) ents.

(** The agent with another connection list. *)
Definition set_connections (agent : web100_agent) (head : list web100_connection)
  : web100_agent :=
  mk_agent (agent_self agent) (agent_version agent) (group_head agent) head.

(** A small instrumentation tree.  The spec file of "7", "0", "1" and
    "12abc" is complete (10.0.0.2:4000 -> 10.0.0.1:80); that of "2" ends
    after the two bytes of the destination port. *)
Definition example_root : string := "/proc/web100/".

Definition example_spec_bytes : list byte :=
  [ Byte.x50; Byte.x00; Byte.x0a; Byte.x00; Byte.x00; Byte.x01;
    Byte.xa0; Byte.x0f; Byte.x0a; Byte.x00; Byte.x00; Byte.x02 ].

Definition example_files (path : string) : option (list byte) :=
  if String.eqb path "/proc/web100/7/spec" then Some example_spec_bytes
  else if String.eqb path "/proc/web100/0/spec" then Some example_spec_bytes
  else if String.eqb path "/proc/web100/1/spec" then Some example_spec_bytes
  else if String.eqb path "/proc/web100/12abc/spec" then Some example_spec_bytes
  else if String.eqb path "/proc/web100/2/spec" then Some [Byte.x50; Byte.x00]
  else None.

Definition example_dir (ents : list string) (path : string) : option (list string) :=
  if String.eqb path example_root then Some ents else None.

Definition example_junk_spec (n : nat) : web100_connection_spec :=
  mk_spec 57005 3735928559 57005 3735928559.

Definition example_spec : web100_connection_spec := mk_spec 80 16777226 4000 33554442.

(** A directory in which the second entry read has the short spec
    file. *)
Definition example_short_state : state :=
  mk_state WEB100_ERR_SUCCESS example_files (example_dir ["1"; "2"; "7"]) [].

(** An agent whose previous listing found the connection 9. *)
Definition example_agent_listed : web100_agent :=
  mk_agent example_agent_ref "2.5.27 201001301335 net100" [example_group]
           [mk_connection example_agent_ref 9 example_spec].

(** ** Further sample data *)

(** The name of the header file, and what the two list heads of a fresh
    agent may denote when the memory is not zero: a group named "spec"
    left behind by an earlier use of the memory. *)
Definition example_header_file : string := "/proc/web100/header".
Definition example_stale_groups : list web100_group :=
  [ mk_group (mk_group_ref 7%nat (mk_agent_ref 3%nat WEB100_AGENT_TYPE_LOCAL) "spec")
             12 4 [] ].

(** The header file of an agent with the groups "spec" and "read". *)
Definition example_header : header_stream :=
  mk_header "1.1.0 200110151715 net100"
    [ "/spec"; "RemPort"; "0"; "8"; "RemAddress"; "4"; "2";
      "LocalPort"; "8"; "8"; "LocalAddress"; "12"; "2";
      "/read"; "PktsOut"; "0"; "3"; "DataBytesOut"; "4"; "7" ].

(** Two listings of the instrumentation tree. *)
Definition example_first_listing : state :=
  mk_state WEB100_ERR_SUCCESS example_files (example_dir ["."; ".."; "7"; "1"]) [].

(** The data file of the group "read" of connection 5, eight bytes
    long. *)
Definition example_stats_root : string := "/proc/web100".
Definition example_stats_files (path : string) : option (list byte) :=
  if String.eqb path "/proc/web100/5/read" then Some example_junk else None.
Definition example_stats_state : state :=
  mk_state WEB100_ERR_SUCCESS example_stats_files (fun _ => None) [].


(** ** Streams opened and closed *)

Definition is_fopen (e : event) : bool :=
  match e with EvFopen _ _ => true | _ => false end.
Definition is_fclose (e : event) : bool :=
  match e with EvFclose _ => true | _ => false end.
Definition is_opendir (e : event) : bool :=
  match e with EvOpendir _ => true | _ => false end.
Definition is_closedir (e : event) : bool :=
  match e with EvClosedir => true | _ => false end.

(** How many events of [tr] satisfy [p]. *)
Definition count_events (p : event -> bool) (tr : list event) : nat :=
  List.length (filter p tr).

(** ** Well-formed schema *)

(** The bookkeeping of a group agrees with its variables: it belongs to
    [agent], counts its variables, has as size the sum of their sizes, and
    each variable points back to it. *)
Definition group_consistent (agent : agent_ref) (g : web100_group) : Prop :=
  group_agent (group_self g) = agent
  /\ group_nvars g = Z.of_nat (List.length (var_head g))
  /\ group_size g = vars_size (var_head g)
  /\ Forall (fun v => var_group v = group_self g) (var_head g).

(** What the parse loop keeps true: the list of the agent is the groups
    the parse has linked, [parsed], in front of the list [junk] that the
    uninitialised head denoted, and [gp] points to the head of the list
    only once a group has been linked. *)
Definition parse_invariant (agent : agent_ref) (junk : list web100_group)
  (st : parse_state) (parsed : list web100_group) : Prop :=
  ps_group_head st = parsed ++ junk
  /\ Forall (fun g => group_name (group_self g) <> "spec"
                      /\ group_consistent agent g
                      /\ (group_addr (group_self g) < ps_next st)%nat)
            parsed
  /\ NoDup (map (fun g => group_addr (group_self g)) parsed)
  /\ (ps_gp st = GpHead -> parsed <> []).

(** ** Lookup over all groups *)

(** [r] is the part of [l] that starts at the first element satisfying
    [p], and is empty when [l] has no such element. *)
Definition first_such {A : Type} (p : A -> bool) (l r : list A) : Prop :=
  exists before,
    l = before ++ r
    /\ Forall (fun x => p x = false) before
    /\ match r with
       | [] => True
       | x :: _ => p x = true
       end.

Definition has_var (name : string) (g : web100_group) : bool :=
  existsb (fun v => String.eqb (var_name v) name) (var_head g).

Definition same_spec (spec : web100_connection_spec) (c : web100_connection) : bool :=
  (dst_port (conn_spec c) =? dst_port spec)
  && (dst_addr (conn_spec c) =? dst_addr spec)
  && (src_port (conn_spec c) =? src_port spec)
  && (src_addr (conn_spec c) =? src_addr spec).

(* ================================================================== *)
(** * Part II: properties                                              *)
(* ================================================================== *)

(** Unfolding the small monad. *)
Ltac io_simpl :=
  cbv [bind ret log set_errno get_errno perror fclose] in *; cbn [fst snd] in *.

(** ** Error text *)

Section ErrorTextProperties.

Variable WEB100_HEADER_FILE : string.

Lemma web100_sys_nerr_value : web100_sys_nerr WEB100_HEADER_FILE = 8.
Proof. reflexivity. Qed.

Lemma array_get_in_range {A : Type} (a : list A) (i : Z) :
  0 <= i < Z.of_nat (List.length a) -> exists x, array_get a i = Some x.
Proof.
  intros [Hlo Hhi]. unfold array_get.
  destruct (Z.ltb_spec i 0) as [Hneg | _]; [lia |].
  destruct (nth_error a (Z.to_nat i)) as [x |] eqn:E.
  - now exists x.
  - apply nth_error_None in E. lia.
Qed.

(** C10: [web100_strerror] is total.  For an error number in
    [0, web100_sys_nerr) the array is read inside its bounds and the
    result is the message stored at that index; for every other number,
    negative or too large, the result is the string "unknown error". *)
Theorem web100_strerror_total : forall errnum : Z,
  (0 <= errnum < web100_sys_nerr WEB100_HEADER_FILE ->
   exists msg,
     nth_error (web100_sys_errlist WEB100_HEADER_FILE) (Z.to_nat errnum) = Some msg
     /\ web100_strerror WEB100_HEADER_FILE errnum = Some msg)
  /\ (~ 0 <= errnum < web100_sys_nerr WEB100_HEADER_FILE ->
      web100_strerror WEB100_HEADER_FILE errnum = Some "unknown error").
Proof.
  intros errnum. unfold web100_strerror. split.
  - intros [Hlo Hhi].
    destruct (Z.ltb_spec errnum 0) as [Hneg | _]; [lia |].
    destruct (Z.geb_spec errnum (web100_sys_nerr WEB100_HEADER_FILE)) as [Hge | _]; [lia |].
    cbn [orb].
    destruct (array_get_in_range (web100_sys_errlist WEB100_HEADER_FILE) errnum) as [msg Hmsg].
    { unfold web100_sys_nerr in Hhi. lia. }
    exists msg. split; [| exact Hmsg].
    unfold array_get in Hmsg.
    destruct (Z.ltb_spec errnum 0); [lia | exact Hmsg].
  - intros Hout.
    destruct (Z.ltb_spec errnum 0) as [Hneg | Hnn]; [reflexivity |].
    destruct (Z.geb_spec errnum (web100_sys_nerr WEB100_HEADER_FILE)) as [Hge | Hlt];
      [reflexivity | lia].
Qed.

End ErrorTextProperties.

Lemma web100_strerror_total_witness :
  web100_strerror "/proc/web100/header" WEB100_ERR_INVAL = Some "invalid arguments"
  /\ web100_strerror "/proc/web100/header" WEB100_ERR_HEADER
     = Some "could not parse /proc/web100/header"
  /\ web100_strerror "/proc/web100/header" 8 = Some "unknown error"
  /\ web100_strerror "/proc/web100/header" (-1) = Some "unknown error".
Proof.
  split; [| split; [| split]].
  - destruct (web100_strerror_total "/proc/web100/header" WEB100_ERR_INVAL) as [Hin _].
    destruct Hin as [msg [Hnth Hmsg]]; [rewrite web100_sys_nerr_value; vm_compute; split; congruence |].
    vm_compute in Hnth. rewrite Hmsg, <- Hnth. reflexivity.
  - destruct (web100_strerror_total "/proc/web100/header" WEB100_ERR_HEADER) as [Hin _].
    destruct Hin as [msg [Hnth Hmsg]]; [rewrite web100_sys_nerr_value; vm_compute; split; congruence |].
    vm_compute in Hnth. rewrite Hmsg, <- Hnth. reflexivity.
  - destruct (web100_strerror_total "/proc/web100/header" 8) as [_ Hout].
    apply Hout. rewrite web100_sys_nerr_value. lia.
  - destruct (web100_strerror_total "/proc/web100/header" (-1)) as [_ Hout].
    apply Hout. lia.
Defined.

(** ** Lookup by name *)

Lemma group_find_loop_first (gp : list web100_group) (name : string) :
  first_named (fun g => group_name (group_self g)) name gp (group_find_loop gp name).
Proof.
  induction gp as [| g next IH]; cbn [group_find_loop].
  - exists []. repeat split; constructor.
  - unfold streq. destruct (String.eqb_spec (group_name (group_self g)) name) as [E | NE].
    + exists []. repeat split; [constructor | exact E].
    + destruct IH as [before [Happ [Hall Hhd]]].
      exists (g :: before). repeat split.
      * cbn. now rewrite <- Happ.
      * now constructor.
      * exact Hhd.
Qed.

Lemma var_find_loop_first (vp : list web100_var) (name : string) :
  first_named var_name name vp (var_find_loop vp name).
Proof.
  induction vp as [| v next IH]; cbn [var_find_loop].
  - exists []. repeat split; constructor.
  - unfold streq. destruct (String.eqb_spec (var_name v) name) as [E | NE].
    + exists []. repeat split; [constructor | exact E].
    + destruct IH as [before [Happ [Hall Hhd]]].
      exists (v :: before). repeat split.
      * cbn. now rewrite <- Happ.
      * now constructor.
      * exact Hhd.
Qed.

Lemma first_named_none {A : Type} (nm : A -> string) (name : string) (l : list A) :
  first_named nm name l [] <-> Forall (fun x => nm x <> name) l.
Proof.
  split.
  - intros [before [Happ [Hall _]]]. rewrite app_nil_r in Happ. now subst.
  - intros Hall. exists l. rewrite app_nil_r. repeat split; assumption.
Qed.

(** C8, as the code has it: on an agent of the local kind,
    [web100_group_find] and [web100_var_find] scan their list from the
    head and return the first entry whose name is exactly [name] (all
    entries before it have another name), or [NULL] when there is none;
    in both cases [web100_errno] is set to [WEB100_ERR_SUCCESS] and
    nothing else changes: an absent name is reported by the [NULL]
    result alone. *)
Theorem web100_find_first_exact_match :
  forall (agent : web100_agent) (group : web100_group) (name : string) (s : state),
    (is_local (agent_type (agent_self agent)) = true ->
     exists r,
       web100_group_find agent name s
       = (r, mk_state WEB100_ERR_SUCCESS (files s) (dirs s) (trace s))
       /\ first_named (fun g => group_name (group_self g)) name (group_head agent) r)
    /\ (is_local (agent_type (group_agent (group_self group))) = true ->
        exists r,
          web100_var_find group name s
          = (r, mk_state WEB100_ERR_SUCCESS (files s) (dirs s) (trace s))
          /\ first_named var_name name (var_head group) r).
Proof.
  intros agent group name s. split; intros Hlocal.
  - exists (group_find_loop (group_head agent) name). split.
    + unfold web100_group_find. rewrite Hlocal. reflexivity.
    + apply group_find_loop_first.
  - exists (var_find_loop (var_head group) name). split.
    + unfold web100_var_find. rewrite Hlocal. reflexivity.
    + apply var_find_loop_first.
Qed.

Lemma web100_find_first_exact_match_witness :
  (exists r,
     web100_group_find example_agent "read" example_state
     = (r, mk_state WEB100_ERR_SUCCESS (files example_state) (dirs example_state)
                    (trace example_state))
     /\ first_named (fun g => group_name (group_self g)) "read"
                    (group_head example_agent) r)
  /\ (exists r,
        web100_var_find example_group "LocalPort" example_state
        = (r, mk_state WEB100_ERR_SUCCESS (files example_state) (dirs example_state)
                       (trace example_state))
        /\ first_named var_name "LocalPort" (var_head example_group) r).
Proof.
  destruct (web100_find_first_exact_match example_agent example_group "read" example_state)
    as [Hg _].
  destruct (web100_find_first_exact_match example_agent example_group "LocalPort" example_state)
    as [_ Hv].
  split; [apply Hg | apply Hv]; reflexivity.
Defined.

(** C8, the claim as stated fails: looking up "Read" and "localport",
    which differ from the existing names only by case, finds nothing, and
    both functions return [NULL] with [web100_errno] set to
    [WEB100_ERR_SUCCESS], not to an error. *)
Lemma web100_find_absent_name_sets_success :
  web100_errno example_state <> WEB100_ERR_SUCCESS
  /\ web100_group_find example_agent "Read" example_state
     = ([], mk_state WEB100_ERR_SUCCESS (files example_state) (dirs example_state) [])
  /\ web100_var_find example_group "localport" example_state
     = ([], mk_state WEB100_ERR_SUCCESS (files example_state) (dirs example_state) []).
Proof. repeat split. discriminate. Qed.

(** The only lookup that reports an absent name as an error is the
    combined one, which relies on [web100_var_find] returning [NULL]
    without an error to move on to the next group. *)
Lemma web100_agent_find_var_and_group_novar :
  web100_agent_find_var_and_group example_agent "localport" example_state
  = ((WEB100_ERR_NOVAR, None),
     mk_state WEB100_ERR_NOVAR (files example_state) (dirs example_state) []).
Proof. reflexivity. Qed.

(** ** Raw access *)

(** C9: when the agent of the variable's group and the agent of the
    connection are different objects, [web100_raw_read] and
    [web100_raw_write] return [-WEB100_ERR_INVAL] with [web100_errno] set
    to [WEB100_ERR_INVAL]; no C library call is made (the trace is the
    same), the files are the same, and the buffer is returned as it
    was. *)
Theorem web100_raw_access_agent_mismatch :
  forall (WEB100_ROOT_DIR : string) (var : web100_var) (conn : web100_connection)
         (buf : list byte) (s : state),
    agent_addr (group_agent (var_group var)) <> agent_addr (conn_agent conn) ->
    web100_raw_read WEB100_ROOT_DIR var conn buf s
    = ((- WEB100_ERR_INVAL, buf),
       mk_state WEB100_ERR_INVAL (files s) (dirs s) (trace s))
    /\ web100_raw_write WEB100_ROOT_DIR var conn buf s
       = (- WEB100_ERR_INVAL,
          mk_state WEB100_ERR_INVAL (files s) (dirs s) (trace s)).
Proof.
  intros root var conn buf s Hdiff.
  apply Nat.eqb_neq in Hdiff.
  unfold web100_raw_read, web100_raw_write. rewrite Hdiff. cbn [negb].
  split; reflexivity.
Qed.

Lemma web100_raw_access_agent_mismatch_witness :
  web100_raw_read "/proc/web100" example_local_port example_foreign_conn
                  [Byte.x2a; Byte.x2a] example_state
  = ((- WEB100_ERR_INVAL, [Byte.x2a; Byte.x2a]),
     mk_state WEB100_ERR_INVAL (files example_state) (dirs example_state) [])
  /\ web100_raw_write "/proc/web100" example_local_port example_foreign_conn
                      [Byte.x2a; Byte.x2a] example_state
     = (- WEB100_ERR_INVAL,
        mk_state WEB100_ERR_INVAL (files example_state) (dirs example_state) []).
Proof.
  apply (web100_raw_access_agent_mismatch "/proc/web100" example_local_port
           example_foreign_conn [Byte.x2a; Byte.x2a] example_state).
  cbn. lia.
Defined.

(** ** Correlation *)

Lemma fd_loop_spec (cid tcp : connection_info) (fd_data : list connection_info) :
  forall (fd_entry : bool) (res : list connection_info),
    fd_loop cid tcp fd_data fd_entry res
    = (fd_entry || negb (Nat.eqb (List.length (fd_holders tcp fd_data)) 0),
       rev (map (info_with_fd cid tcp) (fd_holders tcp fd_data)) ++ res).
Proof.
  induction fd_data as [| fd next IH]; intros fd_entry res; cbn [fd_loop fd_holders filter].
  - cbn. now rewrite orb_false_r.
  - destruct (ci_ino fd =? ci_ino tcp).
    + rewrite IH. cbn [map rev List.length Nat.eqb negb]. fold (fd_holders tcp next).
      rewrite <- app_assoc. cbn [app]. now rewrite !orb_true_r.
    + apply IH.
Qed.

(** One round of the loop over [tcp_data] on a socket that matches. *)
Lemma tcp_loop_match (cid tcp : connection_info) (next fd_head : list connection_info)
  (tcp_entry : bool) (res : list connection_info) :
  tcp_match tcp cid = true ->
  tcp_loop cid (tcp :: next) fd_head tcp_entry res
  = tcp_loop cid next fd_head true (rev (records_for_socket cid tcp fd_head) ++ res).
Proof.
  intros Hm. cbn [tcp_loop]. rewrite Hm, fd_loop_spec. unfold records_for_socket.
  destruct (fd_holders tcp fd_head) as [| h hs]; reflexivity.
Qed.

Lemma tcp_loop_spec (cid : connection_info) (tcp_data fd_head : list connection_info) :
  forall (tcp_entry : bool) (res : list connection_info),
    tcp_loop cid tcp_data fd_head tcp_entry res
    = (tcp_entry || negb (Nat.eqb (List.length (matching_sockets cid tcp_data)) 0),
       rev (flat_map (fun tcp => records_for_socket cid tcp fd_head)
                     (matching_sockets cid tcp_data)) ++ res).
Proof.
  induction tcp_data as [| tcp next IH]; intros tcp_entry res.
  - cbn. now rewrite orb_false_r.
  - destruct (tcp_match tcp cid) eqn:Hm.
    + rewrite tcp_loop_match by exact Hm. rewrite IH.
      unfold matching_sockets. cbn [filter]. rewrite Hm.
      cbn [flat_map List.length Nat.eqb negb]. rewrite rev_app_distr, <- app_assoc.
      now rewrite !orb_true_r.
    + cbn [tcp_loop]. rewrite Hm, IH. unfold matching_sockets. cbn [filter].
      now rewrite Hm.
Qed.

(** One round of the loop over [cid_data]. *)
Lemma cid_loop_step (cid : connection_info) (next tcp_head fd_head res : list connection_info) :
  cid_loop (cid :: next) tcp_head fd_head res
  = cid_loop next tcp_head fd_head (rev (records_for_connection cid tcp_head fd_head) ++ res).
Proof.
  cbn [cid_loop]. rewrite tcp_loop_spec. unfold records_for_connection.
  destruct (matching_sockets cid tcp_head) as [| m ms]; reflexivity.
Qed.

Lemma cid_loop_spec (cid_data tcp_head fd_head : list connection_info) :
  forall res : list connection_info,
    cid_loop cid_data tcp_head fd_head res
    = rev (flat_map (fun cid => records_for_connection cid tcp_head fd_head) cid_data) ++ res.
Proof.
  induction cid_data as [| cid next IH]; intros res.
  - reflexivity.
  - rewrite cid_loop_step, IH. cbn [flat_map].
    now rewrite rev_app_distr, <- app_assoc.
Qed.

(** The nested loops compute the join, last record first. *)
Lemma connection_info_collate_join (cid_data tcp_head fd_head : list connection_info) :
  connection_info_collate cid_data tcp_head fd_head
  = rev (flat_map (fun cid => records_for_connection cid tcp_head fd_head) cid_data).
Proof. unfold connection_info_collate. rewrite cid_loop_spec. apply app_nil_r. Qed.

Lemma matching_sockets_none (cid : connection_info) (tcp_head : list connection_info) :
  (forall tcp, In tcp tcp_head -> tcp_match tcp cid = false) ->
  matching_sockets cid tcp_head = [].
Proof.
  induction tcp_head as [| tcp next IH]; intros Hno; [reflexivity |].
  unfold matching_sockets. cbn [filter]. rewrite (Hno tcp) by now left.
  apply IH. intros t Ht. apply Hno. now right.
Qed.

Lemma new_info_identity (cid : connection_info) (pid : Z) (cmdline : string) (uid state : Z) :
  let r := new_info cid pid cmdline uid state in
  ci_cid r = ci_cid cid /\ ci_addrtype r = ci_addrtype cid /\ same_tuple r cid.
Proof.
  cbn. repeat split. unfold same_tuple, new_info. cbn.
  destruct (ci_addrtype cid); reflexivity.
Qed.

(** A catalog entry [cid] that the loop over the socket table matches
    with no entry (by the test the loop makes) contributes exactly one
    record to the result:
    the round of [cid] pushes one record [r] and nothing else, in the
    whole result [r] stands between the records of the entries after and
    before [cid], and [r] carries [cid]'s connection id, address family
    and tuple, with pid, uid and state zero and an empty command name. *)
Lemma collate_unmatched_connection :
  forall (before after : list connection_info) (cid : connection_info)
         (tcp_head fd_head : list connection_info),
    (forall tcp, In tcp tcp_head -> tcp_match tcp cid = false) ->
    exists r : connection_info,
      (forall next res,
          cid_loop (cid :: next) tcp_head fd_head res
          = cid_loop next tcp_head fd_head (r :: res))
      /\ connection_info_collate (before ++ cid :: after) tcp_head fd_head
         = connection_info_collate after tcp_head (fd_head)
           ++ r :: connection_info_collate before tcp_head fd_head
      /\ ci_cid r = ci_cid cid
      /\ ci_addrtype r = ci_addrtype cid
      /\ same_tuple r cid
      /\ ci_pid r = 0 /\ ci_uid r = 0 /\ ci_state r = 0 /\ ci_cmdline r = "".
Proof.
  intros before after cid tcp_head fd_head Hno.
  exists (info_residual cid).
  assert (Hrec : records_for_connection cid tcp_head fd_head = [info_residual cid]).
  { unfold records_for_connection. now rewrite matching_sockets_none. }
  split; [| split].
  - intros next res. rewrite cid_loop_step, Hrec. reflexivity.
  - rewrite !connection_info_collate_join, flat_map_app. cbn [flat_map].
    rewrite Hrec, !rev_app_distr. cbn [rev app]. now rewrite <- app_assoc.
  - destruct (new_info_identity cid 0 "" 0 0) as [Hc [Ha Ht]].
    repeat (split; [assumption || reflexivity |]). reflexivity.
Qed.

Lemma collate_unmatched_connection_example :
  exists r : connection_info,
    connection_info_collate [example_cid] [example_other_tcp] [example_fd] = [r]
    /\ ci_cid r = 5 /\ ci_spec r = mk_spec 80 16777226 4000 33554442
    /\ ci_pid r = 0 /\ ci_uid r = 0 /\ ci_state r = 0 /\ ci_cmdline r = "".
Proof.
  destruct (collate_unmatched_connection [] [] example_cid [example_other_tcp] [example_fd])
    as [r [_ [Hout [Hcid [_ [Htuple [Hpid [Huid [Hstate Hcmd]]]]]]]]].
  - intros tcp [<- | []]. reflexivity.
  - exists r. cbn in Hout. unfold same_tuple in Htuple. cbn in Htuple, Hcid.
    repeat (split; [assumption |]). assumption.
Defined.

Lemma substring_all (s : string) (n : nat) :
  (String.length s <= n)%nat -> substring 0 n s = s.
Proof.
  revert n. induction s as [| c r IH]; intros n Hn.
  - destruct n; reflexivity.
  - destruct n as [| n]; cbn in Hn; [lia |].
    cbn [substring]. f_equal. apply IH. lia.
Qed.

Lemma info_with_fd_enriched (cid tcp fd : connection_info) :
  enriched (info_with_fd cid tcp fd) cid tcp /\ attributed fd (info_with_fd cid tcp fd).
Proof.
  unfold enriched, attributed, info_with_fd.
  destruct (new_info_identity cid (ci_pid fd) (strncpy (ci_cmdline fd) 256)
                              (ci_uid tcp) (ci_state tcp)) as [Hc [Ha Ht]].
  split.
  - split; [exact Hc |]. split; [exact Ha |]. split; [exact Ht |]. split; reflexivity.
  - split; [reflexivity |]. split; [reflexivity |].
    intros Hlen. cbn. unfold strncpy. now apply substring_all.
Qed.




(** One record per holder: two processes holding the socket give two
    records. *)
Example collate_fan_out :
  map ci_pid
      (connection_info_collate
         [example_cid] [example_tcp]
         [example_fd;
          mk_connection_info 0 WEB100_ADDRTYPE_IPV4 spec_zero spec_v6_zero 0 0 43 123 "curl"])
  = [43; 42].
Proof. reflexivity. Qed.

(** *** The match condition and the address family *)

Lemma addrtype_eqb_eq (a b : WEB100_ADDRTYPE) : addrtype_eqb a b = true <-> a = b.
Proof. destruct a, b; cbn; split; congruence. Qed.

(** Every match in the sense of the specification is a match of the code. *)
Lemma spec_match_tcp_match (tcp cid : connection_info) :
  spec_match tcp cid = true -> tcp_match tcp cid = true.
Proof.
  unfold spec_match, tcp_match, strcmp_eq. intros H.
  apply andb_true_iff in H as [_ H].
  destruct (ci_addrtype tcp); cbn [addrtype_eqb andb orb];
    apply andb_true_iff in H as [H H3]; apply andb_true_iff in H as [H1 H2];
    rewrite H1, H2, H3; reflexivity.
Qed.

(** For a pair of one address family the two notions agree. *)
Lemma tcp_match_same_family (tcp cid : connection_info) :
  ci_addrtype tcp = ci_addrtype cid -> tcp_match tcp cid = spec_match tcp cid.
Proof.
  intros Hfam. unfold spec_match, tcp_match, strcmp_eq. rewrite <- Hfam.
  destruct (ci_addrtype tcp); cbn [addrtype_eqb andb orb].
  - destruct (dst_port (ci_spec tcp) =? dst_port (ci_spec cid)),
             (dst_addr (ci_spec tcp) =? dst_addr (ci_spec cid)),
             (src_port (ci_spec tcp) =? src_port (ci_spec cid)); reflexivity.
  - destruct (dst_port6 (ci_spec_v6 tcp) =? dst_port6 (ci_spec_v6 cid)),
             (String.eqb (c_string (dst_addr6 (ci_spec_v6 tcp)))
                         (c_string (dst_addr6 (ci_spec_v6 cid)))),
             (src_port6 (ci_spec_v6 tcp) =? src_port6 (ci_spec_v6 cid)); reflexivity.
Qed.

(** C1, evaluated where it fails: the IPv6 catalog entry
    [example_cid_v6] and the IPv4 socket [example_tcp] are of different
    address families, so they do not match in the sense of the
    specification, yet the condition of the code holds, and the result
    attributes the state and uid of the IPv4 socket and the process
    holding it to the IPv6 connection. *)
Theorem tcp_match_ignores_catalog_family :
  ci_addrtype example_tcp <> ci_addrtype example_cid_v6
  /\ spec_match example_tcp example_cid_v6 = false
  /\ tcp_match example_tcp example_cid_v6 = true
  /\ map (fun r => (ci_cid r, ci_addrtype r, ci_state r, ci_uid r, ci_pid r, ci_cmdline r))
         (connection_info_collate [example_cid_v6] [example_tcp] [example_fd])
     = [(6, WEB100_ADDRTYPE_IPV6, 1, 1000, 42, "curl")].
Proof.
  split; [discriminate |]. split; [reflexivity |]. split; reflexivity.
Qed.

(** Where every socket entry is of the address family of [cid], the
    catalog entry that matches no socket entry in the sense of the
    specification contributes exactly its residual record. *)
Lemma collate_unmatched_same_family :
  forall (before after : list connection_info) (cid : connection_info)
         (tcp_head fd_head : list connection_info),
    (forall tcp, In tcp tcp_head -> ci_addrtype tcp = ci_addrtype cid) ->
    (forall tcp, In tcp tcp_head -> spec_match tcp cid = false) ->
    connection_info_collate (before ++ cid :: after) tcp_head fd_head
    = connection_info_collate after tcp_head (fd_head)
      ++ info_residual cid :: connection_info_collate before tcp_head fd_head.
Proof.
  intros before after cid tcp_head fd_head Hfam Hno.
  assert (Hrec : records_for_connection cid tcp_head fd_head = [info_residual cid]).
  { unfold records_for_connection. rewrite matching_sockets_none; [reflexivity |].
    intros tcp Hin. rewrite tcp_match_same_family by now apply Hfam. now apply Hno. }
  rewrite !connection_info_collate_join, flat_map_app. cbn [flat_map].
  rewrite Hrec, !rev_app_distr. cbn [rev app]. now rewrite <- app_assoc.
Qed.

(** C2, evaluated where it fails: the IPv6 catalog entry
    [example_cid_v6] matches no entry of the socket table
    [[example_tcp]] in the sense of the specification, the one entry
    being of the other address family.  The result nevertheless does not
    hold the residual record of the connection: the one record emitted
    for it carries the state and uid of the IPv4 socket and the pid and
    command name of the process holding that socket. *)
Theorem collate_unmatched_cross_family :
  (forall tcp, In tcp [example_tcp] -> spec_match tcp example_cid_v6 = false)
  /\ connection_info_collate [example_cid_v6] [example_tcp] [example_fd]
     = [info_with_fd example_cid_v6 example_tcp example_fd]
  /\ map (fun r => (ci_cid r, ci_pid r, ci_uid r, ci_state r, ci_cmdline r))
         (connection_info_collate [example_cid_v6] [example_tcp] [example_fd])
     = [(6, 42, 1000, 1, "curl")]
  /\ ~ In (info_residual example_cid_v6)
          (connection_info_collate [example_cid_v6] [example_tcp] [example_fd]).
Proof.
  split; [intros tcp [<- | []]; reflexivity |].
  split; [reflexivity |]. split; [reflexivity |].
  intros [H | []]. apply (f_equal ci_pid) in H. vm_compute in H. discriminate H.
Qed.

(** ** Snapshots and deltas *)

Lemma bytes_at_length (data : list byte) (pos n : Z) (bs : list byte) :
  bytes_at data pos n = Some bs -> List.length bs = Z.to_nat n.
Proof.
  unfold bytes_at. intros H.
  destruct (0 <=? pos) eqn:Hp; [| discriminate].
  destruct (0 <=? n) eqn:Hn; [| discriminate].
  destruct (pos + n <=? Z.of_nat (List.length data)) eqn:Hb; [| discriminate].
  cbn in H. inversion H; subst. clear H.
  apply Z.leb_le in Hp, Hn, Hb.
  rewrite length_firstn, length_skipn. lia.
Qed.

Lemma firstn_le_split (n m : nat) (z : Z) :
  (n <= m)%nat -> firstn n (le_split m z) = le_split n z.
Proof.
  revert m z. induction n as [| n IH]; intros m z Hle.
  - reflexivity.
  - destruct m as [| m]; [lia |].
    change (le_split (S m) z) with (byte.of_Z z :: le_split m (Z.shiftr z 8)).
    change (le_split (S n) z) with (byte.of_Z z :: le_split n (Z.shiftr z 8)).
    cbn [firstn]. f_equal. apply IH. lia.
Qed.

(** The low [n] bytes of a word that was only partly overwritten depend
    on the bytes written alone. *)
Lemma ull_of_bytes_low (bs old : list byte) :
  (List.length bs <= 8)%nat ->
  ull_of_bytes (memcpy_into old bs) mod 2 ^ (8 * Z.of_nat (List.length bs)) = le_combine bs.
Proof.
  intros Hlen. unfold ull_of_bytes, memcpy_into.
  rewrite <- le_combine_firstn.
  rewrite firstn_firstn, Nat.min_l by exact Hlen.
  rewrite firstn_app, Nat.sub_diag, firstn_all. cbn [firstn]. now rewrite app_nil_r.
Qed.

Lemma size_from_type_range (type : WEB100_TYPE) :
  size_from_type type = 2 \/ size_from_type type = 4 \/ size_from_type type = 8.
Proof. destruct type; cbn; auto. Qed.

(** Subtraction modulo [2^64] followed by truncation to [8 * n] bits is
    subtraction modulo [2^(8 * n)] of the truncated operands. *)
Lemma truncated_difference (a b : Z) (n : nat) :
  (n <= 8)%nat ->
  ((a - b) mod 2 ^ 64) mod 2 ^ (8 * Z.of_nat n)
  = (a mod 2 ^ (8 * Z.of_nat n) - b mod 2 ^ (8 * Z.of_nat n)) mod 2 ^ (8 * Z.of_nat n).
Proof.
  intros Hn.
  assert (Hpos : 0 < 2 ^ (8 * Z.of_nat n)) by (apply Z.pow_pos_nonneg; lia).
  rewrite Z.mod_mod_divide.
  - now rewrite <- Zminus_mod.
  - exists (2 ^ (64 - 8 * Z.of_nat n)).
    rewrite <- Z.pow_add_r by lia. f_equal. lia.
Qed.

(** C4: [web100_delta_any] on a variable and two snapshots of the
    variable's group, the variable lying inside both snapshots: the call
    succeeds, changes nothing in the state, and puts into the first
    [size_from_type] bytes of the buffer the bytes [out] of the
    difference of the two stored values modulo 2 to the width of the
    variable, whatever the uninitialised locals held.  In particular,
    when the first value is the smaller one the result is the difference
    plus that power of two, not an error and not zero.  When the two
    snapshots belong to different groups, and also when they belong to
    one group that is not the variable's, the call returns
    [-WEB100_ERR_INVAL], sets [web100_errno] to [WEB100_ERR_INVAL] and
    leaves the buffer alone. *)
Theorem web100_delta_any_modular :
  forall (var : web100_var) (s1 s2 : web100_snapshot) (v1 v2 buf : list byte) (s : state),
    (group_addr (group_self (snap_group s1)) = group_addr (group_self (snap_group s2)) ->
     group_addr (var_group var) = group_addr (group_self (snap_group s1)) ->
     forall b1 b2 : list byte,
       bytes_at (snap_data s1) (var_offset var) (size_from_type (var_type var)) = Some b1 ->
       bytes_at (snap_data s2) (var_offset var) (size_from_type (var_type var)) = Some b2 ->
       exists out : list byte,
         web100_delta_any var s1 s2 v1 v2 buf s
         = (Returns (WEB100_ERR_SUCCESS, memcpy_into buf out), s)
         /\ Z.of_nat (List.length out) = size_from_type (var_type var)
         /\ le_combine out
            = (le_combine b1 - le_combine b2) mod 2 ^ (8 * size_from_type (var_type var))
         /\ (le_combine b1 < le_combine b2 ->
             le_combine out
             = le_combine b1 - le_combine b2 + 2 ^ (8 * size_from_type (var_type var))))
    /\ (group_addr (group_self (snap_group s1)) <> group_addr (group_self (snap_group s2))
        \/ group_addr (var_group var) <> group_addr (group_self (snap_group s1)) ->
        web100_delta_any var s1 s2 v1 v2 buf s
        = (Returns (- WEB100_ERR_INVAL, buf),
           mk_state WEB100_ERR_INVAL (files s) (dirs s) (trace s))).
Proof.
  intros var s1 s2 v1 v2 buf s. split.
  - intros Hsnaps Hvar b1 b2 Hb1 Hb2.
    set (n := Z.to_nat (size_from_type (var_type var))).
    assert (Hn8 : (n <= 8)%nat).
    { subst n. destruct (size_from_type_range (var_type var)) as [E | [E | E]];
        rewrite E; lia. }
    assert (Hsz : Z.of_nat n = size_from_type (var_type var)).
    { subst n. destruct (size_from_type_range (var_type var)) as [E | [E | E]];
        rewrite E; lia. }
    pose proof (bytes_at_length _ _ _ _ Hb1) as Hl1. fold n in Hl1.
    pose proof (bytes_at_length _ _ _ _ Hb2) as Hl2. fold n in Hl2.
    set (val := (ull_of_bytes (memcpy_into v1 b1) - ull_of_bytes (memcpy_into v2 b2))
                mod 2 ^ 64).
    exists (firstn n (le_split 8 val)).
    assert (Hout : le_combine (firstn n (le_split 8 val))
                   = (le_combine b1 - le_combine b2) mod 2 ^ (8 * Z.of_nat n)).
    { rewrite firstn_le_split by exact Hn8.
      rewrite le_combine_split. replace (Z.of_nat n * 8) with (8 * Z.of_nat n) by lia.
      subst val. rewrite truncated_difference by exact Hn8.
      rewrite <- Hl1 at 1 2. rewrite ull_of_bytes_low by lia.
      rewrite Hl1, <- Hl2 at 1. rewrite <- Hl2 at 1.
      rewrite ull_of_bytes_low by lia. now rewrite Hl2. }
    split; [| split; [| split]].
    + unfold web100_delta_any, web100_snap_read.
      rewrite <- Hsnaps, <- Hvar, !Nat.eqb_refl. cbn [negb]. io_simpl.
      rewrite Hb1. cbn [Z.ltb Z.compare WEB100_ERR_SUCCESS].
      rewrite Hb2. reflexivity.
    + rewrite length_firstn, length_le_split. lia.
    + rewrite Hout, Hsz. reflexivity.
    + intros Hlt. rewrite Hout, Hsz.
      pose proof (le_combine_bound b1) as B1. pose proof (le_combine_bound b2) as B2.
      rewrite Hl1 in B1. rewrite Hl2 in B2. rewrite Hsz in B1, B2.
      symmetry. apply Z.mod_unique with (q := -1); lia.
  - intros Hdiff. unfold web100_delta_any.
    destruct (Nat.eqb_spec (group_addr (group_self (snap_group s1)))
                           (group_addr (group_self (snap_group s2)))) as [Hsnaps | Hsnaps];
      [| reflexivity].
    destruct Hdiff as [Hdiff | Hdiff]; [contradiction |].
    apply Nat.eqb_neq in Hdiff. cbn [negb].
    unfold web100_snap_read, bind. rewrite Hdiff. reflexivity.
Qed.

Lemma web100_delta_any_modular_witness :
  exists out : list byte,
    web100_delta_any example_counter example_snap_new example_snap_old
                     example_junk example_junk [Byte.x00; Byte.x00; Byte.x00; Byte.x00]
                     example_state
    = (Returns (WEB100_ERR_SUCCESS, out), example_state)
    /\ le_combine out = 11.
Proof.
  destruct (web100_delta_any_modular
              example_counter example_snap_new example_snap_old
              example_junk example_junk [Byte.x00; Byte.x00; Byte.x00; Byte.x00]
              example_state) as [Hsame _].
  destruct (Hsame eq_refl eq_refl
              [Byte.x05; Byte.x00; Byte.x00; Byte.x00]
              [Byte.xfa; Byte.xff; Byte.xff; Byte.xff] eq_refl eq_refl)
    as [out [Hrun [Hlen [Hval _]]]].
  exists out. split.
  - rewrite Hrun. unfold memcpy_into.
    assert (Hl : List.length out = 4%nat) by (cbn in Hlen; lia).
    rewrite Hl. cbn [skipn]. now rewrite app_nil_r.
  - rewrite Hval. reflexivity.
Defined.

(** ** Schema store *)

Lemma add_vars_spec (vars : list (string * Z * WEB100_TYPE)) :
  forall g : web100_group,
    group_self (add_vars g vars) = group_self g
    /\ group_size (add_vars g vars) = group_size g + sum_sizes vars
    /\ group_nvars (add_vars g vars) = group_nvars g + Z.of_nat (List.length vars)
    /\ var_head (add_vars g vars)
       = rev (map (fun v => mk_var (group_self g) (fst (fst v)) (snd (fst v)) (snd v)) vars)
         ++ var_head g.
Proof.
  induction vars as [| v vars IH]; intros g.
  - cbn. repeat split; lia.
  - unfold add_vars. cbn [fold_left]. fold (add_vars (add_var g (fst (fst v)) (snd (fst v)) (snd v)) vars).
    destruct (IH (add_var g (fst (fst v)) (snd (fst v)) (snd v))) as [Hs [Hz [Hn Hv]]].
    cbn [add_var group_self group_size group_nvars var_head] in Hs, Hz, Hn, Hv.
    rewrite Hs, Hz, Hn, Hv. cbn [sum_sizes fold_right List.length map rev].
    fold (sum_sizes vars). rewrite <- app_assoc. cbn [app].
    split; [reflexivity |]. split; [lia |]. split; [lia | reflexivity].
Qed.

Section SchemaStoreProperties.

Variable WEB100_HEADER_FILE : string.
Variable junk_group_head : list web100_group.
Variable junk_connection_head : list web100_connection.

Variable WEB100_TYPE_of_int : Z -> option WEB100_TYPE.

Lemma decode_decls_length (decls : list var_decl) :
  forall vars, decode_decls WEB100_TYPE_of_int decls = Some vars -> List.length vars = List.length decls.
Proof.
  induction decls as [| d rest IH]; intros vars H; cbn in H.
  - now inversion H.
  - destruct (decode_decl WEB100_TYPE_of_int d); [| discriminate].
    destruct (decode_decls WEB100_TYPE_of_int rest) as [vs |]; [| discriminate].
    inversion H; subst. cbn. f_equal. now apply IH.
Qed.

Lemma after_vars_valid (st : parse_state) (vars : list (string * Z * WEB100_TYPE)) :
  gp_valid st -> gp_valid (after_vars st vars).
Proof.
  unfold gp_valid, after_vars. destruct (ps_gp st) eqn:E; cbn; try tauto.
  destruct (ps_group_head st); cbn; [tauto | discriminate].
Qed.

Lemma attach_loop_decl (agent : agent_ref) (d : var_decl) (v : string * Z * WEB100_TYPE)
  (fuel : nat) (rest : list string) (st : parse_state) :
  decode_decl WEB100_TYPE_of_int d = Some v ->
  gp_valid st ->
  attach_loop WEB100_TYPE_of_int agent (S fuel) (decl_tokens d ++ rest) st
  = attach_loop WEB100_TYPE_of_int agent fuel rest (after_vars st [v]).
Proof.
  unfold decode_decl, gp_valid, decl_tokens. intros Hd Hgp.
  destruct (decl_name d) as [| c r] eqn:En; [discriminate |].
  cbn [is_var_name] in Hd.
  destruct (Ascii.eqb_spec c "/") as [-> | Hc]; [discriminate |]. cbn [negb] in Hd.
  destruct (read_int (decl_offset d)) as [[offset [| ? ?]] |] eqn:Eo; try discriminate.
  destruct (read_int (decl_type d)) as [[ty [| ? ?]] |] eqn:Et; try discriminate.
  destruct (WEB100_TYPE_of_int ty) as [type |] eqn:Ety; [| discriminate].
  inversion Hd; subst v; clear Hd.
  cbn [app attach_loop].
  assert (Hslash : forall A (x y : A),
             match c with
             | "/"%char => x
             | _ => y
             end = y).
  { intros A x y.
    destruct c as [[] [] [] [] [] [] [] []]; try reflexivity. now contradiction Hc. }
  rewrite Hslash.
  unfold scan_var, scan_int. rewrite Eo. cbn [push_back]. rewrite Et, Ety. cbn [push_back].
  unfold after_vars. cbn [List.length Nat.add add_vars fold_left fst snd].
  destruct (ps_gp st) eqn:Egp; [contradiction | reflexivity |].
  destruct (ps_group_head st) as [| g gs]; [contradiction | reflexivity].
Qed.

Lemma after_vars_cons (st : parse_state) (v : string * Z * WEB100_TYPE)
  (vs : list (string * Z * WEB100_TYPE)) :
  after_vars (after_vars st [v]) vs = after_vars st (v :: vs).
Proof.
  unfold after_vars. destruct (ps_gp st) eqn:E; cbn.
  - now rewrite E.
  - f_equal. lia.
  - destruct (ps_group_head st) as [| g gs] eqn:Eg; cbn.
    + now rewrite E, Eg.
    + f_equal. lia.
Qed.

(** The rounds of the loop that consume the records of a group. *)
Lemma attach_loop_decls (agent : agent_ref) (decls : list var_decl) :
  forall (vars : list (string * Z * WEB100_TYPE)) (fuel : nat) (rest : list string)
         (st : parse_state),
    decode_decls WEB100_TYPE_of_int decls = Some vars ->
    gp_valid st ->
    attach_loop WEB100_TYPE_of_int agent (List.length decls + fuel)%nat
                (flat_map decl_tokens decls ++ rest) st
    = attach_loop WEB100_TYPE_of_int agent fuel rest (after_vars st vars).
Proof.
  induction decls as [| d ds IH]; intros vars fuel rest st Hdec Hgp.
  - cbn in Hdec. inversion Hdec; subst. cbn [List.length Nat.add flat_map app].
    f_equal. unfold after_vars, gp_valid in *. destruct st as [n gh gp]; cbn in *.
    destruct gp; [contradiction | reflexivity |].
    destruct gh; [contradiction | reflexivity].
  - cbn [decode_decls] in Hdec.
    destruct (decode_decl WEB100_TYPE_of_int d) as [v |] eqn:Ed; [| discriminate].
    destruct (decode_decls WEB100_TYPE_of_int ds) as [vs |] eqn:Eds; [| discriminate].
    inversion Hdec; subst vars; clear Hdec.
    cbn [flat_map List.length Nat.add]. rewrite <- app_assoc.
    rewrite (attach_loop_decl agent d v) by assumption.
    rewrite (IH vs) by (try reflexivity; now apply after_vars_valid).
    now rewrite after_vars_cons.
Qed.

Lemma after_group_line_valid (agent : agent_ref) (st : parse_state) (name : string) :
  gp_valid (after_group_line agent st name).
Proof.
  unfold gp_valid, after_group_line. destruct (streq name "spec"); cbn; [tauto | discriminate].
Qed.

Lemma attach_loop_group_line (agent : agent_ref) (name : string) (fuel : nat)
  (rest : list string) (st : parse_state) :
  name <> "" ->
  attach_loop WEB100_TYPE_of_int agent (S fuel) (String "/" name :: rest) st
  = attach_loop WEB100_TYPE_of_int agent fuel rest (after_group_line agent st name).
Proof.
  intros Hname. cbn [attach_loop]. unfold push_back, after_group_line.
  destruct name as [| c r]; [contradiction |].
  destruct (streq (String c r) "spec"); reflexivity.
Qed.

Lemma attach_loop_end (agent : agent_ref) (fuel : nat) (st : parse_state) :
  attach_loop WEB100_TYPE_of_int agent fuel [] st = ParseOk st.
Proof. destruct fuel; reflexivity. Qed.

(** The rounds of the loop that consume a whole group. *)
Lemma attach_loop_group (agent : agent_ref) (name : string) (decls : list var_decl)
  (vars : list (string * Z * WEB100_TYPE)) (fuel : nat) (rest : list string)
  (st : parse_state) :
  name <> "" ->
  decode_decls WEB100_TYPE_of_int decls = Some vars ->
  attach_loop WEB100_TYPE_of_int agent (S (List.length decls + fuel))
              (group_tokens name decls ++ rest) st
  = attach_loop WEB100_TYPE_of_int agent fuel rest
                (after_vars (after_group_line agent st name) vars).
Proof.
  intros Hname Hdec. unfold group_tokens. rewrite <- app_comm_cons.
  rewrite attach_loop_group_line by exact Hname.
  apply attach_loop_decls; [exact Hdec | apply after_group_line_valid].
Qed.

Lemma group_tokens_length (name : string) (decls : list var_decl) :
  List.length (group_tokens name decls) = S (3 * List.length decls).
Proof.
  unfold group_tokens. cbn [List.length]. f_equal.
  induction decls as [| d ds IH]; [reflexivity |].
  cbn [flat_map]. rewrite length_app, IH. cbn [decl_tokens List.length]. lia.
Qed.

Lemma vars_size_app (l1 l2 : list web100_var) :
  vars_size (l1 ++ l2) = vars_size l1 + vars_size l2.
Proof.
  induction l1 as [| v l IH]; cbn; [reflexivity |].
  fold (vars_size (l ++ l2)). fold (vars_size l). lia.
Qed.

Lemma vars_size_rev_map (gr : group_ref) (vars : list (string * Z * WEB100_TYPE)) :
  vars_size (rev (map (fun v => mk_var gr (fst (fst v)) (snd (fst v)) (snd v)) vars))
  = sum_sizes vars.
Proof.
  induction vars as [| v vs IH]; [reflexivity |].
  cbn [map rev]. rewrite vars_size_app, IH. cbn. fold (sum_sizes vs). lia.
Qed.

Lemma built_group_spec (agent : agent_ref) (addr : ptr) (name : string)
  (decls : list var_decl) (vars : list (string * Z * WEB100_TYPE)) :
  decode_decls WEB100_TYPE_of_int decls = Some vars ->
  let g := built_group agent addr name vars in
  group_name (group_self g) = name
  /\ group_agent (group_self g) = agent
  /\ group_nvars g = Z.of_nat (List.length decls)
  /\ List.length (var_head g) = List.length decls
  /\ group_size g = vars_size (var_head g)
  /\ map (fun v => (var_name v, var_offset v, var_type v)) (var_head g) = rev vars.
Proof.
  intros Hdec g. subst g. unfold built_group.
  destruct (add_vars_spec vars (mk_group (mk_group_ref addr agent name) 0 0 []))
    as [Hs [Hz [Hn Hv]]].
  cbn [group_self group_size group_nvars var_head] in Hs, Hz, Hn, Hv.
  rewrite app_nil_r in Hv.
  rewrite Hs, Hz, Hn, Hv. cbn [group_name group_agent].
  rewrite (decode_decls_length _ _ Hdec).
  split; [reflexivity |]. split; [reflexivity |]. split; [lia |].
  split; [now rewrite length_rev, length_map, (decode_decls_length _ _ Hdec) |].
  split; [now rewrite vars_size_rev_map |].
  rewrite <- map_rev, map_map. cbn [var_name var_offset var_type].
  rewrite <- (map_id (rev vars)) at 2. apply map_ext. now intros [[nm off] ty].
Qed.

(** A header with a first line, the group "spec" with its records and
    one other group [name] with the records [decls], in either order, is
    parsed with success.  The parse links exactly one group [g] in front
    of the list the uninitialised head denotes; [g] has the name [name],
    as many variables as there are records in [decls], the variables
    those records describe, and as size the sum of the wire-type sizes of
    its variables.  Enumeration with [web100_group_head] and
    [web100_group_next] visits [g] and then that list, and looking up
    "spec" finds what that list holds under the name. *)
Lemma attach_spec_and_one_group :
  forall (line name : string) (spec_decls decls : list var_decl)
         (spec_vars vars : list (string * Z * WEB100_TYPE))
         (toks : list string) (next : ptr) (s : state),
    line <> "" -> name <> "" -> name <> "spec" ->
    decode_decls WEB100_TYPE_of_int spec_decls = Some spec_vars ->
    decode_decls WEB100_TYPE_of_int decls = Some vars ->
    toks = group_tokens "spec" spec_decls ++ group_tokens name decls
    \/ toks = group_tokens name decls ++ group_tokens "spec" spec_decls ->
    exists (agent : web100_agent) (g : web100_group),
      _web100_agent_attach_local WEB100_HEADER_FILE WEB100_TYPE_of_int
        junk_group_head junk_connection_head (Some (mk_header line toks)) next s
      = (Returns (Some agent),
         mk_state WEB100_ERR_SUCCESS (files s) (dirs s)
                  (EvFclose WEB100_HEADER_FILE :: EvFopen WEB100_HEADER_FILE "r"
                   :: trace s))
      /\ group_head agent = g :: junk_group_head
      /\ connection_head agent = junk_connection_head
      /\ group_name (group_self g) = name
      /\ group_nvars g = Z.of_nat (List.length decls)
      /\ List.length (var_head g) = List.length decls
      /\ map (fun v => (var_name v, var_offset v, var_type v)) (var_head g) = rev vars
      /\ group_size g = vars_size (var_head g)
      /\ (forall s', fst (web100_group_head agent s') = g :: junk_group_head
                     /\ fst (web100_group_next (g :: junk_group_head) s')
                        = junk_group_head)
      /\ (forall s', fst (web100_group_find agent "spec" s')
                     = group_find_loop junk_group_head "spec").
Proof.
  intros line name spec_decls decls spec_vars vars toks next s
         Hline Hname Hspec Hsdec Hdec Htoks.
  assert (Hneq : streq name "spec" = false) by now apply String.eqb_neq.
  set (agent_r := mk_agent_ref next WEB100_AGENT_TYPE_LOCAL).
  assert (Hloop : exists addr,
             attach_loop WEB100_TYPE_of_int agent_r (List.length toks) toks
                         (mk_parse_state (S next) junk_group_head GpNull)
             = ParseOk (mk_parse_state
                          (List.length spec_decls + List.length decls + 3 + next)%nat
                          (built_group agent_r addr name vars :: junk_group_head)
                          (if Nat.eqb addr (S next)
                           then GpDiscard (built_group agent_r
                                             (S (List.length decls) + addr)%nat
                                             "spec" spec_vars)
                           else GpHead))).
  { destruct Htoks as [-> | ->].
    - exists (S (List.length spec_decls) + S next)%nat.
      rewrite length_app, !group_tokens_length.
      replace (S (3 * List.length spec_decls) + S (3 * List.length decls))%nat
        with (S (List.length spec_decls
                 + S (List.length decls
                      + (2 * List.length spec_decls + 2 * List.length decls))))%nat by lia.
      rewrite (attach_loop_group agent_r "spec" spec_decls spec_vars)
        by (assumption || discriminate).
      rewrite <- (app_nil_r (group_tokens name decls)).
      rewrite (attach_loop_group agent_r name decls vars) by assumption.
      rewrite attach_loop_end. f_equal.
      unfold after_group_line at 2. cbn [streq String.eqb Ascii.eqb Bool.eqb].
      unfold after_vars at 2. cbn [ps_gp ps_next ps_group_head].
      unfold after_group_line. cbn [ps_next ps_group_head]. rewrite Hneq.
      unfold after_vars. cbn [ps_gp ps_next ps_group_head].
      rewrite (decode_decls_length _ _ Hsdec), (decode_decls_length _ _ Hdec).
      replace (S (Datatypes.length spec_decls) + S next =? S next)%nat with false
        by (symmetry; apply Nat.eqb_neq; lia).
      unfold built_group.
      replace (List.length spec_decls + S (S next))%nat
        with (S (List.length spec_decls) + S next)%nat by lia.
      f_equal. lia.
    - exists (S next).
      rewrite length_app, !group_tokens_length.
      replace (S (3 * List.length decls) + S (3 * List.length spec_decls))%nat
        with (S (List.length decls
                 + S (List.length spec_decls
                      + (2 * List.length spec_decls + 2 * List.length decls))))%nat by lia.
      rewrite (attach_loop_group agent_r name decls vars) by assumption.
      rewrite <- (app_nil_r (group_tokens "spec" spec_decls)).
      rewrite (attach_loop_group agent_r "spec" spec_decls spec_vars)
        by (assumption || discriminate).
      rewrite attach_loop_end. f_equal.
      unfold after_group_line at 2. rewrite Hneq.
      unfold after_vars at 2. cbn [ps_gp ps_next ps_group_head].
      unfold after_group_line. cbn [streq String.eqb Ascii.eqb Bool.eqb ps_next ps_group_head].
      unfold after_vars. cbn [ps_gp ps_next ps_group_head].
      rewrite (decode_decls_length _ _ Hsdec), (decode_decls_length _ _ Hdec).
      rewrite Nat.eqb_refl. unfold built_group.
      replace (List.length decls + S (S next))%nat
        with (S (List.length decls) + S next)%nat by lia.
      f_equal. lia. }
  destruct Hloop as [addr Hloop].
  destruct (built_group_spec agent_r addr name decls vars Hdec)
    as [Hn [Hag [Hnv [Hlen [Hsz Hvars]]]]].
  exists (mk_agent agent_r line (built_group agent_r addr name vars :: junk_group_head)
                   junk_connection_head),
         (built_group agent_r addr name vars).
  split; [| repeat (split; [assumption || reflexivity |])].
  - unfold _web100_agent_attach_local. cbn [first_line tokens].
    fold agent_r. rewrite Hloop.
    destruct line as [| c r]; [contradiction | reflexivity].
  - split.
    + intros s'. split; [reflexivity |].
      unfold web100_group_next. rewrite Hag. reflexivity.
    + intros s'. unfold web100_group_find. cbn [agent_self agent_type agent_r is_local group_head].
      io_simpl. cbn [group_find_loop]. rewrite Hn, Hneq. reflexivity.
Qed.

End SchemaStoreProperties.

(** A variable record before any group line is a header error, after
    which the header file is closed; a type number that denotes no wire
    type runs into the assertion; and numbers are stored as [int]s. *)
Example attach_var_before_group :
  _web100_agent_attach_local example_header_file example_numbering [] []
    (Some (mk_header "1.1.0" ["PktsOut"; "0"; "3"])) 100%nat example_state
  = (Returns None,
     mk_state WEB100_ERR_HEADER (files example_state) (dirs example_state)
              [EvFclose example_header_file; EvFopen example_header_file "r"]).
Proof. reflexivity. Qed.

Example attach_unknown_type :
  fst (_web100_agent_attach_local example_header_file example_numbering [] []
         (Some (mk_header "1.1.0" ["/read"; "PktsOut"; "0"; "99"])) 100%nat example_state)
  = Aborts.
Proof. reflexivity. Qed.

Example attach_numbers_are_ints :
  exists agent,
    fst (_web100_agent_attach_local example_header_file example_numbering [] []
           (Some (mk_header "1.1.0" ["/read"; "PktsOut"; "4294967297"; "4294967304"]))
           100%nat example_state)
    = Returns (Some agent)
    /\ map (fun g => map (fun v => (var_name v, var_offset v, var_type v)) (var_head g))
           (group_head agent)
       = [[("PktsOut", 1, WEB100_TYPE_UNSIGNED16)]].
Proof. eexists. split; vm_compute; reflexivity. Qed.

(** C5, evaluated where it fails.  The header holds the group "spec"
    and the group "read" with two variables.  The function never writes
    [agent->info.local.group_head] before it links the first group in
    front of it, so the list of the agent ends in whatever the memory
    [malloc] returned denoted.  Where that is a stale group named "spec"
    ([example_stale_groups]), enumeration exposes two groups and the
    lookup of "spec" finds one; where the memory is zero, one group is
    exposed and the lookup finds nothing. *)
Theorem attach_uninitialised_group_head :
  (exists agent : web100_agent,
      fst (_web100_agent_attach_local example_header_file example_numbering
             example_stale_groups [] (Some example_header) 100%nat example_state)
      = Returns (Some agent)
      /\ map (fun g => (group_name (group_self g), group_nvars g, group_size g))
             (fst (web100_group_head agent example_state))
         = [("read", 2, 12); ("spec", 4, 12)]
      /\ fst (web100_group_find agent "spec" example_state) = example_stale_groups)
  /\ (exists agent : web100_agent,
         fst (_web100_agent_attach_local example_header_file example_numbering
                [] [] (Some example_header) 100%nat example_state)
         = Returns (Some agent)
         /\ map (fun g => (group_name (group_self g), group_nvars g, group_size g))
                (fst (web100_group_head agent example_state))
            = [("read", 2, 12)]
         /\ fst (web100_group_find agent "spec" example_state) = []).
Proof.
  split; eexists; (split; [vm_compute; reflexivity |]); split; vm_compute; reflexivity.
Qed.

(** ** Connection catalog *)

(** *** Which directory entries are read *)

Lemma isdigit_facts (c : ascii) :
  isdigit c = true ->
  isspace c = false /\ 0 <= digit_value c <= 9
  /\ (digit_value c = 0 -> c = "0"%char)
  /\ (forall (A : Type) (x y z : A),
         match c with
         | "-"%char => x
         | "+"%char => y
         | _ => z
         end = z).
Proof.
  destruct c as [[] [] [] [] [] [] [] []]; intros H; vm_compute in H;
    try discriminate H;
    (split; [reflexivity |]);
    (split; [vm_compute; split; discriminate |]);
    (split; [intros E; vm_compute in E; try discriminate E; reflexivity | reflexivity]).
Qed.

Lemma scan_digits_all (s : string) :
  forall (acc : Z) (n : nat),
    all_digits s = true ->
    scan_digits acc n s = (decimal_value acc s, (n + String.length s)%nat, "").
Proof.
  induction s as [| c r IH]; intros acc n H;
    cbn [all_digits scan_digits decimal_value String.length] in *.
  - now rewrite Nat.add_0_r.
  - apply andb_true_iff in H as [Hc Hr]. rewrite Hc, IH by exact Hr.
    f_equal. f_equal. lia.
Qed.

Lemma decimal_value_ge (s : string) :
  forall acc : Z, 0 <= acc -> all_digits s = true -> acc <= decimal_value acc s.
Proof.
  induction s as [| c r IH]; intros acc Hacc H; cbn [all_digits decimal_value] in *; [lia |].
  apply andb_true_iff in H as [Hc Hr].
  destruct (isdigit_facts c Hc) as [_ [Hd _]].
  specialize (IH (10 * acc + digit_value c) ltac:(lia) Hr). lia.
Qed.



Example atoi_examples :
  map atoi ["12abc"; "-5"; " 42"; "+0"; ""; "header"; "007"] = [12; -5; 42; 0; 0; 0; 7]
  /\ map atoi ["2147483647"; "2147483648"; "4294967296"; "4294967303";
               "99999999999999999999"; "-99999999999999999999"]
     = [2147483647; -2147483648; 0; 7; -1; 0].
Proof. split; vm_compute; reflexivity. Qed.

Example skips_entry_examples :
  map skips_entry ["."; ".."; "header"; "0"; "00"; "7"; "-0"; "+0"; "-5"; "12abc"; "";
                   "4294967296"; "4294967303"]
  = [true; true; true; false; false; false; true; true; false; false; true;
     true; false].
Proof. vm_compute. reflexivity. Qed.

(** A number in the range of [int] is stored as it is. *)
Lemma int_of_digits_small (v : Z) :
  - 2 ^ 31 <= v < 2 ^ 31 -> int_of_digits v = v.
Proof.
  intros Hv. unfold int_of_digits, strtol_value, int_of_long.
  change (2 ^ 31) with 2147483648 in *. change (2 ^ 32) with 4294967296.
  change (2 ^ 63) with 9223372036854775808.
  rewrite Z.min_r, Z.max_r by lia. rewrite Z.mod_small by lia. lia.
Qed.

Lemma decimal_name_atoi (d_name : string) :
  is_decimal d_name = true ->
  atoi d_name = int_of_digits (decimal_value 0 d_name)
  /\ 0 <= decimal_value 0 d_name
  /\ (decimal_value 0 d_name = 0 -> first_char d_name = "0"%char).
Proof.
  destruct d_name as [| c r]; [discriminate |]. cbn [is_decimal]. intros Hd.
  pose proof Hd as Hall. cbn [all_digits] in Hd. apply andb_true_iff in Hd as [Hc Hr].
  destruct (isdigit_facts c Hc) as [Hsp [Hrange [Hzero Hsign]]].
  assert (Hge : digit_value c <= decimal_value 0 (String c r)).
  { cbn [decimal_value]. apply decimal_value_ge; [lia | exact Hr]. }
  split; [| split; [lia |]].
  - unfold atoi. cbn [skip_space]. rewrite Hsp. unfold scan_signed.
    rewrite Hsign, scan_digits_all by exact Hall. reflexivity.
  - intros E. cbn [first_char]. apply Hzero. lia.
Qed.



(** *** The rebuild *)

Lemma fread_full (n : Z) (path : string) (pos : Z) (data : list byte) (s : state) :
  files s path = Some data ->
  0 <= pos -> 0 < n -> pos + n <= Z.of_nat (List.length data) ->
  fread n (mk_FILE path pos) s
  = ((Some (firstn (Z.to_nat n) (skipn (Z.to_nat pos) data)), mk_FILE path (pos + n)),
     with_trace s (EvFread path n :: trace s)).
Proof.
  intros Hf Hpos Hn Hlen. unfold fread, bytes_at, log. cbn [f_path f_pos].
  rewrite Hf.
  destruct (Z.leb_spec 0 pos); [| lia]. destruct (Z.leb_spec 0 n); [| lia].
  destruct (Z.leb_spec (pos + n) (Z.of_nat (List.length data))); [| lia].
  cbn [andb]. destruct (Z.eqb_spec n 0); [lia | reflexivity].
Qed.

Lemma fread_short (n : Z) (path : string) (pos : Z) (data : list byte) (s : state) :
  files s path = Some data ->
  Z.of_nat (List.length data) < pos + n ->
  fread n (mk_FILE path pos) s
  = ((None, mk_FILE path pos), with_trace s (EvFread path n :: trace s)).
Proof.
  intros Hf Hlen. unfold fread, bytes_at, log. cbn [f_path f_pos].
  rewrite Hf.
  destruct (Z.leb_spec (pos + n) (Z.of_nat (List.length data))); [lia |].
  rewrite andb_false_r. reflexivity.
Qed.

Lemma read_spec_full (path : string) (data : list byte) (sp sp0 : web100_connection_spec)
  (s : state) :
  files s path = Some data ->
  spec_of_bytes data = Some sp ->
  read_spec (mk_FILE path 0) sp0 s
  = ((true, sp),
     with_trace s ([EvFread path 4; EvFread path 2; EvFread path 4; EvFread path 2]
                   ++ trace s)).
Proof.
  intros Hf Hsp. unfold spec_of_bytes in Hsp.
  destruct (Nat.leb_spec 12 (List.length data)) as [Hlen |]; [| discriminate].
  inversion Hsp; subst sp; clear Hsp.
  unfold read_spec, bind, ret.
  rewrite (fread_full 2 path 0 data) by (assumption || lia).
  rewrite (fread_full 4 path (0 + 2) data) by (assumption || lia).
  rewrite (fread_full 2 path (0 + 2 + 4) data) by (assumption || lia).
  rewrite (fread_full 4 path (0 + 2 + 4 + 2) data) by (assumption || lia).
  reflexivity.
Qed.

Lemma read_spec_short (path : string) (data : list byte) (sp0 : web100_connection_spec)
  (s : state) :
  files s path = Some data ->
  spec_of_bytes data = None ->
  exists sp tr,
    read_spec (mk_FILE path 0) sp0 s = ((false, sp), with_trace s (tr ++ trace s)).
Proof.
  intros Hf Hsp. unfold spec_of_bytes in Hsp.
  destruct (Nat.leb_spec 12 (List.length data)) as [| Hlen]; [discriminate |].
  unfold read_spec, bind, ret.
  destruct (Z.lt_ge_cases (Z.of_nat (List.length data)) 2) as [H2 | H2].
  { rewrite (fread_short 2 path 0 data) by (assumption || lia).
    exists sp0, [EvFread path 2]. reflexivity. }
  rewrite (fread_full 2 path 0 data) by (assumption || lia).
  destruct (Z.lt_ge_cases (Z.of_nat (List.length data)) 6) as [H6 | H6].
  { rewrite (fread_short 4 path (0 + 2) data) by (assumption || lia).
    eexists _, [EvFread path 4; EvFread path 2]. reflexivity. }
  rewrite (fread_full 4 path (0 + 2) data) by (assumption || lia).
  destruct (Z.lt_ge_cases (Z.of_nat (List.length data)) 8) as [H8 | H8].
  { rewrite (fread_short 2 path (0 + 2 + 4) data) by (assumption || lia).
    eexists _, [EvFread path 2; EvFread path 4; EvFread path 2]. reflexivity. }
  rewrite (fread_full 2 path (0 + 2 + 4) data) by (assumption || lia).
  rewrite (fread_short 4 path (0 + 2 + 4 + 2) data) by (assumption || lia).
  eexists _, [EvFread path 4; EvFread path 2; EvFread path 4; EvFread path 2].
  reflexivity.
Qed.

Section CatalogProperties.

Variable WEB100_ROOT_DIR : string.
Variable junk : nat -> web100_connection_spec.

Lemma readdir_loop_skip (agent : agent_ref) (d_name : string) (rest : list string)
  (head : list web100_connection) (s : state) :
  skips_entry d_name = true ->
  readdir_loop WEB100_ROOT_DIR junk agent (d_name :: rest) head s
  = readdir_loop WEB100_ROOT_DIR junk agent rest head
                 (with_trace s (EvReaddir :: trace s)).
Proof. intros Hskip. cbn [readdir_loop]. unfold bind, log. now rewrite Hskip. Qed.

Lemma readdir_loop_read (agent : agent_ref) (d_name : string) (rest : list string)
  (head : list web100_connection) (s : state) (sp : web100_connection_spec) :
  skips_entry d_name = false ->
  entry_spec WEB100_ROOT_DIR (files s) d_name = Some sp ->
  exists tr,
    readdir_loop WEB100_ROOT_DIR junk agent (d_name :: rest) head s
    = readdir_loop WEB100_ROOT_DIR junk agent rest
                   (mk_connection agent (atoi d_name) sp :: head)
                   (with_trace s (tr ++ trace s)).
Proof.
  intros Hskip Hsp. unfold entry_spec in Hsp.
  destruct (files s (spec_path WEB100_ROOT_DIR d_name)) as [data |] eqn:Hf; [| discriminate].
  eexists ([EvFclose _; EvFread _ 4; EvFread _ 2; EvFread _ 4; EvFread _ 2;
            EvFopen _ _; EvReaddir]).
  cbn [readdir_loop]. unfold bind at 1. unfold log at 1. rewrite Hskip.
  unfold bind at 1. unfold fopen, log at 1. cbn [files]. fold (spec_path WEB100_ROOT_DIR d_name).
  rewrite Hf. unfold bind at 1. cbn [conn_spec].
  erewrite read_spec_full; [| cbn [files]; exact Hf | exact Hsp].
  unfold bind, fclose, log. cbn [f_path]. reflexivity.
Qed.

Lemma readdir_loop_bad (agent : agent_ref) (d_name : string) (rest : list string)
  (head : list web100_connection) (s : state) :
  skips_entry d_name = false ->
  entry_spec WEB100_ROOT_DIR (files s) d_name = None ->
  exists sp tr,
    readdir_loop WEB100_ROOT_DIR junk agent (d_name :: rest) head s
    = ((WEB100_ERR_SYS, mk_connection agent (atoi d_name) sp :: head),
       with_trace s (tr ++ trace s)).
Proof.
  intros Hskip Hsp. unfold entry_spec in Hsp.
  cbn [readdir_loop]. unfold bind at 1. unfold log at 1. rewrite Hskip.
  unfold bind at 1. unfold fopen, log at 1. cbn [files]. fold (spec_path WEB100_ROOT_DIR d_name).
  destruct (files s (spec_path WEB100_ROOT_DIR d_name)) as [data |] eqn:Hf.
  - unfold bind at 1. cbn [conn_spec].
    destruct (read_spec_short (spec_path WEB100_ROOT_DIR d_name) data (junk (List.length head))
                (with_trace s (EvFopen (spec_path WEB100_ROOT_DIR d_name) "r" :: EvReaddir :: trace s)))
      as [sp [tr Hrd]]; [exact Hf | exact Hsp |].
    unfold with_trace in Hrd. cbn [web100_errno files dirs trace] in Hrd |- *.
    rewrite Hrd. exists sp.
    exists (EvStderr "refresh_connections: bad spec file format" :: EvStderr "fread"
            :: tr ++ [EvFopen (spec_path WEB100_ROOT_DIR d_name) "r"; EvReaddir]).
    unfold bind, perror, log, ret, with_trace. cbn [web100_errno files dirs trace].
    rewrite <- !app_comm_cons, <- app_assoc. reflexivity.
  - exists (junk (List.length head)).
    exists [EvStderr "refresh_connections: fopen"; EvFopen (spec_path WEB100_ROOT_DIR d_name) "r"; EvReaddir].
    reflexivity.
Qed.

(** The loop on a directory all of whose entries that are read have a
    complete spec record. *)
Lemma readdir_loop_complete (agent : agent_ref) (ents : list string) :
  forall (l head : list web100_connection) (s : state),
    catalog_of WEB100_ROOT_DIR (files s) agent (read_entries ents) = Some l ->
    exists tr,
      readdir_loop WEB100_ROOT_DIR junk agent ents head s
      = ((WEB100_ERR_SUCCESS, rev l ++ head), with_trace s (tr ++ trace s)).
Proof.
  induction ents as [| d_name rest IH]; intros l head s Hcat.
  - cbn in Hcat. inversion Hcat; subst. exists [EvClosedir; EvReaddir]. reflexivity.
  - unfold read_entries in Hcat. cbn [filter] in Hcat.
    destruct (skips_entry d_name) eqn:Hskip; cbn [negb] in Hcat.
    + rewrite readdir_loop_skip by exact Hskip.
      destruct (IH l head (with_trace s (EvReaddir :: trace s)) Hcat) as [tr Htr].
      exists (tr ++ [EvReaddir]). rewrite Htr. unfold with_trace. cbn.
      now rewrite <- app_assoc.
    + cbn [catalog_of] in Hcat.
      destruct (entry_spec WEB100_ROOT_DIR (files s) d_name) as [sp |] eqn:Hsp; [| discriminate].
      destruct (catalog_of WEB100_ROOT_DIR (files s) agent (filter (fun n => negb (skips_entry n)) rest))
        as [l' |] eqn:Hrest; [| discriminate].
      inversion Hcat; subst l; clear Hcat.
      destruct (readdir_loop_read agent d_name rest head s sp Hskip Hsp) as [tr1 Hstep].
      rewrite Hstep.
      destruct (IH l' (mk_connection agent (atoi d_name) sp :: head)
                   (with_trace s (tr1 ++ trace s)) Hrest) as [tr2 Htr].
      exists (tr2 ++ tr1). rewrite Htr. unfold with_trace. cbn.
      now rewrite <- !app_assoc.
Qed.

(** The loop on a directory whose entry [bad] is read but has no complete
    spec record, all entries read before it having one. *)
Lemma readdir_loop_incomplete (agent : agent_ref) (before : list string) :
  forall (bad : string) (after : list string) (l head : list web100_connection) (s : state),
    catalog_of WEB100_ROOT_DIR (files s) agent (read_entries before) = Some l ->
    skips_entry bad = false ->
    entry_spec WEB100_ROOT_DIR (files s) bad = None ->
    exists sp tr,
      readdir_loop WEB100_ROOT_DIR junk agent (before ++ bad :: after) head s
      = ((WEB100_ERR_SYS, mk_connection agent (atoi bad) sp :: rev l ++ head),
         with_trace s (tr ++ trace s)).
Proof.
  induction before as [| d_name rest IH]; intros bad after l head s Hcat Hskipb Hbad.
  - cbn in Hcat. inversion Hcat; subst. cbn [app rev].
    now apply readdir_loop_bad.
  - unfold read_entries in Hcat. cbn [filter] in Hcat. rewrite <- app_comm_cons.
    destruct (skips_entry d_name) eqn:Hskip; cbn [negb] in Hcat.
    + rewrite readdir_loop_skip by exact Hskip.
      destruct (IH bad after l head (with_trace s (EvReaddir :: trace s)) Hcat Hskipb Hbad)
        as [sp [tr Htr]].
      exists sp, (tr ++ [EvReaddir]). rewrite Htr. unfold with_trace. cbn.
      now rewrite <- app_assoc.
    + cbn [catalog_of] in Hcat.
      destruct (entry_spec WEB100_ROOT_DIR (files s) d_name) as [sp |] eqn:Hsp; [| discriminate].
      destruct (catalog_of WEB100_ROOT_DIR (files s) agent (filter (fun n => negb (skips_entry n)) rest))
        as [l' |] eqn:Hrest; [| discriminate].
      inversion Hcat; subst l; clear Hcat.
      destruct (readdir_loop_read agent d_name (rest ++ bad :: after) head s sp Hskip Hsp)
        as [tr1 Hstep].
      rewrite Hstep.
      destruct (IH bad after l' (mk_connection agent (atoi d_name) sp :: head)
                   (with_trace s (tr1 ++ trace s)) Hrest Hskipb Hbad) as [sp' [tr2 Htr]].
      exists sp', (tr2 ++ tr1). rewrite Htr. unfold with_trace. cbn.
      now rewrite <- !app_assoc.
Qed.

Lemma free_connections_trace (cp : list web100_connection) :
  forall s : state,
    free_connections cp s
    = (tt, with_trace s (rev (map (fun c => EvFree (conn_cid c)) cp) ++ trace s)).
Proof.
  induction cp as [| c cp2 IH]; intros s.
  - destruct s; reflexivity.
  - cbn [free_connections]. unfold bind, log. rewrite IH. unfold with_trace. cbn.
    now rewrite <- app_assoc.
Qed.


(** Inside the library: when the directory loop reaches an entry
    [bad] that is read but whose spec record is missing or short, every
    entry read before it having a complete one, [refresh_connections]
    returns [WEB100_ERR_SYS].  The previous connections have been freed
    (the trace holds the [free] of each), and the agent is left with the
    list under construction: the connection of [bad], whose spec [sp] was
    not read in full, in front of the connections read before it.  The
    caller of [web100_connection_head] on a local agent gets [NULL] with
    [web100_errno] set to [WEB100_ERR_SYS]. *)
Lemma refresh_connections_incomplete_spec :
  forall (agent : web100_agent) (s : state) (before : list string) (bad : string)
         (after : list string) (l : list web100_connection),
    dirs s WEB100_ROOT_DIR = Some (before ++ bad :: after) ->
    catalog_of WEB100_ROOT_DIR (files s) (agent_self agent) (read_entries before) = Some l ->
    skips_entry bad = false ->
    entry_spec WEB100_ROOT_DIR (files s) bad = None ->
    exists (sp : web100_connection_spec) (tr : list event),
      let agent' :=
        set_connections agent
          (mk_connection (agent_self agent) (atoi bad) sp :: rev l) in
      let tr' :=
        tr ++ rev (map (fun c => EvFree (conn_cid c)) (connection_head agent)) ++ trace s in
      refresh_connections WEB100_ROOT_DIR junk agent s
      = ((WEB100_ERR_SYS, agent'), with_trace s tr')
      /\ (is_local (agent_type (agent_self agent)) = true ->
          web100_connection_head WEB100_ROOT_DIR junk agent s
          = (([], agent'), mk_state WEB100_ERR_SYS (files s) (dirs s) tr')).
Proof.
  intros agent s before bad after l Hdir Hcat Hskip Hbad.
  assert (Hrun : exists sp tr,
             refresh_connections WEB100_ROOT_DIR junk agent s
             = ((WEB100_ERR_SYS,
                 set_connections agent
                   (mk_connection (agent_self agent) (atoi bad) sp :: rev l)),
                with_trace s
                  (tr ++ rev (map (fun c => EvFree (conn_cid c)) (connection_head agent))
                   ++ trace s))).
  { unfold refresh_connections, bind. rewrite free_connections_trace.
    unfold log at 1. cbn [dirs with_trace]. rewrite Hdir.
    match goal with
    | |- context [readdir_loop _ _ _ _ _ ?s0] =>
        destruct (readdir_loop_incomplete (agent_self agent) before bad after l [] s0
                    Hcat Hskip Hbad) as [sp [tr Htr]]
    end.
    exists sp, (tr ++ [EvOpendir WEB100_ROOT_DIR]).
    rewrite Htr. cbn [fst snd ret]. rewrite app_nil_r.
    unfold with_trace. cbn [web100_errno files dirs trace].
    now rewrite <- !app_assoc. }
  destruct Hrun as [sp [tr Hrun]]. exists sp, tr. cbn zeta. split; [exact Hrun |].
  intros Hlocal. unfold web100_connection_head. rewrite Hlocal.
  unfold bind. rewrite Hrun. reflexivity.
Qed.

End CatalogProperties.



Lemma refresh_connections_incomplete_spec_example :
  exists (sp : web100_connection_spec) (tr : list event),
    refresh_connections example_root example_junk_spec example_agent_listed
      example_short_state
    = ((WEB100_ERR_SYS,
        set_connections example_agent_listed
          [ mk_connection example_agent_ref 2 sp;
            mk_connection example_agent_ref 1 example_spec ]),
       mk_state WEB100_ERR_SUCCESS example_files (example_dir ["1"; "2"; "7"])
                (tr ++ [EvFree 9])).
Proof.
  destruct (refresh_connections_incomplete_spec
              example_root example_junk_spec example_agent_listed
              example_short_state
              ["1"] "2" ["7"] [mk_connection example_agent_ref 1 example_spec]
              eq_refl eq_refl eq_refl eq_refl) as [sp [tr [Hrun _]]].
  exists sp, tr. exact Hrun.
Defined.

(** What the agent holds between a failed rebuild and the next one: the
    spec record of "2" is short; the rebuild returns [WEB100_ERR_SYS];
    the connection 9 of the previous listing has been freed; and the
    private list of the agent is the connection 2, of whose spec only the
    destination port was read, in front of the connection 1. *)
Example refresh_connections_failure_private_list :
  fst (refresh_connections example_root example_junk_spec example_agent_listed
         example_short_state)
  = (WEB100_ERR_SYS,
     set_connections example_agent_listed
       [ mk_connection example_agent_ref 2 (mk_spec 80 3735928559 57005 3735928559);
         mk_connection example_agent_ref 1 example_spec ])
  /\ connection_head example_agent_listed = [mk_connection example_agent_ref 9 example_spec]
  /\ In (EvFree 9)
        (trace (snd (refresh_connections example_root example_junk_spec
                       example_agent_listed example_short_state)))
  /\ ~ In EvClosedir
        (trace (snd (refresh_connections example_root example_junk_spec
                       example_agent_listed example_short_state))).
Proof.
  split; [| split; [| split]]; try (vm_compute; reflexivity).
  - vm_compute. tauto.
  - vm_compute. intros H.
    repeat (destruct H as [H | H]; [discriminate H |]). exact H.
Qed.

(* ================================================================== *)
(** * Part III: further properties                                     *)
(* ================================================================== *)

(** ** Schema store: what every parse keeps *)

Section SchemaStoreInvariants.

Variable WEB100_HEADER_FILE : string.
Variable WEB100_TYPE_of_int : Z -> option WEB100_TYPE.
Variable junk_group_head : list web100_group.
Variable junk_connection_head : list web100_connection.

(** The three cases of a round of the parse loop. *)
Lemma attach_loop_cons (agent : agent_ref) (fuel : nat) (c : ascii) (r : string)
  (toks : list string) (st : parse_state) :
  attach_loop WEB100_TYPE_of_int agent (S fuel) (String c r :: toks) st
  = if Ascii.eqb c "/"
    then match push_back r toks with
         | [] => ParseError WEB100_ERR_HEADER (ps_group_head st)
         | name :: toks'' =>
             attach_loop WEB100_TYPE_of_int agent fuel toks''
                         (after_group_line agent st name)
         end
    else match ps_gp st with
         | GpNull => ParseError WEB100_ERR_HEADER (ps_group_head st)
         | _ =>
             match scan_var WEB100_TYPE_of_int (String c r) toks st with
             | (ParseOk st', toks'') =>
                 attach_loop WEB100_TYPE_of_int agent fuel toks'' st'
             | (res, _) => res
             end
         end.
Proof.
  unfold after_group_line.
  destruct c as [[] [] [] [] [] [] [] []]; cbn [attach_loop Ascii.eqb Bool.eqb];
    try reflexivity.
  destruct (push_back r toks) as [| name toks'']; [reflexivity |].
  destruct (streq name "spec"); reflexivity.
Qed.

Lemma scan_int_length (toks : list string) (z : Z) (toks' : list string) :
  scan_int toks = Some (z, toks') -> (List.length toks' <= List.length toks)%nat.
Proof.
  unfold scan_int. destruct toks as [| t rest]; [discriminate |].
  destruct (read_int t) as [[v after] |]; [| discriminate].
  intros H. inversion H; subst. destruct after; cbn; lia.
Qed.

Lemma add_var_consistent (agent : agent_ref) (g : web100_group) (name : string)
  (offset : Z) (type : WEB100_TYPE) :
  group_consistent agent g -> group_consistent agent (add_var g name offset type).
Proof.
  intros [Ha [Hn [Hs Hv]]]. unfold group_consistent, add_var.
  cbn [group_self group_size group_nvars var_head List.length vars_size fold_right var_type].
  fold (vars_size (var_head g)).
  split; [exact Ha |]. split; [lia |]. split; [lia |].
  constructor; [reflexivity | exact Hv].
Qed.

(** One variable record: the groups the parse linked stay well formed,
    the list behind them is not touched, the stream does not grow, and
    an error is a header error. *)
Lemma scan_var_cases (agent : agent_ref) (name : string) (toks : list string)
  (st : parse_state) (parsed : list web100_group) :
  parse_invariant agent junk_group_head st parsed ->
  match scan_var WEB100_TYPE_of_int name toks st with
  | (ParseOk st', toks') =>
      (exists parsed', parse_invariant agent junk_group_head st' parsed')
      /\ (List.length toks' <= List.length toks)%nat
  | (ParseError e _, _) => e = WEB100_ERR_HEADER
  | (ParseAbort, _) => True
  | (ParseFuel, _) => False
  end.
Proof.
  intros [Hhead [Hall [Hnd Hgp]]]. unfold scan_var.
  destruct (scan_int toks) as [[offset toks1] |] eqn:E1; [| reflexivity].
  destruct (scan_int toks1) as [[ty toks2] |] eqn:E2; [| reflexivity].
  destruct (WEB100_TYPE_of_int ty) as [type |] eqn:Ety; [| exact I].
  pose proof (scan_int_length _ _ _ E1) as L1.
  pose proof (scan_int_length _ _ _ E2) as L2.
  destruct (ps_gp st) as [| gd |] eqn:Egp; [reflexivity | |].
  - split; [| lia]. exists parsed.
    split; [exact Hhead |]. split; [| split; [exact Hnd | discriminate]].
    cbn [ps_next].
    eapply Forall_impl; [| exact Hall]. cbn. intros g [H1 [H2 H3]].
    split; [exact H1 |]. split; [exact H2 | lia].
  - destruct parsed as [| g0 parsed0]; [now contradiction (Hgp eq_refl) |].
    rewrite Hhead. cbn [app]. split; [| lia].
    exists (add_var g0 name offset type :: parsed0).
    inversion Hall as [| ? ? [Hname [Hcons Haddr]] Hrest]; subst.
    split; [reflexivity |]. split; [| split; [exact Hnd | discriminate]].
    cbn [ps_next]. constructor.
    + cbn [add_var group_self]. split; [exact Hname |].
      split; [now apply add_var_consistent | lia].
    + eapply Forall_impl; [| exact Hrest]. cbn. intros g' [H1 [H2 H3]].
      split; [exact H1 |]. split; [exact H2 | lia].
Qed.

Lemma after_group_line_invariant (agent : agent_ref) (st : parse_state) (name : string)
  (parsed : list web100_group) :
  parse_invariant agent junk_group_head st parsed ->
  exists parsed',
    parse_invariant agent junk_group_head (after_group_line agent st name) parsed'.
Proof.
  intros [Hhead [Hall [Hnd Hgp]]]. unfold after_group_line, streq.
  assert (Hold : Forall (fun g => group_name (group_self g) <> "spec"
                                  /\ group_consistent agent g
                                  /\ (group_addr (group_self g) < S (ps_next st))%nat)
                        parsed).
  { eapply Forall_impl; [| exact Hall]. cbn. intros g [H1 [H2 H3]].
    split; [exact H1 |]. split; [exact H2 | lia]. }
  destruct (String.eqb_spec name "spec") as [E | NE].
  - exists parsed. split; [exact Hhead |]. split; [exact Hold |].
    split; [exact Hnd | discriminate].
  - exists (mk_group (mk_group_ref (ps_next st) agent name) 0 0 [] :: parsed).
    split; [cbn [ps_group_head app]; now rewrite Hhead |].
    split; [| split; [| discriminate]].
    + constructor; [| exact Hold]. cbn [group_self group_name group_addr ps_next].
      split; [exact NE |]. split; [| lia].
      unfold group_consistent. cbn. repeat split. constructor.
    + cbn [map group_self group_addr]. constructor; [| exact Hnd].
      intros Hin. apply in_map_iff in Hin as [g [Hg Hin]].
      rewrite Forall_forall in Hall. destruct (Hall g Hin) as [_ [_ Hlt]]. lia.
Qed.

(** The parse loop as a whole: it never runs out of fuel, and what it
    leaves is the groups it linked in front of the uninitialised
    list. *)
Lemma attach_loop_cases (agent : agent_ref) (fuel : nat) :
  forall (toks : list string) (st : parse_state) (parsed : list web100_group),
    (List.length toks <= fuel)%nat ->
    parse_invariant agent junk_group_head st parsed ->
    match attach_loop WEB100_TYPE_of_int agent fuel toks st with
    | ParseOk st' => exists parsed', parse_invariant agent junk_group_head st' parsed'
    | ParseError e _ => e = WEB100_ERR_HEADER
    | ParseAbort => True
    | ParseFuel => False
    end.
Proof.
  induction fuel as [| fuel IH]; intros toks st parsed Hlen Hinv.
  - destruct toks; [now exists parsed | cbn in Hlen; lia].
  - destruct toks as [| t toks]; [now exists parsed |]. cbn [List.length] in Hlen.
    destruct t as [| c r].
    + cbn [attach_loop]. apply (IH _ _ parsed); [lia | exact Hinv].
    + rewrite attach_loop_cons. destruct (Ascii.eqb c "/").
      * destruct (push_back r toks) as [| name toks''] eqn:Ep; [reflexivity |].
        destruct (after_group_line_invariant agent st name parsed Hinv) as [parsed' Hinv'].
        apply (IH _ _ parsed'); [| exact Hinv'].
        assert (List.length (push_back r toks) <= S (List.length toks))%nat
          by (destruct r; cbn; lia).
        rewrite Ep in H. cbn in H. lia.
      * destruct (ps_gp st) eqn:Egp; [reflexivity | |];
          pose proof (scan_var_cases agent (String c r) toks st parsed Hinv) as Hsv;
          destruct (scan_var WEB100_TYPE_of_int (String c r) toks st)
            as [[st' | e gs | |] toks''];
          try exact Hsv;
          (destruct Hsv as [[parsed' Hinv'] Hl]; apply (IH _ _ parsed'); [lia | exact Hinv']).
Qed.


(** X2: in every agent [_web100_agent_attach_local] returns, whatever
    the header file held and whatever the memory of the fresh agent
    held.  The agent is of the local kind.  Its group list is the groups
    the parse linked, in front of the list the uninitialised head
    denoted; its connection list is the one the uninitialised head
    denoted.  None of the groups the parse linked is named "spec"; each
    belongs to the agent, counts its variables, has as size the sum of
    their wire-type sizes and is what each of its variables points back
    to; no two of them have the same address.  So looking up "spec"
    finds only what the uninitialised list holds under that name, and
    nothing where the memory was zero.  The header file has been opened
    and closed once. *)
Theorem attach_local_well_formed :
  forall (header : option header_stream) (next : ptr) (s s' : state)
         (agent : web100_agent),
    _web100_agent_attach_local WEB100_HEADER_FILE WEB100_TYPE_of_int
      junk_group_head junk_connection_head header next s
    = (Returns (Some agent), s') ->
    agent_self agent = mk_agent_ref next WEB100_AGENT_TYPE_LOCAL
    /\ connection_head agent = junk_connection_head
    /\ (exists parsed : list web100_group,
           group_head agent = parsed ++ junk_group_head
           /\ Forall (fun g => group_name (group_self g) <> "spec"
                               /\ group_consistent (agent_self agent) g)
                     parsed
           /\ NoDup (map (fun g => group_addr (group_self g)) parsed))
    /\ fst (web100_group_find agent "spec" s')
       = group_find_loop junk_group_head "spec"
    /\ (junk_group_head = [] -> fst (web100_group_find agent "spec" s') = [])
    /\ s' = mk_state WEB100_ERR_SUCCESS (files s) (dirs s)
                     (EvFclose WEB100_HEADER_FILE :: EvFopen WEB100_HEADER_FILE "r"
                      :: trace s).
Proof.
  intros header next s s' agent H.
  assert (Hnull : forall (m : M unit) (s0 : state),
             fst (let (_, s1) := m s0 in
                  (Returns (@None web100_agent), s1)) <> Returns (Some agent)).
  { intros m s0. destruct (m s0). discriminate. }
  unfold _web100_agent_attach_local in H.
  cbv beta iota delta [bind log set_errno ret fclose] in H.
  cbn [web100_errno files dirs trace f_path] in H.
  destruct header as [h |];
    [| apply (f_equal fst) in H; now apply Hnull in H].
  destruct (first_line h) as [| c r] eqn:El;
    [apply (f_equal fst) in H; now apply Hnull in H |].
  pose proof (attach_loop_cases (mk_agent_ref next WEB100_AGENT_TYPE_LOCAL)
                (List.length (tokens h)) (tokens h)
                (mk_parse_state (S next) junk_group_head GpNull) [] (Nat.le_refl _))
    as Hcases.
  destruct (attach_loop WEB100_TYPE_of_int (mk_agent_ref next WEB100_AGENT_TYPE_LOCAL)
              (List.length (tokens h)) (tokens h)
              (mk_parse_state (S next) junk_group_head GpNull))
    as [st' | e gs | |];
    [| apply (f_equal fst) in H; now apply Hnull in H | discriminate H | discriminate H].
  inversion H; subst agent s'. clear H Hnull.
  destruct Hcases as [parsed [Hhead [Hall [Hnd _]]]].
  { split; [reflexivity |]. split; [constructor |]. split; [constructor | discriminate]. }
  cbn [agent_self connection_head group_head].
  split; [reflexivity |]. split; [reflexivity |].
  assert (Hgroups : Forall (fun g => group_name (group_self g) <> "spec"
                                     /\ group_consistent
                                          (mk_agent_ref next WEB100_AGENT_TYPE_LOCAL) g)
                           parsed).
  { eapply Forall_impl; [| exact Hall]. cbn. intros g [H1 [H2 _]]. now split. }
  split; [exists parsed; split; [exact Hhead | split; [exact Hgroups | exact Hnd]] |].
  assert (Hfind : group_find_loop (ps_group_head st') "spec"
                  = group_find_loop junk_group_head "spec").
  { rewrite Hhead. clear Hhead Hall Hnd.
    induction Hgroups as [| g gs [Hname _] _ IHg]; [reflexivity |].
    cbn [app group_find_loop]. unfold streq.
    destruct (String.eqb_spec (group_name (group_self g)) "spec") as [E | _];
      [contradiction | exact IHg]. }
  assert (Hrun : fst (web100_group_find
                        (mk_agent (mk_agent_ref next WEB100_AGENT_TYPE_LOCAL)
                                  (String c r) (ps_group_head st') junk_connection_head)
                        "spec"
                        (mk_state WEB100_ERR_SUCCESS (files s) (dirs s)
                           (EvFclose WEB100_HEADER_FILE
                            :: EvFopen WEB100_HEADER_FILE "r" :: trace s)))
                 = group_find_loop junk_group_head "spec").
  { unfold web100_group_find. cbn [agent_self agent_type is_local group_head].
    cbv [bind set_errno ret]. cbn [fst]. exact Hfind. }
  split; [exact Hrun |]. split; [| reflexivity].
  intros Hzero. rewrite Hrun, Hzero. reflexivity.
Qed.

End SchemaStoreInvariants.

Lemma attach_local_well_formed_witness :
  exists (agent : web100_agent) (s' : state),
    _web100_agent_attach_local example_header_file example_numbering
      example_stale_groups [] (Some example_header) 100%nat example_state
    = (Returns (Some agent), s')
    /\ agent_self agent = mk_agent_ref 100%nat WEB100_AGENT_TYPE_LOCAL
    /\ connection_head agent = []
    /\ (exists parsed : list web100_group,
           group_head agent = parsed ++ example_stale_groups
           /\ Forall (fun g => group_name (group_self g) <> "spec"
                               /\ group_consistent (agent_self agent) g)
                     parsed
           /\ NoDup (map (fun g => group_addr (group_self g)) parsed))
    /\ fst (web100_group_find agent "spec" s')
       = group_find_loop example_stale_groups "spec"
    /\ (example_stale_groups = [] -> fst (web100_group_find agent "spec" s') = [])
    /\ s' = mk_state WEB100_ERR_SUCCESS (files example_state) (dirs example_state)
                     (EvFclose example_header_file :: EvFopen example_header_file "r"
                      :: trace example_state).
Proof.
  eexists. eexists. split; [vm_compute; reflexivity |].
  apply (attach_local_well_formed example_header_file example_numbering
           example_stale_groups [] (Some example_header) 100%nat example_state).
  vm_compute. reflexivity.
Defined.


(** ** Lookup over all groups *)

Lemma var_find_loop_has_var (name : string) (g : web100_group) :
  (has_var name g = false -> var_find_loop (var_head g) name = [])
  /\ (has_var name g = true ->
      exists v rest, var_find_loop (var_head g) name = v :: rest).
Proof.
  unfold has_var. induction (var_head g) as [| v vs IH]; cbn [existsb var_find_loop].
  - split; [reflexivity | discriminate].
  - unfold streq. destruct (String.eqb (var_name v) name); cbn [orb].
    + split; [discriminate |]. intros _. now exists v, vs.
    + exact IH.
Qed.

Lemma find_var_and_group_loop_first (name : string) (groups : list web100_group) :
  forall s : state,
    Forall (fun g => is_local (agent_type (group_agent (group_self g))) = true) groups ->
    exists r,
      first_such (has_var name) groups r
      /\ match r with
         | g :: _ =>
             exists v rest,
               var_find_loop (var_head g) name = v :: rest
               /\ find_var_and_group_loop groups name s
                  = ((WEB100_ERR_SUCCESS, Some (g, v)),
                     mk_state WEB100_ERR_SUCCESS (files s) (dirs s) (trace s))
         | [] =>
             find_var_and_group_loop groups name s
             = ((WEB100_ERR_NOVAR, None),
                mk_state WEB100_ERR_NOVAR (files s) (dirs s) (trace s))
         end.
Proof.
  induction groups as [| g gs IH]; intros s Hloc.
  - exists []. split; [exists []; repeat split; constructor | reflexivity].
  - inversion Hloc as [| ? ? Hg Hgs]; subst.
    destruct (var_find_loop_has_var name g) as [Hno Hyes].
    destruct (has_var name g) eqn:Hh.
    + destruct (Hyes eq_refl) as [v [rest Hv]].
      exists (g :: gs). split.
      * exists []. split; [reflexivity |]. split; [constructor | exact Hh].
      * exists v, rest. split; [exact Hv |].
        cbn [find_var_and_group_loop]. unfold web100_var_find, bind. rewrite Hg.
        cbv [set_errno ret]. now rewrite Hv.
    + destruct (IH (mk_state WEB100_ERR_SUCCESS (files s) (dirs s) (trace s)) Hgs)
        as [r [[before [Happ [Hbefore Hhead]]] Hrun]].
      exists r. split.
      * exists (g :: before). split; [cbn; now rewrite <- Happ |].
        split; [now constructor | exact Hhead].
      * assert (Hstep : find_var_and_group_loop (g :: gs) name s
                        = find_var_and_group_loop gs name
                            (mk_state WEB100_ERR_SUCCESS (files s) (dirs s) (trace s))).
        { cbn [find_var_and_group_loop]. unfold web100_var_find, bind. rewrite Hg.
          cbv [set_errno ret]. rewrite (Hno eq_refl). reflexivity. }
        rewrite Hstep. exact Hrun.
Qed.

(** X3: on a local agent, [web100_agent_find_var_and_group] returns
    [WEB100_ERR_SUCCESS] with the first group of the agent's list that
    has a variable of the name asked for (no group before it has one) and
    the first variable of that name in it, [web100_errno] being
    [WEB100_ERR_SUCCESS]; when no group has such a variable it returns
    [WEB100_ERR_NOVAR], sets [web100_errno] to it and names no group. *)
Theorem web100_agent_find_var_and_group_first :
  forall (agent : web100_agent) (name : string) (s : state),
    is_local (agent_type (agent_self agent)) = true ->
    Forall (fun g => is_local (agent_type (group_agent (group_self g))) = true)
           (group_head agent) ->
    exists r,
      first_such (has_var name) (group_head agent) r
      /\ match r with
         | g :: _ =>
             exists v rest,
               first_named var_name name (var_head g) (v :: rest)
               /\ web100_agent_find_var_and_group agent name s
                  = ((WEB100_ERR_SUCCESS, Some (g, v)),
                     mk_state WEB100_ERR_SUCCESS (files s) (dirs s) (trace s))
         | [] =>
             web100_agent_find_var_and_group agent name s
             = ((WEB100_ERR_NOVAR, None),
                mk_state WEB100_ERR_NOVAR (files s) (dirs s) (trace s))
         end.
Proof.
  intros agent name s Hlocal Hgroups.
  destruct (find_var_and_group_loop_first name (group_head agent)
              (mk_state WEB100_ERR_SUCCESS (files s) (dirs s) (trace s)) Hgroups)
    as [r [Hfirst Hrun]].
  exists r. split; [exact Hfirst |].
  assert (Hstart : web100_agent_find_var_and_group agent name s
                   = find_var_and_group_loop (group_head agent) name
                       (mk_state WEB100_ERR_SUCCESS (files s) (dirs s) (trace s))).
  { unfold web100_agent_find_var_and_group, web100_group_head, bind.
    rewrite Hlocal. reflexivity. }
  destruct r as [| g rest_groups].
  - rewrite Hstart. exact Hrun.
  - destruct Hrun as [v [rest [Hv Hrun]]]. exists v, rest. split.
    + rewrite <- Hv. apply var_find_loop_first.
    + rewrite Hstart. exact Hrun.
Qed.

Lemma web100_agent_find_var_and_group_first_witness :
  exists r,
    first_such (has_var "LocalPort") (group_head example_agent) r
    /\ match r with
       | g :: _ =>
           exists v rest,
             first_named var_name "LocalPort" (var_head g) (v :: rest)
             /\ web100_agent_find_var_and_group example_agent "LocalPort" example_state
                = ((WEB100_ERR_SUCCESS, Some (g, v)),
                   mk_state WEB100_ERR_SUCCESS (files example_state)
                            (dirs example_state) (trace example_state))
       | [] =>
           web100_agent_find_var_and_group example_agent "LocalPort" example_state
           = ((WEB100_ERR_NOVAR, None),
              mk_state WEB100_ERR_NOVAR (files example_state) (dirs example_state)
                       (trace example_state))
       end.
Proof.
  apply web100_agent_find_var_and_group_first; [reflexivity |].
  repeat constructor.
Defined.

(** ** Connection catalog: listing and lookup *)

Lemma connection_lookup_loop_first (cid : Z) (cp : list web100_connection) :
  first_such (fun c => conn_cid c =? cid) cp (connection_lookup_loop cp cid).
Proof.
  induction cp as [| c next IH]; cbn [connection_lookup_loop].
  - exists []. repeat split; constructor.
  - destruct (conn_cid c =? cid) eqn:E.
    + exists []. split; [reflexivity |]. split; [constructor | exact E].
    + destruct IH as [before [Happ [Hall Hhd]]].
      exists (c :: before). split; [cbn; now rewrite <- Happ |].
      split; [now constructor | exact Hhd].
Qed.

Lemma connection_find_loop_first (spec : web100_connection_spec)
  (cp : list web100_connection) :
  first_such (same_spec spec) cp (connection_find_loop cp spec).
Proof.
  induction cp as [| c next IH]; cbn [connection_find_loop].
  - exists []. repeat split; constructor.
  - fold (same_spec spec c). destruct (same_spec spec c) eqn:E.
    + exists []. split; [reflexivity |]. split; [constructor | exact E].
    + destruct IH as [before [Happ [Hall Hhd]]].
      exists (c :: before). split; [cbn; now rewrite <- Happ |].
      split; [now constructor | exact Hhd].
Qed.

Lemma first_such_none {A : Type} (p : A -> bool) (l : list A) :
  first_such p l [] <-> Forall (fun x => p x = false) l.
Proof.
  split.
  - intros [before [Happ [Hall _]]]. rewrite app_nil_r in Happ. now subst.
  - intros Hall. exists l. rewrite app_nil_r. repeat split; assumption.
Qed.

Lemma first_such_unique {A : Type} (p : A -> bool) (l r1 r2 : list A) :
  first_such p l r1 -> first_such p l r2 -> r1 = r2.
Proof.
  intros [b1 [E1 [A1 H1]]]. revert l b1 E1 A1.
  induction l as [| x l IH]; intros b1 E1 A1 [b2 [E2 [A2 H2]]].
  - destruct b1, b2; cbn in *; try discriminate. congruence.
  - destruct b1 as [| y b1], b2 as [| z b2]; cbn in E1, E2.
    + congruence.
    + subst r1. inversion E2; subst. inversion A2; subst. cbn in H1. congruence.
    + subst r2. inversion E1; subst. inversion A1; subst. cbn in H2. congruence.
    + inversion E1; inversion E2; subst. inversion A1; inversion A2; subst.
      apply (IH b1 eq_refl); [assumption |]. exists b2. repeat split; assumption.
Qed.

Section CatalogLookupProperties.

Variable WEB100_ROOT_DIR : string.
Variable junk : nat -> web100_connection_spec.

Lemma catalog_of_cids (fs : string -> option (list byte)) (agent : agent_ref)
  (names : list string) :
  forall l, catalog_of WEB100_ROOT_DIR fs agent names = Some l ->
            map conn_cid l = map atoi names
            /\ Forall (fun c => conn_agent c = agent) l.
Proof.
  induction names as [| n ns IH]; intros l H; cbn [catalog_of] in H.
  - inversion H. split; [reflexivity | constructor].
  - destruct (entry_spec WEB100_ROOT_DIR fs n); [| discriminate].
    destruct (catalog_of WEB100_ROOT_DIR fs agent ns) as [l' |]; [| discriminate].
    inversion H; subst. destruct (IH l' eq_refl) as [Hc Ha].
    split; [cbn; now f_equal | now constructor].
Qed.

(** The rebuild on a directory all of whose entries that are read have a
    complete spec record. *)
Lemma refresh_connections_complete (agent : web100_agent) (s : state)
  (ents : list string) (l : list web100_connection) :
  dirs s WEB100_ROOT_DIR = Some ents ->
  catalog_of WEB100_ROOT_DIR (files s) (agent_self agent) (read_entries ents) = Some l ->
  exists tr,
    refresh_connections WEB100_ROOT_DIR junk agent s
    = ((WEB100_ERR_SUCCESS, set_connections agent (rev l)), with_trace s (tr ++ trace s)).
Proof.
  intros Hdir Hcat.
  unfold refresh_connections, bind. rewrite free_connections_trace.
  unfold log at 1. cbn [dirs with_trace]. rewrite Hdir.
  match goal with
  | |- context [readdir_loop _ _ _ _ _ ?s0] =>
      destruct (readdir_loop_complete WEB100_ROOT_DIR junk (agent_self agent) ents l [] s0 Hcat)
        as [tr Htr]
  end.
  exists (tr ++ EvOpendir WEB100_ROOT_DIR
             :: rev (map (fun c => EvFree (conn_cid c)) (connection_head agent))).
  rewrite Htr. cbn [fst snd ret]. rewrite app_nil_r.
  unfold with_trace. cbn [web100_errno files dirs trace].
  rewrite <- !app_assoc. reflexivity.
Qed.

Lemma web100_connection_head_complete (agent : web100_agent) (s : state)
  (ents : list string) (l : list web100_connection) :
  is_local (agent_type (agent_self agent)) = true ->
  dirs s WEB100_ROOT_DIR = Some ents ->
  catalog_of WEB100_ROOT_DIR (files s) (agent_self agent) (read_entries ents) = Some l ->
  exists tr,
    web100_connection_head WEB100_ROOT_DIR junk agent s
    = ((rev l, set_connections agent (rev l)),
       mk_state WEB100_ERR_SUCCESS (files s) (dirs s) (tr ++ trace s)).
Proof.
  intros Hlocal Hdir Hcat.
  destruct (refresh_connections_complete agent s ents l Hdir Hcat) as [tr Hrun].
  exists tr. unfold web100_connection_head, bind. rewrite Hlocal, Hrun. reflexivity.
Qed.

(** C7: when, during a rebuild of the connection list, the spec record
    of an entry that is read is missing or short, every listing
    operation ([web100_connection_head], [web100_connection_find],
    [web100_connection_lookup]) fails as a whole: it returns [NULL] and
    sets [web100_errno] to [WEB100_ERR_SYS], whatever entries come after
    the bad one, and no file is changed.  The connections of the
    previous list have each been released, as at the start of every
    rebuild.  The caller is handed no list, and the
    list under construction that the agent keeps privately never reaches
    a caller: the next listing starts from nothing and, on a directory
    that is complete, returns exactly the connections of that
    directory. *)
Theorem catalog_rebuild_failure_shows_no_list :
  forall (agent : web100_agent) (s : state) (before : list string) (bad : string)
         (after : list string) (l : list web100_connection),
    is_local (agent_type (agent_self agent)) = true ->
    dirs s WEB100_ROOT_DIR = Some (before ++ bad :: after) ->
    catalog_of WEB100_ROOT_DIR (files s) (agent_self agent) (read_entries before) = Some l ->
    skips_entry bad = false ->
    entry_spec WEB100_ROOT_DIR (files s) bad = None ->
    exists (agent' : web100_agent) (tr : list event),
      web100_connection_head WEB100_ROOT_DIR junk agent s
      = (([], agent'),
         mk_state WEB100_ERR_SYS (files s) (dirs s)
           (tr ++ rev (map (fun c => EvFree (conn_cid c)) (connection_head agent))
            ++ trace s))
      /\ (forall spec : web100_connection_spec,
             web100_connection_find WEB100_ROOT_DIR junk agent spec s
             = (([], agent'),
                mk_state WEB100_ERR_SYS (files s) (dirs s)
                  (tr ++ rev (map (fun c => EvFree (conn_cid c)) (connection_head agent))
                   ++ trace s)))
      /\ (forall cid : Z,
             web100_connection_lookup WEB100_ROOT_DIR junk agent cid s
             = (([], agent'),
                mk_state WEB100_ERR_SYS (files s) (dirs s)
                  (tr ++ rev (map (fun c => EvFree (conn_cid c)) (connection_head agent))
                   ++ trace s)))
      /\ (forall (s2 : state) (ents2 : list string) (l2 : list web100_connection),
             dirs s2 WEB100_ROOT_DIR = Some ents2 ->
             catalog_of WEB100_ROOT_DIR (files s2) (agent_self agent) (read_entries ents2)
             = Some l2 ->
             fst (web100_connection_head WEB100_ROOT_DIR junk agent' s2)
             = (rev l2, set_connections agent (rev l2))).
Proof.
  intros agent s before bad after l Hlocal Hdir Hcat Hskip Hbad.
  destruct (refresh_connections_incomplete_spec WEB100_ROOT_DIR junk agent s
              before bad after l Hdir Hcat Hskip Hbad) as [sp [tr [Hrun Hhead]]].
  cbn zeta in Hrun, Hhead.
  exists (set_connections agent
            (mk_connection (agent_self agent) (atoi bad) sp :: rev l)), tr.
  split; [exact (Hhead Hlocal) |].
  split; [| split].
  - intros spec. unfold web100_connection_find, bind. rewrite Hlocal, Hrun. reflexivity.
  - intros cid. unfold web100_connection_lookup, bind. rewrite Hlocal, Hrun. reflexivity.
  - intros s2 ents2 l2 Hdir2 Hcat2.
    destruct (web100_connection_head_complete
                (set_connections agent
                   (mk_connection (agent_self agent) (atoi bad) sp :: rev l))
                s2 ents2 l2 Hlocal Hdir2 Hcat2) as [tr2 H2].
    rewrite H2. reflexivity.
Qed.


(** X5: when the instrumentation root cannot be opened,
    [refresh_connections] returns [WEB100_ERR_SYS] after it has freed
    every connection of the previous list, and leaves the agent with an
    empty list; [web100_connection_head] on a local agent then returns
    [NULL] with [web100_errno] set to [WEB100_ERR_SYS]. *)
Theorem refresh_connections_no_directory :
  forall (agent : web100_agent) (s : state),
    dirs s WEB100_ROOT_DIR = None ->
    refresh_connections WEB100_ROOT_DIR junk agent s
    = ((WEB100_ERR_SYS, set_connections agent []),
       with_trace s
         (EvStderr "refresh_connections: opendir" :: EvOpendir WEB100_ROOT_DIR
          :: rev (map (fun c => EvFree (conn_cid c)) (connection_head agent))
          ++ trace s))
    /\ (is_local (agent_type (agent_self agent)) = true ->
        web100_connection_head WEB100_ROOT_DIR junk agent s
        = (([], set_connections agent []),
           mk_state WEB100_ERR_SYS (files s) (dirs s)
             (EvStderr "refresh_connections: opendir" :: EvOpendir WEB100_ROOT_DIR
              :: rev (map (fun c => EvFree (conn_cid c)) (connection_head agent))
              ++ trace s))).
Proof.
  intros agent s Hdir.
  set (tr := EvStderr "refresh_connections: opendir" :: EvOpendir WEB100_ROOT_DIR
             :: rev (map (fun c => EvFree (conn_cid c)) (connection_head agent))
             ++ trace s).
  assert (Hrun : refresh_connections WEB100_ROOT_DIR junk agent s
                 = ((WEB100_ERR_SYS, set_connections agent []), with_trace s tr)).
  { unfold refresh_connections, bind. rewrite free_connections_trace.
    unfold log at 1. cbn [dirs with_trace]. rewrite Hdir. reflexivity. }
  split; [exact Hrun |].
  intros Hlocal. unfold web100_connection_head, bind. rewrite Hlocal, Hrun. reflexivity.
Qed.

(** X6: on a local agent and a directory whose entries that are read all
    have a complete spec record, [web100_connection_lookup] rebuilds the
    list and returns the first connection of the new list with the
    connection id asked for, [web100_errno] being
    [WEB100_ERR_SUCCESS]; it returns [NULL] exactly when no entry that is
    read has that number as [atoi] of its name. *)
Theorem web100_connection_lookup_first :
  forall (agent : web100_agent) (cid : Z) (s : state) (ents : list string)
         (l : list web100_connection),
    is_local (agent_type (agent_self agent)) = true ->
    dirs s WEB100_ROOT_DIR = Some ents ->
    catalog_of WEB100_ROOT_DIR (files s) (agent_self agent) (read_entries ents) = Some l ->
    exists r tr,
      web100_connection_lookup WEB100_ROOT_DIR junk agent cid s
      = ((r, set_connections agent (rev l)),
         mk_state WEB100_ERR_SUCCESS (files s) (dirs s) (tr ++ trace s))
      /\ first_such (fun c => conn_cid c =? cid) (rev l) r
      /\ (r = [] <-> ~ In cid (map atoi (read_entries ents))).
Proof.
  intros agent cid s ents l Hlocal Hdir Hcat.
  destruct (refresh_connections_complete agent s ents l Hdir Hcat) as [tr Hrun].
  exists (connection_lookup_loop (rev l) cid), tr.
  split; [| split].
  - unfold web100_connection_lookup, bind. rewrite Hlocal, Hrun. reflexivity.
  - apply connection_lookup_loop_first.
  - destruct (catalog_of_cids _ _ _ _ Hcat) as [Hcids _]. rewrite <- Hcids.
    pose proof (connection_lookup_loop_first cid (rev l)) as Hfirst.
    split.
    + intros Hnil. rewrite Hnil in Hfirst. apply first_such_none in Hfirst.
      intros Hin. apply in_map_iff in Hin as [c [Hc Hin]].
      rewrite Forall_forall in Hfirst. specialize (Hfirst c).
      rewrite <- in_rev in Hfirst. specialize (Hfirst Hin). cbn in Hfirst. lia.
    + intros Hnot. apply (first_such_unique _ _ _ _ Hfirst). apply first_such_none.
      apply Forall_forall. intros c Hin. apply Z.eqb_neq. intros E. apply Hnot.
      apply in_map_iff. exists c. split; [exact E | now apply in_rev].
Qed.

(** X7: under the same conditions [web100_connection_find] returns the
    first connection of the rebuilt list whose four spec fields equal
    those asked for, and [NULL] exactly when the list has none. *)
Theorem web100_connection_find_first :
  forall (agent : web100_agent) (spec : web100_connection_spec) (s : state)
         (ents : list string) (l : list web100_connection),
    is_local (agent_type (agent_self agent)) = true ->
    dirs s WEB100_ROOT_DIR = Some ents ->
    catalog_of WEB100_ROOT_DIR (files s) (agent_self agent) (read_entries ents) = Some l ->
    exists r tr,
      web100_connection_find WEB100_ROOT_DIR junk agent spec s
      = ((r, set_connections agent (rev l)),
         mk_state WEB100_ERR_SUCCESS (files s) (dirs s) (tr ++ trace s))
      /\ first_such (same_spec spec) (rev l) r
      /\ (r = [] <-> ~ In spec (map conn_spec l))
      /\ match r with
         | c :: _ => conn_spec c = spec
         | [] => True
         end.
Proof.
  intros agent spec s ents l Hlocal Hdir Hcat.
  destruct (refresh_connections_complete agent s ents l Hdir Hcat) as [tr Hrun].
  assert (Hsame : forall c, same_spec spec c = true <-> conn_spec c = spec).
  { intros c. unfold same_spec. rewrite !andb_true_iff, !Z.eqb_eq.
    destruct (conn_spec c) as [a b d e], spec as [a' b' d' e']. cbn. split.
    - intros [[[-> ->] ->] ->]. reflexivity.
    - intros H. inversion H. repeat split. }
  exists (connection_find_loop (rev l) spec), tr.
  pose proof (connection_find_loop_first spec (rev l)) as Hfirst.
  split; [| split; [exact Hfirst | split]].
  - unfold web100_connection_find, bind. rewrite Hlocal, Hrun. reflexivity.
  - split.
    + intros Hnil. rewrite Hnil in Hfirst. apply first_such_none in Hfirst.
      intros Hin. apply in_map_iff in Hin as [c [Hc Hin]].
      rewrite Forall_forall in Hfirst. specialize (Hfirst c).
      rewrite <- in_rev in Hfirst. specialize (Hfirst Hin).
      apply Hsame in Hc. congruence.
    + intros Hnot. apply (first_such_unique _ _ _ _ Hfirst). apply first_such_none.
      apply Forall_forall. intros c Hin.
      destruct (same_spec spec c) eqn:E; [| reflexivity].
      exfalso. apply Hnot. apply in_map_iff. exists c.
      split; [now apply Hsame | now apply in_rev].
  - destruct Hfirst as [before [_ [_ Hhd]]].
    destruct (connection_find_loop (rev l) spec) as [| c rest]; [exact I |].
    now apply Hsame.
Qed.

End CatalogLookupProperties.


Lemma catalog_rebuild_failure_shows_no_list_witness :
  exists (agent' : web100_agent) (tr : list event),
    web100_connection_head example_root example_junk_spec example_agent_listed
      example_short_state
    = (([], agent'),
       mk_state WEB100_ERR_SYS (files example_short_state) (dirs example_short_state)
                (tr ++ [EvFree 9]))
    /\ (forall spec : web100_connection_spec,
           fst (fst (web100_connection_find example_root example_junk_spec
                       example_agent_listed spec example_short_state)) = [])
    /\ (forall cid : Z,
           fst (fst (web100_connection_lookup example_root example_junk_spec
                       example_agent_listed cid example_short_state)) = [])
    /\ fst (web100_connection_head example_root example_junk_spec agent'
              example_first_listing)
       = (rev [ mk_connection example_agent_ref 7 example_spec;
                mk_connection example_agent_ref 1 example_spec ],
          set_connections example_agent_listed
            (rev [ mk_connection example_agent_ref 7 example_spec;
                   mk_connection example_agent_ref 1 example_spec ])).
Proof.
  destruct (catalog_rebuild_failure_shows_no_list example_root example_junk_spec
              example_agent_listed example_short_state
              ["1"] "2" ["7"] [mk_connection example_agent_ref 1 example_spec]
              eq_refl eq_refl eq_refl eq_refl eq_refl)
    as [agent' [tr [Hhead [Hfind [Hlookup Hnext]]]]].
  exists agent', tr. split; [exact Hhead |].
  split; [intros spec; now rewrite Hfind |].
  split; [intros cid; now rewrite Hlookup |].
  exact (Hnext example_first_listing ["."; ".."; "7"; "1"]
               [ mk_connection example_agent_ref 7 example_spec;
                 mk_connection example_agent_ref 1 example_spec ]
               eq_refl eq_refl).
Defined.


Lemma refresh_connections_no_directory_witness :
  refresh_connections example_root example_junk_spec example_agent_listed example_state
  = ((WEB100_ERR_SYS, set_connections example_agent_listed []),
     with_trace example_state
       [ EvStderr "refresh_connections: opendir"; EvOpendir example_root; EvFree 9 ])
  /\ web100_connection_head example_root example_junk_spec example_agent_listed
       example_state
     = (([], set_connections example_agent_listed []),
        mk_state WEB100_ERR_SYS (files example_state) (dirs example_state)
          [ EvStderr "refresh_connections: opendir"; EvOpendir example_root; EvFree 9 ]).
Proof.
  destruct (refresh_connections_no_directory example_root example_junk_spec
              example_agent_listed example_state eq_refl) as [Hrefresh Hhead].
  split; [exact Hrefresh | exact (Hhead eq_refl)].
Defined.

Lemma web100_connection_lookup_first_witness :
  exists r tr,
    web100_connection_lookup example_root example_junk_spec example_agent_listed 1
      example_first_listing
    = ((r, set_connections example_agent_listed
             (rev [ mk_connection example_agent_ref 7 example_spec;
                    mk_connection example_agent_ref 1 example_spec ])),
       mk_state WEB100_ERR_SUCCESS (files example_first_listing)
                (dirs example_first_listing) (tr ++ trace example_first_listing))
    /\ first_such (fun c => conn_cid c =? 1)
         (rev [ mk_connection example_agent_ref 7 example_spec;
                mk_connection example_agent_ref 1 example_spec ]) r
    /\ (r = [] <-> ~ In 1 (map atoi (read_entries ["."; ".."; "7"; "1"]))).
Proof.
  apply (web100_connection_lookup_first example_root example_junk_spec
           example_agent_listed 1 example_first_listing ["."; ".."; "7"; "1"]);
    reflexivity.
Defined.

Lemma web100_connection_find_first_witness :
  exists r tr,
    web100_connection_find example_root example_junk_spec example_agent_listed
      example_spec example_first_listing
    = ((r, set_connections example_agent_listed
             (rev [ mk_connection example_agent_ref 7 example_spec;
                    mk_connection example_agent_ref 1 example_spec ])),
       mk_state WEB100_ERR_SUCCESS (files example_first_listing)
                (dirs example_first_listing) (tr ++ trace example_first_listing))
    /\ first_such (same_spec example_spec)
         (rev [ mk_connection example_agent_ref 7 example_spec;
                mk_connection example_agent_ref 1 example_spec ]) r
    /\ (r = [] <-> ~ In example_spec
                        (map conn_spec [ mk_connection example_agent_ref 7 example_spec;
                                         mk_connection example_agent_ref 1 example_spec ]))
    /\ match r with
       | c :: _ => conn_spec c = example_spec
       | [] => True
       end.
Proof.
  apply (web100_connection_find_first example_root example_junk_spec
           example_agent_listed example_spec example_first_listing
           ["."; ".."; "7"; "1"]);
    reflexivity.
Defined.

(** ** Streams opened and closed by a rebuild *)

Lemma count_events_app (p : event -> bool) (a b : list event) :
  count_events p (a ++ b) = (count_events p a + count_events p b)%nat.
Proof. unfold count_events. now rewrite filter_app, length_app. Qed.

Lemma fread_state (size : Z) (fp : FILE) (s : state) :
  snd (fread size fp s) = with_trace s (EvFread (f_path fp) size :: trace s)
  /\ f_path (snd (fst (fread size fp s))) = f_path fp.
Proof.
  unfold fread, log, with_trace. cbn.
  destruct (files s (f_path fp)) as [data |]; [| split; reflexivity].
  destruct (bytes_at data (f_pos fp) size); [| split; reflexivity].
  destruct (size =? 0); split; reflexivity.
Qed.

(** [read_spec] only reads. *)
Lemma read_spec_trace (fp : FILE) (sp : web100_connection_spec) (s : state) :
  exists b sp' trf,
    read_spec fp sp s = ((b, sp'), with_trace s (trf ++ trace s))
    /\ forall p : event -> bool,
         (forall path n, p (EvFread path n) = false) -> count_events p trf = 0%nat.
Proof.
  unfold read_spec.
  cbv beta delta [bind].
  destruct (fread_state 2 fp s) as [H1 _].
  destruct (fread 2 fp s) as [[[b1 |] fp1] s1]; cbn [fst snd] in H1; subst s1.
  2:{ exists false, sp, [EvFread (f_path fp) 2]. split; [reflexivity |].
      intros p Hp. unfold count_events. cbn. now rewrite Hp. }
  match goal with
  | |- context [fread 4 fp1 ?s0] => destruct (fread_state 4 fp1 s0) as [H2 _];
      destruct (fread 4 fp1 s0) as [[[b2 |] fp2] s2]; cbn [fst snd] in H2; subst s2
  end.
  2:{ eexists false, _, [EvFread (f_path fp1) 4; EvFread (f_path fp) 2].
      split; [reflexivity |].
      intros p Hp. unfold count_events. cbn. now rewrite !Hp. }
  match goal with
  | |- context [fread 2 fp2 ?s0] => destruct (fread_state 2 fp2 s0) as [H3 _];
      destruct (fread 2 fp2 s0) as [[[b3 |] fp3] s3]; cbn [fst snd] in H3; subst s3
  end.
  2:{ eexists false, _, [EvFread (f_path fp2) 2; EvFread (f_path fp1) 4;
                         EvFread (f_path fp) 2].
      split; [reflexivity |].
      intros p Hp. unfold count_events. cbn. now rewrite !Hp. }
  match goal with
  | |- context [fread 4 fp3 ?s0] => destruct (fread_state 4 fp3 s0) as [H4 _];
      destruct (fread 4 fp3 s0) as [[[b4 |] fp4] s4]; cbn [fst snd] in H4; subst s4
  end.
  2:{ eexists false, _, [EvFread (f_path fp3) 4; EvFread (f_path fp2) 2;
                         EvFread (f_path fp1) 4; EvFread (f_path fp) 2].
      split; [reflexivity |].
      intros p Hp. unfold count_events. cbn. now rewrite !Hp. }
  eexists true, _, [EvFread (f_path fp3) 4; EvFread (f_path fp2) 2;
                    EvFread (f_path fp1) 4; EvFread (f_path fp) 2].
  split; [reflexivity |].
  intros p Hp. unfold count_events. cbn. now rewrite !Hp.
Qed.

Section StreamProperties.

Variable WEB100_ROOT_DIR : string.
Variable junk : nat -> web100_connection_spec.

(** What the directory loop leaves open, by the way it ends. *)
Lemma readdir_loop_streams (agent : agent_ref) (ents : list string) :
  forall (head : list web100_connection) (s : state),
    exists rc head' tr,
      readdir_loop WEB100_ROOT_DIR junk agent ents head s
      = ((rc, head'), with_trace s (tr ++ trace s))
      /\ count_events is_opendir tr = 0%nat
      /\ ((rc = WEB100_ERR_SUCCESS
           /\ count_events is_closedir tr = 1%nat
           /\ count_events is_fclose tr = count_events is_fopen tr)
          \/ (rc = WEB100_ERR_SYS
              /\ count_events is_closedir tr = 0%nat
              /\ S (count_events is_fclose tr) = count_events is_fopen tr)).
Proof.
  induction ents as [| d_name rest IH]; intros head s.
  - exists WEB100_ERR_SUCCESS, head, [EvClosedir; EvReaddir].
    split; [reflexivity |]. split; [reflexivity |]. left. repeat split.
  - destruct (skips_entry d_name) eqn:Hskip.
    + rewrite readdir_loop_skip by exact Hskip.
      destruct (IH head (with_trace s (EvReaddir :: trace s)))
        as [rc [head' [tr [Hrun [Hopen Hcases]]]]].
      exists rc, head', (tr ++ [EvReaddir]).
      split; [rewrite Hrun; unfold with_trace; cbn [web100_errno files dirs trace f_path];
                repeat (rewrite <- app_assoc || rewrite <- app_comm_cons); reflexivity |].
      rewrite !count_events_app. cbn. rewrite !Nat.add_0_r.
      split; [exact Hopen | exact Hcases].
    + cbn [readdir_loop]. cbv beta delta [bind]. rewrite Hskip.
      unfold fopen, log. cbn [fst snd files dirs trace web100_errno].
      destruct (files s (WEB100_ROOT_DIR ++ d_name ++ "/spec")%string) as [data |].
      * match goal with
        | |- context [read_spec ?fp ?sp ?s0] =>
            destruct (read_spec_trace fp sp s0) as [b [sp' [trf [Hrd Hquiet]]]];
            rewrite Hrd
        end.
        destruct b.
        -- unfold fclose, log. cbn [fst snd files dirs trace web100_errno with_trace].
           match goal with
           | |- context [readdir_loop _ _ _ _ ?h ?s0] =>
               destruct (IH h s0) as [rc [head' [tr [Hrun [Hopen Hcases]]]]];
               rewrite Hrun
           end.
           exists rc, head',
             (tr ++ EvFclose (WEB100_ROOT_DIR ++ d_name ++ "/spec")%string
                 :: trf ++ [EvFopen (WEB100_ROOT_DIR ++ d_name ++ "/spec")%string "r";
                            EvReaddir]).
           split; [unfold with_trace; cbn [web100_errno files dirs trace f_path];
                   repeat (rewrite <- app_assoc || rewrite <- app_comm_cons); reflexivity |].
           rewrite !count_events_app.
           change (EvFclose ?x :: ?l) with ([EvFclose x] ++ l).
           rewrite !count_events_app.
           rewrite !(Hquiet _ (fun _ _ => eq_refl)). cbn.
           split; [lia |].
           destruct Hcases as [[Hrc [Hc Hf]] | [Hrc [Hc Hf]]]; [left | right];
             (split; [exact Hrc | split; lia]).
        -- exists WEB100_ERR_SYS.
           eexists.
           exists (EvStderr "refresh_connections: bad spec file format"
                   :: EvStderr "fread"
                   :: trf ++ [EvFopen (WEB100_ROOT_DIR ++ d_name ++ "/spec")%string "r";
                              EvReaddir]).
           split; [unfold perror, log, with_trace, bind, ret;
                   cbn [web100_errno files dirs trace f_path fst snd];
                   repeat (rewrite <- app_assoc || rewrite <- app_comm_cons); reflexivity |].
           change (EvStderr ?x :: EvStderr ?y :: ?l) with ([EvStderr x; EvStderr y] ++ l).
           rewrite !count_events_app.
           rewrite !(Hquiet _ (fun _ _ => eq_refl)). cbn.
           split; [reflexivity |]. right. repeat split.
      * exists WEB100_ERR_SYS.
        eexists.
        exists [EvStderr "refresh_connections: fopen";
                EvFopen (WEB100_ROOT_DIR ++ d_name ++ "/spec")%string "r"; EvReaddir].
        split; [reflexivity |]. split; [reflexivity |]. right. repeat split.
Qed.

(** X20: what a rebuild leaves open.  Once the instrumentation root has
    been opened, [refresh_connections] returns [WEB100_ERR_SUCCESS] or
    [WEB100_ERR_SYS].  When it succeeds it has closed the directory
    stream once and called [fclose] as often as [fopen].  When it
    returns [WEB100_ERR_SYS] it has not closed the directory stream, and
    it has called [fclose] once less than [fopen]: the early returns
    leave the directory stream open, and the spec file opened last
    either could not be opened or is left open. *)
Theorem refresh_connections_streams :
  forall (agent : web100_agent) (s : state) (ents : list string),
    dirs s WEB100_ROOT_DIR = Some ents ->
    exists rc agent' tr,
      refresh_connections WEB100_ROOT_DIR junk agent s
      = ((rc, agent'), with_trace s (tr ++ trace s))
      /\ count_events is_opendir tr = 1%nat
      /\ ((rc = WEB100_ERR_SUCCESS
           /\ count_events is_closedir tr = 1%nat
           /\ count_events is_fclose tr = count_events is_fopen tr)
          \/ (rc = WEB100_ERR_SYS
              /\ count_events is_closedir tr = 0%nat
              /\ S (count_events is_fclose tr) = count_events is_fopen tr)).
Proof.
  intros agent s ents Hdir.
  unfold refresh_connections, bind. rewrite free_connections_trace.
  unfold log at 1. cbn [dirs with_trace]. rewrite Hdir.
  match goal with
  | |- context [readdir_loop _ _ _ _ _ ?s0] =>
      destruct (readdir_loop_streams (agent_self agent) ents [] s0)
        as [rc [head' [tr [Hrun [Hopen Hcases]]]]]
  end.
  rewrite Hrun. cbn [fst snd ret].
  exists rc. eexists.
  exists (tr ++ EvOpendir WEB100_ROOT_DIR
             :: rev (map (fun c => EvFree (conn_cid c)) (connection_head agent))).
  split; [unfold with_trace; cbn [web100_errno files dirs trace];
          repeat (rewrite <- app_assoc || rewrite <- app_comm_cons); reflexivity |].
  assert (Hfree : forall (p : event -> bool) (cp : list web100_connection),
             (forall c, p (EvFree c) = false) ->
             count_events p (rev (map (fun c => EvFree (conn_cid c)) cp)) = 0%nat).
  { intros p cp Hp. unfold count_events.
    induction cp as [| c cs IHc]; [reflexivity |].
    cbn [map rev]. rewrite filter_app, length_app, IHc. cbn. now rewrite Hp. }
  rewrite !count_events_app.
  change (EvOpendir ?x :: ?l) with ([EvOpendir x] ++ l).
  rewrite !count_events_app, !(Hfree _ _ (fun _ => eq_refl)). cbn.
  split; [lia |].
  destruct Hcases as [[Hrc [Hc Hf]] | [Hrc [Hc Hf]]]; [left | right];
    (split; [exact Hrc | split; lia]).
Qed.

End StreamProperties.

Lemma refresh_connections_streams_witness :
  exists rc agent' tr,
    refresh_connections example_root example_junk_spec example_agent_listed
      example_short_state
    = ((rc, agent'), with_trace example_short_state (tr ++ trace example_short_state))
    /\ count_events is_opendir tr = 1%nat
    /\ ((rc = WEB100_ERR_SUCCESS
         /\ count_events is_closedir tr = 1%nat
         /\ count_events is_fclose tr = count_events is_fopen tr)
        \/ (rc = WEB100_ERR_SYS
            /\ count_events is_closedir tr = 0%nat
            /\ S (count_events is_fclose tr) = count_events is_fopen tr)).
Proof.
  apply (refresh_connections_streams example_root example_junk_spec
           example_agent_listed example_short_state ["1"; "2"; "7"]).
  reflexivity.
Defined.

(** ** Raw access and snapshots on the data files *)

Lemma fopen_existing (path mode : string) (data : list byte) (s : state) :
  files s path = Some data ->
  fopen path mode s = (Some (mk_FILE path 0), with_trace s (EvFopen path mode :: trace s)).
Proof. intros Hf. unfold fopen, log. now rewrite Hf. Qed.

Lemma fopen_missing (path mode : string) (s : state) :
  files s path = None ->
  fopen path mode s = (None, with_trace s (EvFopen path mode :: trace s)).
Proof. intros Hf. unfold fopen, log. now rewrite Hf. Qed.

Lemma fseek_forward (fp : FILE) (offset : Z) (s : state) :
  0 <= offset ->
  fseek fp offset s
  = ((0, mk_FILE (f_path fp) offset), with_trace s (EvFseek (f_path fp) offset :: trace s)).
Proof.
  intros Hoff. unfold fseek, bind, log. destruct (Z.ltb_spec offset 0); [lia | reflexivity].
Qed.

Lemma size_from_type_pos (type : WEB100_TYPE) : 0 < size_from_type type.
Proof. destruct type; reflexivity. Qed.

Section RawAccessProperties.

Variable WEB100_ROOT_DIR : string.

(** The data file of the group of [var] for the connection [conn]. *)
Let data_file (var : web100_var) (conn : web100_connection) : string :=
  stats_filename WEB100_ROOT_DIR (conn_cid conn) (group_name (var_group var)).

(** X8: [web100_raw_read] of a variable of the connection's (local)
    agent, the data file holding the variable's bytes: the call returns
    [WEB100_ERR_SUCCESS] and puts the [size_from_type] bytes found at the
    variable's offset into the front of the buffer; it opens, seeks,
    reads and closes that one file, changes no file, and leaves
    [web100_errno] as it was. *)
Theorem web100_raw_read_success :
  forall (var : web100_var) (conn : web100_connection) (buf data : list byte) (s : state),
    agent_addr (group_agent (var_group var)) = agent_addr (conn_agent conn) ->
    is_local (agent_type (conn_agent conn)) = true ->
    files s (data_file var conn) = Some data ->
    0 <= var_offset var ->
    var_offset var + size_from_type (var_type var) <= Z.of_nat (List.length data) ->
    web100_raw_read WEB100_ROOT_DIR var conn buf s
    = ((WEB100_ERR_SUCCESS,
        memcpy_into buf (firstn (Z.to_nat (size_from_type (var_type var)))
                                (skipn (Z.to_nat (var_offset var)) data))),
       with_trace s
         ([ EvFclose (data_file var conn);
            EvFread (data_file var conn) (size_from_type (var_type var));
            EvFseek (data_file var conn) (var_offset var);
            EvFopen (data_file var conn) "r" ] ++ trace s)).
Proof.
  intros var conn buf data s Hagent Hlocal Hfile Hoff Hlen.
  unfold web100_raw_read. rewrite Hagent, Nat.eqb_refl, Hlocal. cbn [negb].
  fold (data_file var conn). cbv beta delta [bind].
  rewrite (fopen_existing _ _ data) by exact Hfile.
  rewrite fseek_forward by exact Hoff. cbn [fst snd negb Z.eqb f_path].
  rewrite (fread_full _ _ _ data) by (try exact Hfile; try lia; apply size_from_type_pos).
  reflexivity.
Qed.


Lemma write_at_read_back (data bs : list byte) (pos : Z) :
  0 <= pos ->
  bytes_at (write_at data pos bs) pos (Z.of_nat (List.length bs)) = Some bs.
Proof.
  intros Hpos. unfold write_at, bytes_at.
  set (p := Z.to_nat pos).
  set (front := firstn p (data ++ repeat Byte.x00 (p - List.length data))).
  assert (Hfront : List.length front = p).
  { subst front. rewrite length_firstn, length_app, repeat_length. lia. }
  destruct (Z.leb_spec 0 pos); [| lia].
  destruct (Z.leb_spec 0 (Z.of_nat (List.length bs))); [| lia].
  rewrite !length_app, Hfront.
  destruct (Z.leb_spec (pos + Z.of_nat (List.length bs))
              (Z.of_nat (p + (List.length bs
                              + List.length (skipn (p + List.length bs) data))))); [| lia].
  cbn [andb]. f_equal. rewrite Nat2Z.id.
  rewrite skipn_app, Hfront, Nat.sub_diag. cbn [skipn].
  rewrite skipn_all2 by lia. cbn [app].
  rewrite firstn_app, Nat.sub_diag, firstn_all. cbn [firstn]. apply app_nil_r.
Qed.

(** X10: writing a variable with [web100_raw_write] and reading it back
    with [web100_raw_read].  For a variable of the connection's (local)
    agent whose data file exists, an offset that is not negative and a
    buffer of at least [size_from_type] bytes, the write returns
    [WEB100_ERR_SUCCESS], leaves [web100_errno] and every other file as
    they were, and a read that follows it returns the first
    [size_from_type] bytes of the buffer that was written. *)
Theorem web100_raw_write_read_round_trip :
  forall (var : web100_var) (conn : web100_connection) (buf buf0 data : list byte)
         (s : state),
    agent_addr (group_agent (var_group var)) = agent_addr (conn_agent conn) ->
    is_local (agent_type (conn_agent conn)) = true ->
    files s (data_file var conn) = Some data ->
    0 <= var_offset var ->
    size_from_type (var_type var) <= Z.of_nat (List.length buf) ->
    exists s1 : state,
      web100_raw_write WEB100_ROOT_DIR var conn buf s = (WEB100_ERR_SUCCESS, s1)
      /\ web100_errno s1 = web100_errno s
      /\ (forall path, path <> data_file var conn -> files s1 path = files s path)
      /\ fst (web100_raw_read WEB100_ROOT_DIR var conn buf0 s1)
         = (WEB100_ERR_SUCCESS,
            memcpy_into buf0 (firstn (Z.to_nat (size_from_type (var_type var))) buf)).
Proof.
  intros var conn buf buf0 data s Hagent Hlocal Hfile Hoff Hbuf.
  pose proof (size_from_type_pos (var_type var)) as Hpos.
  set (bs := firstn (Z.to_nat (size_from_type (var_type var))) buf).
  assert (Hbs : Z.of_nat (List.length bs) = size_from_type (var_type var)).
  { subst bs. rewrite length_firstn. lia. }
  set (data' := write_at data (var_offset var) bs).
  set (files' := fun p => if String.eqb p (data_file var conn) then Some data'
                          else files s p).
  exists (mk_state (web100_errno s) files' (dirs s)
            ([ EvFclose (data_file var conn); EvFwrite (data_file var conn) bs;
               EvFseek (data_file var conn) (var_offset var);
               EvFopen (data_file var conn) "w" ] ++ trace s)).
  split; [| split; [reflexivity | split]].
  - unfold web100_raw_write. rewrite Hagent, Nat.eqb_refl, Hlocal. cbn [negb].
    fold (data_file var conn). cbv beta delta [bind].
    rewrite (fopen_existing _ _ data) by exact Hfile.
    rewrite fseek_forward by exact Hoff. cbn [fst snd negb Z.eqb f_path].
    fold bs. unfold fwrite, log. cbn [f_path f_pos files with_trace]. rewrite Hfile.
    destruct (Nat.eqb_spec (List.length bs) 0) as [E | _]; [lia |]. reflexivity.
  - intros path Hne. cbn [files]. subst files'. cbn beta.
    destruct (String.eqb_spec path (data_file var conn)); [contradiction | reflexivity].
  - unfold web100_raw_read. rewrite Hagent, Nat.eqb_refl, Hlocal. cbn [negb].
    fold (data_file var conn). cbv beta delta [bind].
    assert (Hfile' : files' (data_file var conn) = Some data').
    { subst files'. cbn beta. now rewrite String.eqb_refl. }
    rewrite (fopen_existing _ _ data') by exact Hfile'.
    rewrite fseek_forward by exact Hoff. cbn [fst snd negb Z.eqb f_path].
    unfold fread, log. cbn [f_path f_pos files with_trace]. rewrite Hfile'.
    subst data'. rewrite <- Hbs, write_at_read_back by exact Hoff.
    destruct (Z.eqb_spec (Z.of_nat (List.length bs)) 0) as [E | _]; [lia |].
    reflexivity.
Qed.

End RawAccessProperties.


Lemma web100_raw_read_success_witness :
  web100_raw_read example_stats_root example_counter example_conn
    [Byte.x00; Byte.x00; Byte.x00; Byte.x00] example_stats_state
  = ((WEB100_ERR_SUCCESS, [Byte.xde; Byte.xad; Byte.xbe; Byte.xef]),
     with_trace example_stats_state
       [ EvFclose "/proc/web100/5/read"; EvFread "/proc/web100/5/read" 4;
         EvFseek "/proc/web100/5/read" 4; EvFopen "/proc/web100/5/read" "r" ]).
Proof.
  apply (web100_raw_read_success example_stats_root example_counter example_conn
           [Byte.x00; Byte.x00; Byte.x00; Byte.x00] example_junk example_stats_state);
    [reflexivity | reflexivity | reflexivity | cbn; lia | cbn; lia].
Defined.


Lemma web100_raw_write_read_round_trip_witness :
  exists s1 : state,
    web100_raw_write example_stats_root example_local_port example_conn
      [Byte.x50; Byte.x00] example_stats_state
    = (WEB100_ERR_SUCCESS, s1)
    /\ web100_errno s1 = web100_errno example_stats_state
    /\ (forall path, path <> "/proc/web100/5/read" ->
                     files s1 path = files example_stats_state path)
    /\ fst (web100_raw_read example_stats_root example_local_port example_conn
              [Byte.x00; Byte.x00] s1)
       = (WEB100_ERR_SUCCESS, [Byte.x50; Byte.x00]).
Proof.
  apply (web100_raw_write_read_round_trip example_stats_root example_local_port
           example_conn [Byte.x50; Byte.x00] [Byte.x00; Byte.x00] example_junk
           example_stats_state);
    [reflexivity | reflexivity | reflexivity | cbn; lia | cbn; lia].
Defined.

Lemma bytes_at_in_prefix (old data : list byte) (n pos k : Z) :
  0 <= pos -> 0 <= k -> pos + k <= n -> n <= Z.of_nat (List.length data) ->
  bytes_at (memcpy_into old (firstn (Z.to_nat n) data)) pos k
  = Some (firstn (Z.to_nat k) (skipn (Z.to_nat pos) data)).
Proof.
  intros Hpos Hk Hin Hn. unfold bytes_at, memcpy_into.
  assert (Hl : List.length (firstn (Z.to_nat n) data) = Z.to_nat n)
    by (rewrite length_firstn; lia).
  destruct (Z.leb_spec 0 pos); [| lia]. destruct (Z.leb_spec 0 k); [| lia].
  rewrite length_app, Hl.
  destruct (Z.leb_spec (pos + k)
              (Z.of_nat (Z.to_nat n
                         + List.length (skipn (Z.to_nat n) old)))); [| lia].
  cbn [andb]. f_equal.
  rewrite skipn_app, Hl.
  replace (Z.to_nat pos - Z.to_nat n)%nat with 0%nat by lia. cbn [skipn].
  rewrite firstn_app, length_skipn, Hl.
  replace (Z.to_nat k - (Z.to_nat n - Z.to_nat pos))%nat with 0%nat by lia.
  cbn [firstn]. rewrite app_nil_r.
  rewrite skipn_firstn_comm, firstn_firstn. f_equal. lia.
Qed.

Section SnapshotProperties.

Variable WEB100_ROOT_DIR : string.

(** The data file a snapshot is taken from. *)
Let snap_file (snap : web100_snapshot) : string :=
  stats_filename WEB100_ROOT_DIR (conn_cid (snap_connection snap))
                 (group_name (group_self (snap_group snap))).

Lemma web100_snap_run (snap : web100_snapshot) (data : list byte) (s : state) :
  is_local (agent_type (group_agent (group_self (snap_group snap)))) = true ->
  files s (snap_file snap) = Some data ->
  0 < group_size (snap_group snap) <= Z.of_nat (List.length data) ->
  web100_snap WEB100_ROOT_DIR snap s
  = ((WEB100_ERR_SUCCESS,
      mk_snapshot (snap_group snap) (snap_connection snap)
        (memcpy_into (snap_data snap)
                     (firstn (Z.to_nat (group_size (snap_group snap))) data))),
     with_trace s
       ([ EvFclose (snap_file snap);
          EvFread (snap_file snap) (group_size (snap_group snap));
          EvFopen (snap_file snap) "r" ] ++ trace s)).
Proof.
  intros Hlocal Hfile Hsize. unfold web100_snap. rewrite Hlocal. cbn [negb].
  fold (snap_file snap). cbv beta delta [bind].
  rewrite (fopen_existing _ _ data) by exact Hfile.
  rewrite (fread_full _ _ _ data) by (try exact Hfile; lia).
  reflexivity.
Qed.

(** X11: a snapshot read agrees with a raw read.  For a snapshot of a
    local agent's group whose data file holds at least [group->size]
    bytes, and a variable of that group lying inside the group's size:
    [web100_snap] succeeds, leaving [web100_errno] and the files as they
    were, and [web100_snap_read] on the snapshot it filled puts into the
    buffer the same bytes as [web100_raw_read] of the variable on the
    snapshot's connection, the bytes of the file at the variable's
    offset. *)
Theorem web100_snap_read_agrees_with_raw_read :
  forall (var : web100_var) (snap : web100_snapshot) (buf data : list byte) (s : state),
    var_group var = group_self (snap_group snap) ->
    agent_addr (group_agent (var_group var))
    = agent_addr (conn_agent (snap_connection snap)) ->
    is_local (agent_type (group_agent (group_self (snap_group snap)))) = true ->
    is_local (agent_type (conn_agent (snap_connection snap))) = true ->
    files s (snap_file snap) = Some data ->
    0 <= var_offset var ->
    var_offset var + size_from_type (var_type var) <= group_size (snap_group snap) ->
    group_size (snap_group snap) <= Z.of_nat (List.length data) ->
    exists (snap' : web100_snapshot) (s1 : state),
      web100_snap WEB100_ROOT_DIR snap s = ((WEB100_ERR_SUCCESS, snap'), s1)
      /\ web100_errno s1 = web100_errno s /\ files s1 = files s
      /\ web100_snap_read var snap' buf s1
         = (Returns (WEB100_ERR_SUCCESS,
                     memcpy_into buf
                       (firstn (Z.to_nat (size_from_type (var_type var)))
                               (skipn (Z.to_nat (var_offset var)) data))),
            s1)
      /\ fst (web100_raw_read WEB100_ROOT_DIR var (snap_connection snap) buf s)
         = (WEB100_ERR_SUCCESS,
            memcpy_into buf
              (firstn (Z.to_nat (size_from_type (var_type var)))
                      (skipn (Z.to_nat (var_offset var)) data))).
Proof.
  intros var snap buf data s Hgroup Hagent Hlocal Hlocalc Hfile Hoff Hin Hlen.
  pose proof (size_from_type_pos (var_type var)) as Hpos.
  eexists _, _. split; [apply (web100_snap_run snap data s Hlocal Hfile); lia |].
  split; [reflexivity |]. split; [reflexivity |]. split.
  - unfold web100_snap_read. cbn [snap_group snap_data].
    rewrite Hgroup, Nat.eqb_refl. cbn [negb].
    rewrite bytes_at_in_prefix by lia. reflexivity.
  - unfold web100_raw_read. rewrite Hagent, Nat.eqb_refl, Hlocalc. cbn [negb].
    rewrite Hgroup. fold (snap_file snap). cbv beta delta [bind].
    rewrite (fopen_existing _ _ data) by exact Hfile.
    rewrite fseek_forward by exact Hoff. cbn [fst snd negb Z.eqb f_path].
    rewrite (fread_full _ _ _ data) by (try exact Hfile; lia).
    reflexivity.
Qed.

(** X12: the ways [web100_snap] fails on a snapshot of a local agent's
    group.  It returns [-WEB100_ERR_NOCONNECTION] and sets
    [web100_errno] to [WEB100_ERR_NOCONNECTION] when the data file does
    not exist, when the file has fewer bytes than the group's size, and
    also, whatever the file holds, when the group's size is 0 (a group
    without variables), because [fread] of an item of size 0 returns 0.
    No file is changed. *)
Theorem web100_snap_failures :
  forall (snap : web100_snapshot) (s : state),
    is_local (agent_type (group_agent (group_self (snap_group snap)))) = true ->
    files s (snap_file snap) = None
    \/ (exists data,
           files s (snap_file snap) = Some data
           /\ (Z.of_nat (List.length data) < group_size (snap_group snap)
               \/ group_size (snap_group snap) = 0)) ->
    exists (snap' : web100_snapshot) (tr : list event),
      web100_snap WEB100_ROOT_DIR snap s
      = ((- WEB100_ERR_NOCONNECTION, snap'),
         mk_state WEB100_ERR_NOCONNECTION (files s) (dirs s) (tr ++ trace s)).
Proof.
  intros snap s Hlocal Hbad. unfold web100_snap. rewrite Hlocal. cbn [negb].
  fold (snap_file snap). cbv beta delta [bind].
  destruct Hbad as [Hfile | [data [Hfile Hbad]]].
  - rewrite fopen_missing by exact Hfile.
    exists snap, [EvFopen (snap_file snap) "r"]. reflexivity.
  - rewrite (fopen_existing _ _ data) by exact Hfile.
    exists snap, [EvFread (snap_file snap) (group_size (snap_group snap));
                  EvFopen (snap_file snap) "r"].
    destruct Hbad as [Hshort | Hzero].
    + rewrite (fread_short _ _ _ data) by (exact Hfile || lia). reflexivity.
    + unfold fread, log. cbn [f_path f_pos files with_trace]. rewrite Hfile, Hzero.
      destruct (bytes_at data 0 0); reflexivity.
Qed.

(** X13: allocating a snapshot and taking it.  [web100_snapshot_alloc]
    refuses a group and a connection of different agents with
    [WEB100_ERR_INVAL]; otherwise it gives a snapshot of that group and
    connection whose buffer has the group's size, and does nothing else.
    After a successful [web100_snap] on it the buffer is exactly the
    first [group->size] bytes of the data file: nothing of what the
    fresh memory held is left. *)
Theorem web100_snapshot_alloc_then_snap :
  forall (junk : nat -> byte) (group : web100_group) (conn : web100_connection)
         (s : state),
    (agent_addr (group_agent (group_self group)) <> agent_addr (conn_agent conn) ->
     web100_snapshot_alloc junk group conn s
     = (None, mk_state WEB100_ERR_INVAL (files s) (dirs s) (trace s)))
    /\ (agent_addr (group_agent (group_self group)) = agent_addr (conn_agent conn) ->
        exists snap0 : web100_snapshot,
          web100_snapshot_alloc junk group conn s = (Some snap0, s)
          /\ snap_group snap0 = group /\ snap_connection snap0 = conn
          /\ List.length (snap_data snap0) = Z.to_nat (group_size group)
          /\ (forall data,
                 is_local (agent_type (group_agent (group_self group))) = true ->
                 files s (snap_file snap0) = Some data ->
                 0 < group_size group <= Z.of_nat (List.length data) ->
                 exists s1,
                   web100_snap WEB100_ROOT_DIR snap0 s
                   = ((WEB100_ERR_SUCCESS,
                       mk_snapshot group conn (firstn (Z.to_nat (group_size group)) data)),
                      s1))).
Proof.
  intros junk group conn s. unfold web100_snapshot_alloc. split.
  - intros Hdiff. apply Nat.eqb_neq in Hdiff. rewrite Hdiff. reflexivity.
  - intros Hsame. rewrite Hsame, Nat.eqb_refl. cbn [negb].
    eexists. split; [reflexivity |]. cbn [snap_group snap_connection snap_data].
    split; [reflexivity |]. split; [reflexivity |].
    split; [now rewrite length_map, length_seq |].
    intros data Hlocal Hfile Hsize. eexists.
    rewrite (web100_snap_run _ data s) by assumption.
    cbn [snap_group snap_connection snap_data]. unfold memcpy_into.
    rewrite skipn_all2 by (rewrite length_map, length_seq, length_firstn; lia).
    now rewrite app_nil_r.
Qed.

End SnapshotProperties.


Lemma web100_snap_read_agrees_with_raw_read_witness :
  exists (snap' : web100_snapshot) (s1 : state),
    web100_snap example_stats_root example_snap_old example_stats_state
    = ((WEB100_ERR_SUCCESS, snap'), s1)
    /\ web100_errno s1 = web100_errno example_stats_state
    /\ files s1 = files example_stats_state
    /\ web100_snap_read example_counter snap' [Byte.x00; Byte.x00; Byte.x00; Byte.x00] s1
       = (Returns (WEB100_ERR_SUCCESS, [Byte.xde; Byte.xad; Byte.xbe; Byte.xef]), s1)
    /\ fst (web100_raw_read example_stats_root example_counter example_conn
              [Byte.x00; Byte.x00; Byte.x00; Byte.x00] example_stats_state)
       = (WEB100_ERR_SUCCESS, [Byte.xde; Byte.xad; Byte.xbe; Byte.xef]).
Proof.
  apply (web100_snap_read_agrees_with_raw_read example_stats_root example_counter
           example_snap_old [Byte.x00; Byte.x00; Byte.x00; Byte.x00] example_junk
           example_stats_state);
    [reflexivity | reflexivity | reflexivity | reflexivity | reflexivity
    | cbn; lia | cbn; lia | cbn; lia].
Defined.

Lemma web100_snap_failures_witness :
  (exists (snap' : web100_snapshot) (tr : list event),
      web100_snap example_stats_root example_snap_old example_state
      = ((- WEB100_ERR_NOCONNECTION, snap'),
         mk_state WEB100_ERR_NOCONNECTION (files example_state) (dirs example_state)
                  (tr ++ trace example_state)))
  /\ (exists (snap' : web100_snapshot) (tr : list event),
         web100_snap example_stats_root
           (mk_snapshot (mk_group example_group_ref 0 0 []) example_conn [])
           example_stats_state
         = ((- WEB100_ERR_NOCONNECTION, snap'),
            mk_state WEB100_ERR_NOCONNECTION (files example_stats_state)
                     (dirs example_stats_state) (tr ++ trace example_stats_state))).
Proof.
  split.
  - apply (web100_snap_failures example_stats_root example_snap_old example_state);
      [reflexivity | left; reflexivity].
  - apply (web100_snap_failures example_stats_root
             (mk_snapshot (mk_group example_group_ref 0 0 []) example_conn [])
             example_stats_state);
      [reflexivity |].
    right. exists example_junk. split; [reflexivity | right; reflexivity].
Defined.

Lemma web100_snapshot_alloc_then_snap_witness :
  web100_snapshot_alloc (fun _ => Byte.xaa) example_counter_group example_foreign_conn
    example_stats_state
  = (None, mk_state WEB100_ERR_INVAL (files example_stats_state)
                    (dirs example_stats_state) (trace example_stats_state))
  /\ exists (snap0 : web100_snapshot) (s1 : state),
       web100_snapshot_alloc (fun _ => Byte.xaa) example_counter_group example_conn
         example_stats_state
       = (Some snap0, example_stats_state)
       /\ web100_snap example_stats_root snap0 example_stats_state
          = ((WEB100_ERR_SUCCESS,
              mk_snapshot example_counter_group example_conn example_junk), s1).
Proof.
  split.
  - apply (proj1 (web100_snapshot_alloc_then_snap example_stats_root
                    (fun _ => Byte.xaa) example_counter_group example_foreign_conn
                    example_stats_state)).
    cbn. lia.
  - destruct (proj2 (web100_snapshot_alloc_then_snap example_stats_root
                       (fun _ => Byte.xaa) example_counter_group example_conn
                       example_stats_state) eq_refl)
      as [snap0 [Halloc [Hgroup [Hconn [_ Hsnap]]]]].
    destruct (Hsnap example_junk) as [s1 Hrun];
      [reflexivity | unfold stats_filename; rewrite Hgroup, Hconn; reflexivity
      | cbn; lia |].
    exists snap0, s1. split; [exact Halloc | exact Hrun].
Defined.

(** ** Correlation: the result as a whole *)

Lemma records_for_socket_origin (cid tcp : connection_info) (fd_head : list connection_info)
  (r : connection_info) :
  In r (records_for_socket cid tcp fd_head) ->
  enriched r cid tcp /\ ci_ino r = 0
  /\ ((fd_holders tcp fd_head = [] /\ ci_pid r = 0 /\ ci_cmdline r = "")
      \/ exists fd, In fd fd_head /\ ci_ino fd = ci_ino tcp /\ attributed fd r).
Proof.
  unfold records_for_socket. destruct (fd_holders tcp fd_head) as [| h hs] eqn:E.
  - intros [<- | []]. split; [| split; [reflexivity | left; repeat split]].
    destruct (new_info_identity cid 0 "" (ci_uid tcp) (ci_state tcp)) as [Hc [Ha Ht]].
    unfold enriched, info_without_fd.
    split; [exact Hc |]. split; [exact Ha |]. split; [exact Ht |]. split; reflexivity.
  - intros Hin. apply in_map_iff in Hin as [fd [<- Hfd]].
    destruct (info_with_fd_enriched cid tcp fd) as [He Hat].
    split; [exact He |]. split; [reflexivity |]. right. exists fd.
    rewrite <- E in Hfd. unfold fd_holders in Hfd. apply filter_In in Hfd as [Hin Hino].
    split; [exact Hin |]. split; [now apply Z.eqb_eq | exact Hat].
Qed.

Lemma records_for_socket_nonempty (cid tcp : connection_info)
  (fd_head : list connection_info) :
  records_for_socket cid tcp fd_head <> [].
Proof.
  unfold records_for_socket. destruct (fd_holders tcp fd_head); discriminate.
Qed.

Lemma records_for_connection_nonempty (cid : connection_info)
  (tcp_head fd_head : list connection_info) :
  records_for_connection cid tcp_head fd_head <> [].
Proof.
  unfold records_for_connection. destruct (matching_sockets cid tcp_head) as [| m ms].
  - discriminate.
  - cbn [flat_map]. pose proof (records_for_socket_nonempty cid m fd_head) as Hne.
    destruct (records_for_socket cid m fd_head); [contradiction | discriminate].
Qed.

Lemma records_for_connection_origin (cid : connection_info)
  (tcp_head fd_head : list connection_info) (r : connection_info) :
  In r (records_for_connection cid tcp_head fd_head) ->
  ci_cid r = ci_cid cid /\ ci_addrtype r = ci_addrtype cid /\ same_tuple r cid
  /\ ci_ino r = 0
  /\ ((matching_sockets cid tcp_head = []
       /\ ci_pid r = 0 /\ ci_cmdline r = "" /\ ci_uid r = 0 /\ ci_state r = 0)
      \/ exists tcp,
           In tcp tcp_head /\ tcp_match tcp cid = true
           /\ ci_uid r = ci_uid tcp /\ ci_state r = ci_state tcp
           /\ ((fd_holders tcp fd_head = [] /\ ci_pid r = 0 /\ ci_cmdline r = "")
               \/ exists fd,
                    In fd fd_head /\ ci_ino fd = ci_ino tcp
                    /\ ci_pid r = ci_pid fd
                    /\ ci_cmdline r = strncpy (ci_cmdline fd) 256)).
Proof.
  unfold records_for_connection.
  destruct (matching_sockets cid tcp_head) as [| m ms] eqn:E.
  - intros [<- | []].
    destruct (new_info_identity cid 0 "" 0 0) as [Hc [Ha Ht]].
    split; [exact Hc |]. split; [exact Ha |]. split; [exact Ht |].
    split; [reflexivity |]. left. repeat split.
  - intros Hin. apply in_flat_map in Hin as [tcp [Htcp Hr]].
    rewrite <- E in Htcp. unfold matching_sockets in Htcp.
    apply filter_In in Htcp as [Hin Hm].
    destruct (records_for_socket_origin cid tcp fd_head r Hr)
      as [[Hc [Ha [Ht [Hs Hu]]]] [Hino Hproc]].
    split; [exact Hc |]. split; [exact Ha |]. split; [exact Ht |].
    split; [exact Hino |]. right. exists tcp.
    split; [exact Hin |]. split; [exact Hm |]. split; [exact Hu |]. split; [exact Hs |].
    destruct Hproc as [Hnone | [fd [Hfd [Hi [Hp [Hcmd _]]]]]]; [left; exact Hnone |].
    right. exists fd. repeat split; assumption.
Qed.

(** X14: every catalog entry appears in the result of the collation and
    nothing else does: the connection ids of the result are exactly
    those of the catalog list, and the result has at least as many
    records as the catalog list has entries. *)
Theorem collate_covers_catalog :
  forall (cid_data tcp_head fd_head : list connection_info),
    (forall c : Z,
        In c (map ci_cid (connection_info_collate cid_data tcp_head fd_head))
        <-> In c (map ci_cid cid_data))
    /\ (List.length cid_data
        <= List.length (connection_info_collate cid_data tcp_head fd_head))%nat.
Proof.
  intros cid_data tcp_head fd_head. rewrite connection_info_collate_join. split.
  - intros c. rewrite map_rev, <- in_rev, !in_map_iff. split.
    + intros [r [Hc Hr]]. apply in_flat_map in Hr as [a [Ha Hr]].
      exists a. split; [| exact Ha].
      destruct (records_for_connection_origin a tcp_head fd_head r Hr) as [Hcid _].
      congruence.
    + intros [a [Hc Ha]].
      pose proof (records_for_connection_nonempty a tcp_head fd_head) as Hne.
      destruct (records_for_connection a tcp_head fd_head) as [| r rs] eqn:E;
        [contradiction |].
      exists r. split.
      * destruct (records_for_connection_origin a tcp_head fd_head r) as [Hcid _];
          [rewrite E; now left | congruence].
      * apply in_flat_map. exists a. split; [exact Ha | rewrite E; now left].
  - rewrite length_rev. induction cid_data as [| a rest IH]; [reflexivity |].
    cbn [flat_map List.length]. rewrite length_app.
    pose proof (records_for_connection_nonempty a tcp_head fd_head) as Hne.
    destruct (records_for_connection a tcp_head fd_head); [contradiction | cbn; lia].
Qed.

(** X15: nothing in the result is made up.  Every record of the result
    carries the connection id, address family and tuple of a catalog
    entry and the inode 0.  Either that entry passes the test of the
    socket loop with no socket entry and the record has pid, uid and
    state 0 and an empty command name; or the record has the uid and
    state of a socket entry that passes the test with it, and then either
    no descriptor entry has the socket's inode and pid and command name
    are 0 and empty, or they are those of a descriptor entry with that
    inode. *)
Theorem collate_records_have_sources :
  forall (cid_data tcp_head fd_head : list connection_info) (r : connection_info),
    In r (connection_info_collate cid_data tcp_head fd_head) ->
    exists cid,
      In cid cid_data
      /\ ci_cid r = ci_cid cid /\ ci_addrtype r = ci_addrtype cid /\ same_tuple r cid
      /\ ci_ino r = 0
      /\ ((matching_sockets cid tcp_head = []
           /\ ci_pid r = 0 /\ ci_cmdline r = "" /\ ci_uid r = 0 /\ ci_state r = 0)
          \/ exists tcp,
               In tcp tcp_head /\ tcp_match tcp cid = true
               /\ ci_uid r = ci_uid tcp /\ ci_state r = ci_state tcp
               /\ ((fd_holders tcp fd_head = [] /\ ci_pid r = 0 /\ ci_cmdline r = "")
                   \/ exists fd,
                        In fd fd_head /\ ci_ino fd = ci_ino tcp
                        /\ ci_pid r = ci_pid fd
                        /\ ci_cmdline r = strncpy (ci_cmdline fd) 256)).
Proof.
  intros cid_data tcp_head fd_head r Hin.
  rewrite connection_info_collate_join, <- in_rev in Hin.
  apply in_flat_map in Hin as [cid [Hcid Hr]].
  exists cid. split; [exact Hcid |].
  now apply records_for_connection_origin.
Qed.

Lemma collate_records_have_sources_witness :
  exists cid,
    In cid [example_cid]
    /\ ci_cid (info_with_fd example_cid example_tcp example_fd) = ci_cid cid
    /\ ci_addrtype (info_with_fd example_cid example_tcp example_fd) = ci_addrtype cid
    /\ same_tuple (info_with_fd example_cid example_tcp example_fd) cid
    /\ ci_ino (info_with_fd example_cid example_tcp example_fd) = 0
    /\ ((matching_sockets cid [example_tcp; example_other_tcp] = []
         /\ ci_pid (info_with_fd example_cid example_tcp example_fd) = 0
         /\ ci_cmdline (info_with_fd example_cid example_tcp example_fd) = ""
         /\ ci_uid (info_with_fd example_cid example_tcp example_fd) = 0
         /\ ci_state (info_with_fd example_cid example_tcp example_fd) = 0)
        \/ exists tcp,
             In tcp [example_tcp; example_other_tcp] /\ tcp_match tcp cid = true
             /\ ci_uid (info_with_fd example_cid example_tcp example_fd) = ci_uid tcp
             /\ ci_state (info_with_fd example_cid example_tcp example_fd) = ci_state tcp
             /\ ((fd_holders tcp [example_fd] = []
                  /\ ci_pid (info_with_fd example_cid example_tcp example_fd) = 0
                  /\ ci_cmdline (info_with_fd example_cid example_tcp example_fd) = "")
                 \/ exists fd,
                      In fd [example_fd] /\ ci_ino fd = ci_ino tcp
                      /\ ci_pid (info_with_fd example_cid example_tcp example_fd)
                         = ci_pid fd
                      /\ ci_cmdline (info_with_fd example_cid example_tcp example_fd)
                         = strncpy (ci_cmdline fd) 256)).
Proof.
  apply (collate_records_have_sources [example_cid] [example_tcp; example_other_tcp]
           [example_fd]).
  left. reflexivity.
Defined.

(** X16: empty sources.  With an empty catalog list the result is empty.
    With an empty socket table every catalog entry gives its residual
    record and nothing else, last entry first.  With an empty descriptor
    list no record names a process. *)
Theorem collate_empty_sources :
  forall (cid_data tcp_head fd_head : list connection_info),
    connection_info_collate [] tcp_head fd_head = []
    /\ connection_info_collate cid_data [] fd_head = rev (map info_residual cid_data)
    /\ Forall (fun r => ci_pid r = 0 /\ ci_cmdline r = "")
              (connection_info_collate cid_data tcp_head []).
Proof.
  intros cid_data tcp_head fd_head. split; [reflexivity |]. split.
  - rewrite connection_info_collate_join. reflexivity.
  - apply Forall_forall. intros r Hin.
    rewrite connection_info_collate_join, <- in_rev in Hin.
    apply in_flat_map in Hin as [cid [_ Hr]].
    destruct (records_for_connection_origin cid tcp_head [] r Hr)
      as [_ [_ [_ [_ [[_ [Hp [Hc _]]] | [tcp [_ [_ [_ [_ Hproc]]]]]]]]]].
    + now split.
    + destruct Hproc as [[_ [Hp Hc]] | [fd [[] _]]]. now split.
Qed.

(** ** Value to text *)

Lemma string_length_app (s t : string) :
  String.length (s ++ t) = (String.length s + String.length t)%nat.
Proof. induction s as [| c s IH]; cbn; [reflexivity | now rewrite IH]. Qed.

Lemma string_app_assoc (s t u : string) :
  ((s ++ t) ++ u = s ++ (t ++ u))%string.
Proof. induction s as [| c s IH]; cbn; [reflexivity | now rewrite IH]. Qed.

Lemma decimal_digit (k : nat) :
  (k < 10)%nat ->
  isdigit (ascii_of_nat (48 + k)) = true
  /\ digit_value (ascii_of_nat (48 + k)) = Z.of_nat k.
Proof.
  intros Hk. do 10 (destruct k as [| k]; [vm_compute; split; reflexivity |]). lia.
Qed.

Lemma utoa_loop_acc (fuel : nat) :
  forall (n : Z) (acc : string),
    utoa_loop fuel n acc = (utoa_loop fuel n "" ++ acc)%string.
Proof.
  induction fuel as [| fuel IH]; intros n acc; cbn [utoa_loop].
  - reflexivity.
  - destruct (n <? 10); [reflexivity |].
    rewrite (IH (n / 10) (String _ acc)), (IH (n / 10) (String _ "")).
    now rewrite string_app_assoc.
Qed.

Lemma all_digits_app (s t : string) :
  all_digits (s ++ t) = all_digits s && all_digits t.
Proof.
  induction s as [| c s IH]; cbn; [reflexivity |]. now rewrite IH, andb_assoc.
Qed.

Lemma decimal_value_app (s t : string) :
  forall a : Z, decimal_value a (s ++ t) = decimal_value (decimal_value a s) t.
Proof. induction s as [| c s IH]; intros a; cbn; [reflexivity | apply IH]. Qed.

(** With enough fuel the digits written are those of [n]. *)
Lemma utoa_loop_value (fuel : nat) :
  forall n : Z,
    (0 < fuel)%nat ->
    0 <= n < 2 ^ Z.of_nat fuel ->
    all_digits (utoa_loop fuel n "") = true
    /\ decimal_value 0 (utoa_loop fuel n "") = n
    /\ utoa_loop fuel n "" <> "".
Proof.
  induction fuel as [| fuel IH]; intros n Hfuel Hn; [lia |].
  cbn [utoa_loop].
  assert (Hmod : (Z.to_nat (n mod 10) < 10)%nat).
  { pose proof (Z.mod_pos_bound n 10). lia. }
  destruct (decimal_digit _ Hmod) as [Hd Hv].
  destruct (Z.ltb_spec n 10) as [Hsmall | Hbig].
  - cbn [all_digits decimal_value]. rewrite Hd, Hv.
    split; [reflexivity |]. split; [| discriminate].
    rewrite Z.mod_small by lia. lia.
  - rewrite utoa_loop_acc.
    assert (Hq : 0 <= n / 10 < 2 ^ Z.of_nat fuel).
    { split; [apply Z.div_pos; lia |].
      rewrite Nat2Z.inj_succ, Z.pow_succ_r in Hn by lia.
      apply Z.div_lt_upper_bound; lia. }
    assert (Hf : (0 < fuel)%nat).
    { destruct fuel; [| lia]. cbn in Hq.
      assert (1 <= n / 10) by (apply Z.div_le_lower_bound; lia). lia. }
    destruct (IH (n / 10) Hf Hq) as [Ha [Hval Hne]].
    rewrite all_digits_app, decimal_value_app, Ha, Hval.
    cbn [all_digits decimal_value andb]. rewrite Hd, Hv.
    split; [reflexivity |]. split.
    + rewrite Z2Nat.id by (pose proof (Z.mod_pos_bound n 10); lia).
      pose proof (Z.div_mod n 10). lia.
    + destruct (utoa_loop fuel (n / 10) ""); [contradiction | discriminate].
Qed.

Lemma utoa_fuel_enough (n : Z) :
  0 <= n -> 0 <= n < 2 ^ Z.of_nat (S (Z.to_nat (Z.log2 n))).
Proof.
  intros Hn. split; [exact Hn |].
  destruct (Z.eq_dec n 0) as [-> | Hnz]; [reflexivity |].
  pose proof (Z.log2_nonneg n). pose proof (Z.log2_spec n ltac:(lia)) as [_ Hlt].
  rewrite Nat2Z.inj_succ, Z2Nat.id by lia. exact Hlt.
Qed.

(** No more digits than the number needs. *)
Lemma utoa_loop_length_le (fuel : nat) :
  forall (k : nat) (n : Z) (acc : string),
    0 <= n < 10 ^ Z.of_nat (S k) ->
    (String.length (utoa_loop fuel n acc) <= S k + String.length acc)%nat.
Proof.
  induction fuel as [| fuel IH]; intros k n acc Hn; cbn [utoa_loop]; [lia |].
  destruct (Z.ltb_spec n 10) as [Hsmall | Hbig]; [cbn; lia |].
  destruct k as [| k]; [cbn in Hn; lia |].
  assert (Hq : 0 <= n / 10 < 10 ^ Z.of_nat (S k)).
  { split; [apply Z.div_pos; lia |].
    rewrite (Nat2Z.inj_succ (S k)), Z.pow_succ_r in Hn by lia.
    apply Z.div_lt_upper_bound; lia. }
  specialize (IH k (n / 10) (String (ascii_of_nat (48 + Z.to_nat (n mod 10))) acc) Hq).
  cbn [String.length] in IH. lia.
Qed.

(** And, with enough fuel, no fewer. *)
Lemma utoa_loop_length_ge (fuel : nat) :
  forall (k : nat) (n : Z) (acc : string),
    10 ^ Z.of_nat k <= n < 2 ^ Z.of_nat fuel ->
    (S k + String.length acc <= String.length (utoa_loop fuel n acc))%nat.
Proof.
  induction fuel as [| fuel IH]; intros k n acc Hn.
  - cbn in Hn. assert (0 < 10 ^ Z.of_nat k) by (apply Z.pow_pos_nonneg; lia). lia.
  - cbn [utoa_loop].
    assert (Hpos : 0 < 10 ^ Z.of_nat k) by (apply Z.pow_pos_nonneg; lia).
    destruct (Z.ltb_spec n 10) as [Hsmall | Hbig].
    + destruct k as [| k]; [cbn; lia |].
      rewrite Nat2Z.inj_succ, Z.pow_succ_r in Hn by lia.
      assert (0 < 10 ^ Z.of_nat k) by (apply Z.pow_pos_nonneg; lia). lia.
    + assert (Hq2 : n / 10 < 2 ^ Z.of_nat fuel).
      { rewrite Nat2Z.inj_succ, Z.pow_succ_r in Hn by lia.
        apply Z.div_lt_upper_bound; lia. }
      destruct k as [| k].
      * assert (H1 : 10 ^ Z.of_nat 0 <= n / 10 < 2 ^ Z.of_nat fuel).
        { split; [| exact Hq2]. cbn. apply Z.div_le_lower_bound; lia. }
        specialize (IH 0%nat (n / 10)
                      (String (ascii_of_nat (48 + Z.to_nat (n mod 10))) acc) H1).
        cbn [String.length] in IH. lia.
      * assert (H1 : 10 ^ Z.of_nat k <= n / 10 < 2 ^ Z.of_nat fuel).
        { split; [| exact Hq2].
          rewrite Nat2Z.inj_succ, Z.pow_succ_r in Hn by lia.
          apply Z.div_le_lower_bound; lia. }
        specialize (IH k (n / 10)
                      (String (ascii_of_nat (48 + Z.to_nat (n mod 10))) acc) H1).
        cbn [String.length] in IH. lia.
Qed.

Lemma utoa_length_le (k : nat) (n : Z) :
  0 <= n < 10 ^ Z.of_nat (S k) -> (String.length (utoa n) <= S k)%nat.
Proof.
  intros Hn. unfold utoa.
  pose proof (utoa_loop_length_le (S (Z.to_nat (Z.log2 n))) k n "" Hn) as H.
  cbn [String.length] in H. lia.
Qed.

Lemma utoa_length_ge (k : nat) (n : Z) :
  10 ^ Z.of_nat k <= n -> (S k <= String.length (utoa n))%nat.
Proof.
  intros Hn. unfold utoa.
  assert (0 < 10 ^ Z.of_nat k) by (apply Z.pow_pos_nonneg; lia).
  pose proof (utoa_fuel_enough n ltac:(lia)) as [_ Hf].
  pose proof (utoa_loop_length_ge (S (Z.to_nat (Z.log2 n))) k n "" (conj Hn Hf)) as H0.
  cbn [String.length] in H0. lia.
Qed.

Lemma read_value_range (buf : list byte) (n v : Z) :
  read_value buf n = Some v ->
  0 <= v < 2 ^ (8 * n) /\ v = le_combine (firstn (Z.to_nat n) buf).
Proof.
  unfold read_value. destruct (bytes_at buf 0 n) as [bs |] eqn:E; [| discriminate].
  intros H. inversion H; subst v. clear H.
  pose proof (bytes_at_length _ _ _ _ E) as Hl.
  pose proof (le_combine_bound bs) as Hb. rewrite Hl in Hb.
  unfold bytes_at in E.
  destruct ((0 <=? 0) && (0 <=? n) && (0 + n <=? Z.of_nat (List.length buf))) eqn:Ec;
    [| discriminate].
  apply andb_true_iff in Ec as [Ec _]. apply andb_true_iff in Ec as [_ Hn].
  apply Z.leb_le in Hn. rewrite Z2Nat.id in Hb by exact Hn.
  split; [exact Hb |]. inversion E. reflexivity.
Qed.

(** X17: for the 16-bit and 32-bit numeric wire types and a buffer that
    holds the value, [web100_value_to_text] returns, within the twelve
    bytes of its static buffer, the decimal digits of the unsigned
    little-endian value of the first [size_from_type] bytes: a text of
    digits only, at most ten of them, whose decimal value is that value.
    [atoi] reads the text back as that value when the value is below
    2^31, and as the [int] of the same low 32 bits in any case. *)
Theorem web100_value_to_text_numeric :
  forall (type : WEB100_TYPE) (buf : list byte),
    type <> WEB100_TYPE_IP_ADDRESS ->
    type <> WEB100_TYPE_COUNTER64 ->
    size_from_type type <= Z.of_nat (List.length buf) ->
    exists text : string,
      web100_value_to_text type buf = Returns text
      /\ is_decimal text = true
      /\ (String.length text <= 10)%nat
      /\ decimal_value 0 text
         = le_combine (firstn (Z.to_nat (size_from_type type)) buf)
      /\ atoi text
         = int_of_long (le_combine (firstn (Z.to_nat (size_from_type type)) buf))
      /\ (le_combine (firstn (Z.to_nat (size_from_type type)) buf) < 2 ^ 31 ->
          atoi text = le_combine (firstn (Z.to_nat (size_from_type type)) buf)).
Proof.
  intros type buf Hip H64 Hlen.
  assert (Hrun : exists v,
             read_value buf (size_from_type type) = Some v
             /\ web100_value_to_text type buf = sprintf_text (utoa v)
             /\ 0 <= v < 2 ^ 32).
  { assert (Hsome : exists v, read_value buf (size_from_type type) = Some v).
    { unfold read_value, bytes_at.
      pose proof (size_from_type_pos type).
      destruct (Z.leb_spec 0 (size_from_type type)); [| lia].
      destruct (Z.leb_spec (0 + size_from_type type) (Z.of_nat (List.length buf))); [| lia].
      cbn. eexists. reflexivity. }
    destruct Hsome as [v Hv]. exists v. split; [exact Hv |].
    destruct (read_value_range _ _ _ Hv) as [Hr _].
    destruct type; try contradiction; cbn [size_from_type] in Hv, Hr;
      cbn [web100_value_to_text]; rewrite Hv; (split; [reflexivity |]);
      change (2 ^ (8 * 4)) with (2 ^ 32) in Hr; try exact Hr.
    change (2 ^ (8 * 2)) with 65536 in Hr. change (2 ^ 32) with 4294967296. lia. }
  destruct Hrun as [v [Hv [Hrun Hrange]]].
  destruct (read_value_range _ _ _ Hv) as [_ Hval].
  pose proof (utoa_fuel_enough v ltac:(lia)) as Hfuel.
  destruct (utoa_loop_value _ v (Nat.lt_0_succ _) Hfuel) as [Hdig [Hdec Hne]]. fold (utoa v) in Hdig, Hdec, Hne.
  assert (Hl : (String.length (utoa v) <= 10)%nat).
  { apply (utoa_length_le 9). change (10 ^ Z.of_nat 10) with 10000000000.
    change (2 ^ 32) with 4294967296 in Hrange. lia. }
  exists (utoa v).
  assert (Hdecimal : is_decimal (utoa v) = true).
  { unfold is_decimal. destruct (utoa v); [contradiction | exact Hdig]. }
  split; [| split; [exact Hdecimal | split; [exact Hl |]]].
  - rewrite Hrun. unfold sprintf_text.
    destruct (Nat.ltb_spec (String.length (utoa v)) 12); [reflexivity | lia].
  - rewrite <- Hval. split; [exact Hdec |].
    destruct (decimal_name_atoi (utoa v) Hdecimal) as [Hatoi _].
    rewrite Hdec in Hatoi. split.
    + rewrite Hatoi. unfold int_of_digits, strtol_value.
      change (2 ^ 32) with 4294967296 in Hrange.
      change (2 ^ 63) with 9223372036854775808.
      rewrite Z.min_r, Z.max_r by lia. reflexivity.
    + intros Hsmall. rewrite Hatoi. apply int_of_digits_small.
      change (2 ^ 31) with 2147483648 in *. lia.
Qed.

(** X18: a 64-bit counter and the static buffer of twelve bytes.  For a
    buffer that holds the eight bytes, [web100_value_to_text] returns
    the decimal digits of the little-endian value when it is below
    10^11 (a text of digits only whose decimal value is the counter),
    and from 10^11 on the text with its NUL needs more than the twelve
    bytes. *)
Theorem web100_value_to_text_counter64 :
  forall (buf : list byte),
    (8 <= List.length buf)%nat ->
    (le_combine (firstn 8 buf) < 10 ^ 11 ->
     web100_value_to_text WEB100_TYPE_COUNTER64 buf
     = Returns (utoa (le_combine (firstn 8 buf)))
     /\ is_decimal (utoa (le_combine (firstn 8 buf))) = true
     /\ decimal_value 0 (utoa (le_combine (firstn 8 buf)))
        = le_combine (firstn 8 buf))
    /\ (10 ^ 11 <= le_combine (firstn 8 buf) ->
        web100_value_to_text WEB100_TYPE_COUNTER64 buf = Aborts).
Proof.
  intros buf H8. set (counter := le_combine (firstn 8 buf)).
  assert (Hv : read_value buf 8 = Some counter).
  { unfold read_value, bytes_at.
    destruct (Z.leb_spec (0 + 8) (Z.of_nat (List.length buf))); [| lia]. reflexivity. }
  pose proof (read_value_range _ _ _ Hv) as [Hrange _].
  split.
  - intros Hsmall. split.
    + cbn [web100_value_to_text]. rewrite Hv. unfold sprintf_text.
      pose proof (utoa_length_le 10 counter) as Hl.
      change (10 ^ Z.of_nat 11) with (10 ^ 11) in Hl.
      destruct (Nat.ltb_spec (String.length (utoa counter)) 12); [reflexivity | lia].
    + pose proof (utoa_fuel_enough counter ltac:(lia)) as Hfuel.
      destruct (utoa_loop_value _ counter (Nat.lt_0_succ _) Hfuel) as [Hdig [Hdec Hne]].
      fold (utoa counter) in Hdig, Hdec, Hne.
      split; [| exact Hdec].
      unfold is_decimal. destruct (utoa counter); [contradiction | exact Hdig].
  - intros Hbig. cbn [web100_value_to_text]. rewrite Hv. unfold sprintf_text.
    pose proof (utoa_length_ge 11 counter) as Hl.
    change (10 ^ Z.of_nat 11) with (10 ^ 11) in Hl.
    destruct (Nat.ltb_spec (String.length (utoa counter)) 12); [lia | reflexivity].
Qed.

(** X19: an address and the static buffer of twelve bytes.
    [web100_value_to_text] writes the four bytes of an address in
    dotted decimal; the text fits when every byte is below 100, and
    needs sixteen bytes when every byte is 100 or more. *)
Theorem web100_value_to_text_ip_address :
  forall (a0 a1 a2 a3 : byte) (rest : list byte),
    (byte.unsigned a0 < 100 -> byte.unsigned a1 < 100 ->
     byte.unsigned a2 < 100 -> byte.unsigned a3 < 100 ->
     web100_value_to_text WEB100_TYPE_IP_ADDRESS (a0 :: a1 :: a2 :: a3 :: rest)
     = Returns (utoa (byte.unsigned a0) ++ "." ++ utoa (byte.unsigned a1) ++ "."
                ++ utoa (byte.unsigned a2) ++ "." ++ utoa (byte.unsigned a3))%string)
    /\ (100 <= byte.unsigned a0 -> 100 <= byte.unsigned a1 ->
        100 <= byte.unsigned a2 -> 100 <= byte.unsigned a3 ->
        web100_value_to_text WEB100_TYPE_IP_ADDRESS (a0 :: a1 :: a2 :: a3 :: rest)
        = Aborts).
Proof.
  intros a0 a1 a2 a3 rest.
  pose proof (byte.unsigned_range a0). pose proof (byte.unsigned_range a1).
  pose proof (byte.unsigned_range a2). pose proof (byte.unsigned_range a3).
  split; intros H0' H1' H2' H3'; cbn [web100_value_to_text];
    unfold sprintf_text; rewrite !string_length_app; cbn [String.length].
  - assert (Hb : forall b, 0 <= byte.unsigned b < 100 ->
                           (String.length (utoa (byte.unsigned b)) <= 2)%nat).
    { intros b Hbr. apply (utoa_length_le 1). change (10 ^ Z.of_nat 2) with 100. lia. }
    pose proof (Hb a0 ltac:(lia)). pose proof (Hb a1 ltac:(lia)).
    pose proof (Hb a2 ltac:(lia)). pose proof (Hb a3 ltac:(lia)).
    match goal with
    | |- (if (?n <? 12)%nat then _ else _) = _ =>
        destruct (Nat.ltb_spec n 12); [reflexivity | lia]
    end.
  - assert (Hb : forall b, 100 <= byte.unsigned b ->
                           (3 <= String.length (utoa (byte.unsigned b)))%nat).
    { intros b Hbr. apply (utoa_length_ge 2). change (10 ^ Z.of_nat 2) with 100. lia. }
    pose proof (Hb a0 ltac:(lia)). pose proof (Hb a1 ltac:(lia)).
    pose proof (Hb a2 ltac:(lia)). pose proof (Hb a3 ltac:(lia)).
    match goal with
    | |- (if (?n <? 12)%nat then _ else _) = _ =>
        destruct (Nat.ltb_spec n 12); [lia | reflexivity]
    end.
Qed.

Lemma web100_value_to_text_numeric_witness :
  exists text : string,
    web100_value_to_text WEB100_TYPE_UNSIGNED16 [Byte.x50; Byte.x00] = Returns text
    /\ is_decimal text = true
    /\ (String.length text <= 10)%nat
    /\ decimal_value 0 text
       = le_combine (firstn (Z.to_nat (size_from_type WEB100_TYPE_UNSIGNED16))
                            [Byte.x50; Byte.x00])
    /\ atoi text
       = int_of_long (le_combine (firstn (Z.to_nat (size_from_type WEB100_TYPE_UNSIGNED16))
                                         [Byte.x50; Byte.x00]))
    /\ (le_combine (firstn (Z.to_nat (size_from_type WEB100_TYPE_UNSIGNED16))
                           [Byte.x50; Byte.x00]) < 2 ^ 31 ->
        atoi text
        = le_combine (firstn (Z.to_nat (size_from_type WEB100_TYPE_UNSIGNED16))
                             [Byte.x50; Byte.x00])).
Proof.
  apply web100_value_to_text_numeric; [discriminate | discriminate | cbn; lia].
Defined.

Lemma web100_value_to_text_counter64_witness :
  (web100_value_to_text WEB100_TYPE_COUNTER64
     [Byte.x05; Byte.x00; Byte.x00; Byte.x00; Byte.x00; Byte.x00; Byte.x00; Byte.x00]
   = Returns "5"
   /\ is_decimal "5" = true
   /\ decimal_value 0 "5" = 5)
  /\ web100_value_to_text WEB100_TYPE_COUNTER64 example_junk = Aborts.
Proof.
  split.
  - apply (web100_value_to_text_counter64
             [Byte.x05; Byte.x00; Byte.x00; Byte.x00;
              Byte.x00; Byte.x00; Byte.x00; Byte.x00]);
      [cbn; lia | vm_compute; reflexivity].
  - apply (web100_value_to_text_counter64 example_junk);
      [cbn; lia | vm_compute; discriminate].
Defined.

Lemma web100_value_to_text_ip_address_witness :
  web100_value_to_text WEB100_TYPE_IP_ADDRESS [Byte.x0a; Byte.x00; Byte.x00; Byte.x01]
  = Returns "10.0.0.1"
  /\ web100_value_to_text WEB100_TYPE_IP_ADDRESS [Byte.xc0; Byte.xa8; Byte.x64; Byte.xc8]
     = Aborts.
Proof.
  split.
  - apply (web100_value_to_text_ip_address Byte.x0a Byte.x00 Byte.x00 Byte.x01 []);
      vm_compute; reflexivity.
  - apply (web100_value_to_text_ip_address Byte.xc0 Byte.xa8 Byte.x64 Byte.xc8 []);
      vm_compute; discriminate.
Defined.
